(** * brainduck: a streaming interpreter over a seekable source file

    Shallow embedding of [src/brainduck.c].  The interpreter never parses the
    program: it reads one byte under the file cursor, executes it and resolves
    loops by scanning the file forward or backward.  The model keeps that
    shape: the file is an immutable list of bytes with a cursor, every C
    [while] loop is an iteration of its body, and the global variables
    [stack], [stackptr] and [depth] are the fields of one session record. *)

From Stdlib Require Import ZArith Lia Ascii String.
From stdpp Require Import base tactics option list.

Open Scope Z_scope.

(** ** Machine integers

    [char] is the signed 8-bit type of the x86 ABIs, [unsigned int] has 32
    bits.  (With an unsigned [char] the comparison [c != EOF] of the
    validation loop would never fail, and validation would never return.)
    The [int] counters of the scans ([depth] in [ffindc_matching], [level]
    and [*where] in [check_matching_brackets]) move by one per byte read and
    are modelled as unbounded integers: they stay within the range of [int]
    on every source shorter than 2^30 bytes. *)

Definition EOF : Z := -1.

Definition to_char (v : Z) : Z := (v + 128) mod 256 - 128.

Definition to_uint (v : Z) : Z := v mod 2 ^ 32.

(** The byte a [char] is stored as, and the value [putc] writes. *)
Definition to_uchar (v : Z) : Z := v mod 256.

(** Character constants of the source. *)
Definition ch_gt : Z := 62.       (* '>' *)
Definition ch_lt : Z := 60.       (* '<' *)
Definition ch_plus : Z := 43.     (* '+' *)
Definition ch_minus : Z := 45.    (* '-' *)
Definition ch_dot : Z := 46.      (* '.' *)
Definition ch_comma : Z := 44.    (* ',' *)
Definition ch_lbrack : Z := 91.   (* '[' *)
Definition ch_rbrack : Z := 93.   (* ']' *)
Definition ch_lparen : Z := 40.   (* '(' *)
Definition ch_rparen : Z := 41.   (* ')' *)
Definition ch_hash : Z := 35.     (* '#' *)
Definition ch_nl : Z := 10.       (* '\n' *)
Definition ch_nul : Z := 0.       (* '\0' *)
Definition ch_space : Z := 32.    (* ' ' *)
Definition ch_cr : Z := 13.       (* '\r' *)
Definition ch_tab : Z := 9.       (* '\t' *)

Definition STACK_SIZE : Z := 1000.

Inductive Error : Set :=
| ERR_OK
| ERR_UNKNOWN_CHAR
| ERR_MATCHING_BRACKET
| ERR_BOUNDS
| ERR_FILE
| ERR_UNKNOWN.

(** The exit status [main] returns: the enumerator's value. *)
Definition error_code (e : Error) : Z :=
  match e with
  | ERR_OK => 0
  | ERR_UNKNOWN_CHAR => 1
  | ERR_MATCHING_BRACKET => 2
  | ERR_BOUNDS => 3
  | ERR_FILE => 4
  | ERR_UNKNOWN => 5
  end.

(** ** While loops

    A loop body either continues with a new loop state ([inl]) or leaves the
    loop with a result ([inr]); it yields [None] when a loop it calls has not
    finished.  [while] runs at most [fuel] iterations. *)

Fixpoint while {St Res : Type} (body : St -> option (St + Res)) (fuel : nat)
    (s : St) : option Res :=
  match fuel with
  | O => None
  | S n =>
      match body s with
      | None => None
      | Some (inr r) => Some r
      | Some (inl s') => while body n s'
      end
  end.

(** A fuelled computation returns [r] when every large enough amount of
    fuel gives [r]. *)
Definition returns {A : Type} (run : nat -> option A) (r : A) : Prop :=
  exists n0 : nat, forall n : nat, (n0 <= n)%nat -> run n = Some r.

(** [iterates body s s']: the loop whose body is [body] gets from the loop
    state [s] to the loop state [s'] in finitely many iterations, each of
    which returns. *)
Inductive iterates {St Res : Type} (body : nat -> St -> option (St + Res))
  : St -> St -> Prop :=
| iterates_refl : forall s, iterates body s s
| iterates_step : forall s s' s'',
    returns (fun n => body n s) (inl s') ->
    iterates body s' s'' ->
    iterates body s s''.

(** ** The source file: bytes and a cursor *)

Definition file := list Z.

(** [fseek(file, n, SEEK_CUR)]: a seek before the first byte fails and
    leaves the cursor where it was. *)
Definition fseek_cur (pos n : Z) : Z :=
  if 0 <=? pos + n then pos + n else pos.

(** [fgetc]: the byte under the cursor, which then advances; [EOF] at or
    past the end, where the cursor does not move. *)
Definition fgetc (f : file) (pos : Z) : Z * Z :=
  match f !! Z.to_nat pos with
  | Some b => (b, pos + 1)
  | None => (EOF, pos)
  end.

(** Read one char from file without moving file pointer. *)
Definition freadc (f : file) (pos : Z) : Z * Z :=
  let '(i, pos) := fgetc f pos in
  (i, fseek_cur pos (-1)).

Definition fmove (pos n : Z) : Z := fseek_cur pos n.

Definition fmoveback (pos n : Z) : Z :=
  let n := if n <? 0 then - n else n in
  fseek_cur pos (- n).

(** Move file pointer until either given byte or EOF is found. *)
Definition ffindc_body (f : file) (c : Z) (pos : Z) : option (Z + Z * Z) :=
  let '(ret, pos) := freadc f pos in
  if ret =? EOF then Some (inr (ret, pos))
  else if ret =? c then Some (inr (ret, pos))
  else Some (inl (fmove pos 1)).

Definition ffindc (fuel : nat) (f : file) (c : Z) (pos : Z) : option (Z * Z) :=
  while (ffindc_body f c) fuel pos.

(** The loop state of [ffindc_matching] is its local [depth] and the
    cursor; the result is the last value read and the cursor. *)
Definition ffindc_matching_body (f : file) (c1 c2 direction : Z)
    (st : Z * Z) : option (Z * Z + Z * Z) :=
  let '(depth, pos) := st in
  let '(v, pos) := freadc f pos in
  if v =? EOF then Some (inr (v, pos))
  else if v =? c1 then Some (inl (depth + 1, fmove pos direction))
  else if v =? c2 then
    if depth =? 1 then Some (inr (v, pos))
    else Some (inl (depth - 1, fmove pos direction))
  else Some (inl (depth, fmove pos direction)).

Definition ffindc_matching (fuel : nat) (f : file) (c1 c2 direction : Z)
    (pos : Z) : option (Z * Z) :=
  let direction := if direction <? 0 then -1 else 1 in
  while (ffindc_matching_body f c1 c2 direction) fuel (0, pos).

(** ** The session: the interpreter's global state and its streams

    [stack] is the tape, [stackptr] the index [stackptr - stack] of the cell
    pointed at, [depth] the global loop counter, [fpos] the file cursor.
    [inp] holds the first byte of each line still to be read from stdin and
    [out] the bytes written by [print_byte], oldest first. *)

Record session : Type := mkSession {
  stack : list Z;
  stackptr : Z;
  depth : Z;
  fpos : Z;
  inp : list Z;
  out : list Z
}.

Definition set_stack (s : session) (v : list Z) : session :=
  mkSession v (stackptr s) (depth s) (fpos s) (inp s) (out s).
Definition set_stackptr (s : session) (v : Z) : session :=
  mkSession (stack s) v (depth s) (fpos s) (inp s) (out s).
Definition set_depth (s : session) (v : Z) : session :=
  mkSession (stack s) (stackptr s) v (fpos s) (inp s) (out s).
Definition set_fpos (s : session) (v : Z) : session :=
  mkSession (stack s) (stackptr s) (depth s) v (inp s) (out s).
Definition set_inp (s : session) (v : list Z) : session :=
  mkSession (stack s) (stackptr s) (depth s) (fpos s) v (out s).
Definition set_out (s : session) (v : list Z) : session :=
  mkSession (stack s) (stackptr s) (depth s) (fpos s) (inp s) v.

(** [*stackptr].  The dispatcher checks [stackptr] against the tape's bounds
    before every command, so the cell is only ever read and written inside
    the tape; outside it the model reads 0 and writes nothing. *)
Definition cell (s : session) : Z :=
  if (0 <=? stackptr s) then default 0 (stack s !! Z.to_nat (stackptr s))
  else 0.

Definition set_cell (s : session) (v : Z) : session :=
  if (0 <=? stackptr s) then set_stack s (<[Z.to_nat (stackptr s) := v]> (stack s))
  else s.

(** COMMAND: Retrieves a single byte from stdin; 0 when there is no line. *)
Definition input_byte (s : session) : Z * session :=
  match inp s with
  | [] => (0, s)
  | b :: rest => (to_char b, set_inp s rest)
  end.

(** COMMAND: Prints a single byte to stdout. *)
Definition print_byte (s : session) (c : Z) : session :=
  set_out s (out s ++ [to_uchar c]).

(** ** Loop opening

    The scan's state is [current_depth] and the cursor; the global [depth]
    does not change during the scan. *)
Definition jump_forward_body (fuel : nat) (f : file) (depth : Z)
    (st : Z * Z) : option (Z * Z + Z) :=
  let '(current_depth, pos) := st in
  let '(v, pos) := freadc f pos in
  let c := to_char v in
  if c =? EOF then Some (inr pos)
  else if c =? ch_lbrack then
    Some (inl (to_uint (current_depth + 1), fmove pos 1))
  else if c =? ch_rbrack then
    if current_depth =? depth then Some (inr pos)
    else Some (inl (to_uint (current_depth - 1), fmove pos 1))
  else if c =? ch_lparen then
    match ffindc_matching fuel f ch_lparen ch_rparen 1 pos with
    | None => None
    | Some (_, pos) => Some (inl (current_depth, fmove pos 1))
    end
  else Some (inl (current_depth, fmove pos 1)).

Definition jump_forward (fuel : nat) (f : file) (s : session) : option session :=
  let s := set_depth s (to_uint (depth s + 1)) in
  if negb (cell s =? 0) then Some s
  else
    let pos := fmove (fpos s) 1 in
    match while (jump_forward_body fuel f (depth s)) fuel (depth s, pos) with
    | None => None
    | Some pos => Some (set_fpos s pos)
    end.

(** ** Loop closing *)
Definition jump_backward_body (fuel : nat) (f : file) (depth : Z)
    (st : Z * Z) : option (Z * Z + Z) :=
  let '(current_depth, pos) := st in
  let '(v, pos) := freadc f pos in
  let c := to_char v in
  if c =? ch_rbrack then
    Some (inl (to_uint (current_depth + 1), fmoveback pos 1))
  else if c =? ch_lbrack then
    if current_depth =? depth then Some (inr pos)
    else Some (inl (to_uint (current_depth - 1), fmoveback pos 1))
  else if c =? ch_rparen then
    match ffindc_matching fuel f ch_rparen ch_lparen (-1) pos with
    | None => None
    | Some (_, pos) => Some (inl (current_depth, fmoveback pos 1))
    end
  else Some (inl (current_depth, fmoveback pos 1)).

Definition jump_backward (fuel : nat) (f : file) (s : session) : option session :=
  if cell s =? 0 then Some (set_depth s (to_uint (depth s - 1)))
  else
    let pos := fmoveback (fpos s) 1 in
    match while (jump_backward_body fuel f (depth s)) fuel (depth s, pos) with
    | None => None
    | Some pos =>
        let s := set_fpos s pos in
        let s := set_depth s (to_uint (depth s - 1)) in
        Some (set_fpos s (fmoveback (fpos s) 1))
    end.

(** ** The dispatcher

    One iteration of the loop of [interpret_file]: read the byte under the
    cursor, check the tape pointer, execute the command, step one byte. *)
Definition command (fuel : nat) (f : file) (c : Z) (s : session)
  : option (option session) :=
  if c =? ch_gt then Some (Some (set_stackptr s (stackptr s + 1)))
  else if c =? ch_lt then Some (Some (set_stackptr s (stackptr s - 1)))
  else if c =? ch_plus then Some (Some (set_cell s (to_char (cell s + 1))))
  else if c =? ch_minus then Some (Some (set_cell s (to_char (cell s - 1))))
  else if c =? ch_dot then Some (Some (print_byte s (cell s)))
  else if c =? ch_comma then
    let '(b, s) := input_byte s in Some (Some (set_cell s b))
  else if c =? ch_lbrack then
    match jump_forward fuel f s with None => None | Some s => Some (Some s) end
  else if c =? ch_rbrack then
    match jump_backward fuel f s with None => None | Some s => Some (Some s) end
  else if (c =? ch_nl) || (c =? ch_nul) then Some (Some s)
  else if c =? ch_lparen then
    match ffindc_matching fuel f ch_lparen ch_rparen 1 (fpos s) with
    | None => None
    | Some (_, pos) => Some (Some (set_fpos s pos))
    end
  else if c =? ch_rparen then Some (Some s)
  else if c =? ch_hash then
    match ffindc fuel f ch_nl (fpos s) with
    | None => None
    | Some (_, pos) => Some (Some (set_fpos s pos))
    end
  else if (c =? ch_space) || (c =? ch_cr) || (c =? ch_tab) then Some (Some s)
  else Some None.

Definition interpret_body (fuel : nat) (f : file) (s : session)
  : option (session + Error * session) :=
  let '(v, pos) := freadc f (fpos s) in
  let s := set_fpos s pos in
  let c := to_char v in
  if c =? EOF then Some (inr (ERR_OK, s))
  else if stackptr s <? 0 then Some (inr (ERR_BOUNDS, set_stackptr s 0))
  else if STACK_SIZE <=? stackptr s then
    Some (inr (ERR_BOUNDS, set_stackptr s (STACK_SIZE - 1)))
  else
    match command fuel f c s with
    | None => None
    | Some None => Some (inr (ERR_UNKNOWN_CHAR, s))
    | Some (Some s) => Some (inl (set_fpos s (fmove (fpos s) 1)))
    end.

(** Iterates through every byte of the script and executes each command. *)
Definition interpret_file (fuel : nat) (f : file) (s : session)
  : option (Error * session) :=
  while (interpret_body fuel f) fuel s.

(** ** Preflight validation

    The loop state is [level], [*where] and the cursor.  The function ends
    with the cursor back at the start of the file, which is where every
    caller's next read starts, so only the verdict and [*where] are kept. *)
Definition check_body (f : file) (open close : Z) (st : Z * Z * Z)
  : option (Z * Z * Z + Z * Z) :=
  let '(level, where_, pos) := st in
  let '(v, pos) := freadc f pos in
  let c := to_char v in
  if c =? EOF then Some (inr (level, where_))
  else
    let level :=
      if c =? open then level + 1
      else if c =? close then level - 1
      else level in
    Some (inl (level, where_ + 1, fmove pos 1)).

Definition check_matching_brackets (fuel : nat) (f : file) (open close : Z)
    (where_ : Z) : option (Error * Z) :=
  match while (check_body f open close) fuel (0, where_, 0) with
  | None => None
  | Some (level, where_) =>
      if negb (level =? 0) then Some (ERR_MATCHING_BRACKET, where_)
      else Some (ERR_OK, where_)
  end.

(** ** A run *)

Definition initial (input : list Z) : session :=
  mkSession (replicate (Z.to_nat STACK_SIZE) 0) 0 0 0 input [].

(** What a run leaves: the exit status, the session, and the offset printed
    with the message of a validation failure. *)
Record outcome : Type := mkOutcome {
  status : Error;
  final : session;
  reported : option Z
}.

(** [readfile] on a file that opens.  The second validation pass runs only
    when the first succeeds, and adds to the same [where_err]. *)
Definition readfile (fuel : nat) (f : file) (input : list Z) : option outcome :=
  let where_err := 0 in
  match check_matching_brackets fuel f ch_lbrack ch_rbrack where_err with
  | None => None
  | Some (e1, where_err) =>
      if negb (match e1 with ERR_OK => true | _ => false end) then
        Some (mkOutcome ERR_MATCHING_BRACKET (initial input) (Some where_err))
      else
        match check_matching_brackets fuel f ch_lparen ch_rparen where_err with
        | None => None
        | Some (e2, where_err) =>
            if negb (match e2 with ERR_OK => true | _ => false end) then
              Some (mkOutcome ERR_MATCHING_BRACKET (initial input) (Some where_err))
            else
              match interpret_file fuel f (initial input) with
              | None => None
              | Some (err, s) => Some (mkOutcome err s None)
              end
        end
  end.

(** The bytes of a source text. *)
Definition bytes (s : string) : file :=
  map (fun a => Z.of_N (N_of_ascii a)) (list_ascii_of_string s).

(** A fuelled function is monotone when a result reached with some fuel is
    reached with any larger amount. *)
Definition monotone {A B : Type} (run : nat -> A -> option B) : Prop :=
  forall (n m : nat) (a : A) (b : B),
    (n <= m)%nat -> run n a = Some b -> run m a = Some b.

(** The sessions at the head of the dispatcher's loop, one for each of the
    first [k] iterations. *)
Fixpoint dispatches (fuel k : nat) (f : file) (s : session) : list session :=
  match k with
  | O => []
  | S k' =>
      s :: match interpret_body fuel f s with
           | Some (inl s') => dispatches fuel k' f s'
           | _ => []
           end
  end.

(** ** The command line

    A C string is given by the [char]s before its terminating NUL; a 0 in
    the list ends the string as the NUL does. *)

(** Own implementation to avoid including string.h: step over equal
    [char]s until the first string ends or the strings differ, and return
    the difference of the two [char]s there, read as unsigned. *)
Fixpoint strcmp (s1 s2 : list Z) : Z :=
  match s1 with
  | [] => 0 - to_uchar (hd 0 s2)
  | a :: r1 =>
      if a =? 0 then 0 - to_uchar (hd 0 s2)
      else
        match s2 with
        | [] => to_uchar a - 0
        | b :: r2 =>
            if a =? b then strcmp r1 r2 else to_uchar a - to_uchar b
        end
  end.

(** [readfile(filename)]: [fopen] gives the bytes of the file or fails;
    when it fails nothing is validated or run and the result is
    [ERR_FILE]. *)
Definition readfile_path (fuel : nat) (fopen : list Z -> option file)
    (filename : list Z) (input : list Z) : option outcome :=
  match fopen filename with
  | None => Some (mkOutcome ERR_FILE (initial input) None)
  | Some f => readfile fuel f input
  end.

(** [main]: the exit status, and whether the debug dump of the tape is
    printed after the run.  [argv] holds the program name and the
    arguments. *)
Definition main (fuel : nat) (fopen : list Z -> option file)
    (argv : list (list Z)) (input : list Z) : option (Z * bool) :=
  let argc := Z.of_nat (length argv) in
  if argc <? 2 then Some (error_code ERR_FILE, false)
  else
    match readfile_path fuel fopen (default [] (argv !! 1%nat)) input with
    | None => None
    | Some r =>
        let debug :=
          (3 <=? argc) && (strcmp (default [] (argv !! 2%nat)) (bytes "--debug") =? 0) in
        Some (error_code (status r), debug)
    end.

(** ** Vocabulary of the statements *)

(** The offset of the first byte after [l], and the byte at an offset. *)
Definition len (l : list Z) : Z := Z.of_nat (length l).

Definition byte_at (f : file) (pos : Z) : option Z :=
  if 0 <=? pos then f !! Z.to_nat pos else None.

(** Number of occurrences of the byte [c]. *)
Definition count (c : Z) (l : list Z) : Z :=
  len (filter (fun b => b = c) l).

(** A source byte that does not read as [EOF] through a [char]: any byte
    value but 0xFF. *)
Definition plain_byte (b : Z) : Prop := 0 <= b < 255.

(** The cell of the tape at index [i]. *)
Definition tape (s : session) (i : Z) : Z :=
  default 0 (stack s !! Z.to_nat i).

(** A session whose tape has [STACK_SIZE] cells, each holding a [char]. *)
Definition tape_ok (s : session) : Prop :=
  length (stack s) = Z.to_nat STACK_SIZE
  /\ forall i, -128 <= tape s i < 128.

(** ** Straight-line programs, as the specification describes them

    These definitions follow the specification's words, not the code: a
    program of [+], [-], [>], [<] moves a head over the cells and adds to or
    subtracts from the cell under it. *)

Definition is_arith (c : Z) : bool :=
  (c =? ch_plus) || (c =? ch_minus) || (c =? ch_gt) || (c =? ch_lt).

(** The head after the command [c], from the head [p]. *)
Definition head_step (c p : Z) : Z :=
  if c =? ch_gt then p + 1 else if c =? ch_lt then p - 1 else p.

(** What the command [c], executed with the head at [p], adds to cell [i]. *)
Definition cell_step (c p i : Z) : Z :=
  if negb (p =? i) then 0
  else if c =? ch_plus then 1 else if c =? ch_minus then -1 else 0.

(** The head after the whole program. *)
Fixpoint head_after (prog : list Z) (p : Z) : Z :=
  match prog with
  | [] => p
  | c :: rest => head_after rest (head_step c p)
  end.

(** Increments minus decrements applied to cell [i]. *)
Fixpoint net_sum (prog : list Z) (p i : Z) : Z :=
  match prog with
  | [] => 0
  | c :: rest => cell_step c p i + net_sum rest (head_step c p) i
  end.

(** Whether the head is ever on cell [i], the start included. *)
Fixpoint visits (prog : list Z) (p i : Z) : bool :=
  (p =? i) ||
  match prog with
  | [] => false
  | c :: rest => visits rest (head_step c p) i
  end.

(** Whether every head position, the start and the end included, is a cell
    of the tape. *)
Fixpoint stays_inside (prog : list Z) (p : Z) : bool :=
  (0 <=? p) && (p <? STACK_SIZE) &&
  match prog with
  | [] => true
  | c :: rest => stays_inside rest (head_step c p)
  end.

(** ** Matching delimiters

    Independent of the scans: what it means for a delimiter to match
    another. *)

(** A file holds bytes. *)
Definition is_bytes (f : file) : Prop := Forall (fun b => 0 <= b < 256) f.

(** The bytes of [k] are those of the file from offset [p] on. *)
Fixpoint segment_at (f : file) (p : Z) (k : list Z) : Prop :=
  match k with
  | [] => True
  | b :: k' => byte_at f p = Some b /\ segment_at f (p + 1) k'
  end.

(** A text in which every [o] is closed by a later [c] and every [c] closes
    an earlier [o], pairs nesting properly. *)
Inductive nested (o c : Z) : list Z -> Prop :=
| nested_nil : nested o c []
| nested_other : forall b l,
    b <> o -> b <> c -> nested o c l -> nested o c (b :: l)
| nested_pair : forall k l,
    nested o c k -> nested o c l -> nested o c (o :: k ++ c :: l).

(** The [o] at offset [p] and the [c] at offset [q] match: what lies
    between them is properly nested. *)
Definition matching (o c : Z) (f : file) (p q : Z) : Prop :=
  exists k, nested o c k /\ segment_at f p (o :: k ++ [c])
            /\ q = p + 1 + len k.

(** The text between a ['['] and its [']'], as the bracket scans read it:
    bytes that are no delimiter, loops, and parenthesised comments, whose
    contents only have to nest their own parentheses.  The byte 0xFF, which
    the forward scan reads as [EOF], may only stand in a comment. *)
Inductive loop_text : list Z -> Prop :=
| loop_text_nil : loop_text []
| loop_text_plain : forall b l,
    b <> ch_lbrack -> b <> ch_rbrack -> b <> ch_lparen -> b <> ch_rparen ->
    b <> 255 -> loop_text l -> loop_text (b :: l)
| loop_text_loop : forall k l,
    loop_text k -> loop_text l ->
    loop_text (ch_lbrack :: k ++ ch_rbrack :: l)
| loop_text_comment : forall k l,
    nested ch_lparen ch_rparen k -> loop_text l ->
    loop_text (ch_lparen :: k ++ ch_rparen :: l).

(** The ['['] at offset [p] and the [']'] at offset [q] delimit a loop. *)
Definition loop_at (f : file) (p q : Z) : Prop :=
  exists k, loop_text k /\ segment_at f p (ch_lbrack :: k ++ [ch_rbrack])
            /\ q = p + 1 + len k.

(** The sessions a run of [f] goes through at the head of the dispatcher's
    loop: the initial session, and the session each iteration hands to the
    next. *)
Inductive reachable (f : file) (input : list Z) : session -> Prop :=
| reachable_initial : reachable f input (initial input)
| reachable_step : forall s s',
    reachable f input s ->
    returns (fun n => interpret_body n f s) (inl s') ->
    reachable f input s'.

(** The part of a source that the loops reading through a [char] see: the
    bytes before the first one that reads as [EOF]. *)
Fixpoint scanned (f : file) : list Z :=
  match f with
  | [] => []
  | b :: rest => if to_char b =? EOF then [] else b :: scanned rest
  end.

(** The bytes the dispatcher has a case for. *)
Definition recognised (b : Z) : bool :=
  (b =? ch_gt) || (b =? ch_lt) || (b =? ch_plus) || (b =? ch_minus)
  || (b =? ch_dot) || (b =? ch_comma) || (b =? ch_lbrack) || (b =? ch_rbrack)
  || (b =? ch_nl) || (b =? ch_nul) || (b =? ch_lparen) || (b =? ch_rparen)
  || (b =? ch_hash) || (b =? ch_space) || (b =? ch_cr) || (b =? ch_tab).

(** The session [s] with the loop counter [depth] moved by [k], as an
    [unsigned int]. *)
Definition shift_depth (k : Z) (s : session) : session :=
  set_depth s (to_uint (depth s + k)).

(** Two fuelled results agree: both are out of fuel, or both are there and
    related by [Q]. *)
Definition agree {A B : Type} (Q : A -> B -> Prop) (x : option A) (y : option B)
  : Prop :=
  match x, y with
  | None, None => True
  | Some a, Some b => Q a b
  | _, _ => False
  end.

(** * Loops that return *)

Section Returns.
Context {A : Type}.

Lemma returns_const (r : A) : returns (fun _ => Some r) r.
Proof. exists 0%nat. reflexivity. Qed.

Lemma returns_always (run : nat -> option A) (r : A) :
  (forall n, run n = Some r) -> returns run r.
Proof. intros H. exists 0%nat. intros n _. apply H. Qed.

Lemma returns_inj (run : nat -> option A) (r r' : A) :
  returns run r -> returns run r' -> r = r'.
Proof.
  intros [n Hn] [m Hm].
  specialize (Hn (Nat.max n m) (Nat.le_max_l _ _)).
  specialize (Hm (Nat.max n m) (Nat.le_max_r _ _)).
  congruence.
Qed.

Lemma returns_ext (run run' : nat -> option A) (r : A) :
  (forall n, run n = run' n) -> returns run r -> returns run' r.
Proof. intros E [n Hn]. exists n. intros m Hm. rewrite <- E. auto. Qed.

Lemma returns_bind {B : Type} (run : nat -> option A) (k : nat -> A -> option B)
    (a : A) (b : B) :
  returns run a -> returns (fun n => k n a) b ->
  returns (fun n => match run n with None => None | Some x => k n x end) b.
Proof.
  intros [n Hn] [m Hm]. exists (Nat.max n m). intros j Hj.
  rewrite Hn by lia. apply Hm. lia.
Qed.
End Returns.

Section While.
Context {St Res : Type}.
Variable body : nat -> St -> option (St + Res).

Lemma iterates_trans (s s' s'' : St) :
  iterates body s s' -> iterates body s' s'' -> iterates body s s''.
Proof.
  induction 1; intros; [assumption|].
  eapply iterates_step; eauto.
Qed.

Lemma iterates_one (s s' : St) :
  returns (fun n => body n s) (inl s') -> iterates body s s'.
Proof. intros. eapply iterates_step; [eassumption | apply iterates_refl]. Qed.

(** The iterations from [s] to [s'] cost a fixed amount of fuel. *)
Lemma iterates_while (s s' : St) :
  iterates body s s' ->
  exists n0 k : nat, forall n m : nat, (n0 <= n)%nat ->
    while (body n) (k + m) s = while (body n) m s'.
Proof.
  induction 1 as [s | s s' s'' [n1 H1] _ (n2 & k & IH)].
  - exists 0%nat, 0%nat. reflexivity.
  - exists (Nat.max n1 n2), (S k). intros n m Hn. simpl.
    rewrite H1 by lia. apply IH. lia.
Qed.

(** A loop returns [r] when it gets to a state whose iteration leaves
    the loop with [r]. *)
Lemma while_returns (s s' : St) (r : Res) :
  iterates body s s' ->
  returns (fun n => body n s') (inr r) ->
  returns (fun n => while (body n) n s) r.
Proof.
  intros (n1 & k & H1)%iterates_while [n2 H2].
  exists (Nat.max (Nat.max n1 n2) (S k)). intros n Hn.
  replace n with (k + S (n - S k))%nat at 2 by lia.
  rewrite H1 by lia. simpl. rewrite H2 by lia. reflexivity.
Qed.
End While.

(** * More fuel never changes a result *)

Lemma while_monotone {St Res : Type} (body : nat -> St -> option (St + Res)) :
  monotone body ->
  forall (k k' n n' : nat) (s : St) (r : Res),
    (k <= k')%nat -> (n <= n')%nat ->
    while (body n) k s = Some r -> while (body n') k' s = Some r.
Proof.
  intros Hb k. induction k as [|k IH]; intros k' n n' s r Hk Hn; simpl.
  - discriminate.
  - destruct k' as [|k']; [lia|]. simpl.
    destruct (body n s) as [[s'|r']|] eqn:E; try discriminate.
    + rewrite (Hb n n' s _ Hn E). apply IH; lia.
    + rewrite (Hb n n' s _ Hn E). trivial.
Qed.

Lemma monotone_returns {A B : Type} (run : nat -> A -> option B) (n : nat)
    (a : A) (b : B) :
  monotone run -> run n a = Some b -> returns (fun k => run k a) b.
Proof. intros Hm H. exists n. intros m Hle. eapply Hm; eassumption. Qed.

Lemma ffindc_monotone (f : file) (c : Z) :
  monotone (fun n => ffindc n f c).
Proof.
  intros n m pos r Hle. unfold ffindc.
  apply (while_monotone (fun _ => ffindc_body f c)) with (n := n) (n' := m);
    auto.
  intros ? ? ? ? _ H; exact H.
Qed.

Lemma ffindc_matching_monotone (f : file) (c1 c2 direction : Z) :
  monotone (fun n => ffindc_matching n f c1 c2 direction).
Proof.
  intros n m pos r Hle. unfold ffindc_matching.
  apply (while_monotone (fun _ => ffindc_matching_body f c1 c2 _))
    with (n := n) (n' := m); auto.
  intros ? ? ? ? _ H; exact H.
Qed.

Lemma jump_forward_body_monotone (f : file) (d : Z) :
  monotone (fun n => jump_forward_body n f d).
Proof.
  intros n m [cd pos] x Hle. unfold jump_forward_body.
  destruct (freadc f pos) as [v pos'].
  destruct (to_char v =? EOF); [trivial|].
  destruct (to_char v =? ch_lbrack); [trivial|].
  destruct (to_char v =? ch_rbrack); [trivial|].
  destruct (to_char v =? ch_lparen); [|trivial].
  destruct (ffindc_matching n f _ _ _ _) as [[w p]|] eqn:E; [|discriminate].
  rewrite (ffindc_matching_monotone f _ _ _ n m _ _ Hle E). trivial.
Qed.

Lemma jump_backward_body_monotone (f : file) (d : Z) :
  monotone (fun n => jump_backward_body n f d).
Proof.
  intros n m [cd pos] x Hle. unfold jump_backward_body.
  destruct (freadc f pos) as [v pos'].
  destruct (to_char v =? ch_rbrack); [trivial|].
  destruct (to_char v =? ch_lbrack); [trivial|].
  destruct (to_char v =? ch_rparen); [|trivial].
  destruct (ffindc_matching n f _ _ _ _) as [[w p]|] eqn:E; [|discriminate].
  rewrite (ffindc_matching_monotone f _ _ _ n m _ _ Hle E). trivial.
Qed.

Lemma jump_forward_monotone (f : file) :
  monotone (fun n => jump_forward n f).
Proof.
  intros n m s x Hle. unfold jump_forward.
  destruct (negb _); [trivial|].
  destruct (while (jump_forward_body n f _) n _) as [p|] eqn:E; [|discriminate].
  rewrite (while_monotone _ (jump_forward_body_monotone f _) n m n m _ _ Hle Hle E).
  trivial.
Qed.

Lemma jump_backward_monotone (f : file) :
  monotone (fun n => jump_backward n f).
Proof.
  intros n m s x Hle. unfold jump_backward.
  destruct (cell s =? 0); [trivial|].
  destruct (while (jump_backward_body n f _) n _) as [p|] eqn:E; [|discriminate].
  rewrite (while_monotone _ (jump_backward_body_monotone f _) n m n m _ _ Hle Hle E).
  trivial.
Qed.

Lemma command_monotone (f : file) (c : Z) :
  monotone (fun n => command n f c).
Proof.
  intros n m s x Hle. unfold command.
  repeat (match goal with
          | |- context [if ?b then _ else _] => destruct b; [trivial|]
          end); trivial.
  - destruct (jump_forward n f s) eqn:E; [|discriminate].
    rewrite (jump_forward_monotone f n m _ _ Hle E). trivial.
  - destruct (jump_backward n f s) eqn:E; [|discriminate].
    rewrite (jump_backward_monotone f n m _ _ Hle E). trivial.
  - destruct (ffindc_matching n f _ _ _ _) as [[w p]|] eqn:E; [|discriminate].
    rewrite (ffindc_matching_monotone f _ _ _ n m _ _ Hle E). trivial.
  - destruct (ffindc n f _ _) as [[w p]|] eqn:E; [|discriminate].
    rewrite (ffindc_monotone f _ n m _ _ Hle E). trivial.
Qed.

Lemma interpret_body_monotone (f : file) :
  monotone (fun n => interpret_body n f).
Proof.
  intros n m s x Hle. unfold interpret_body.
  destruct (freadc f (fpos s)) as [v pos].
  repeat (match goal with
          | |- context [if ?b then _ else _] => destruct b; [trivial|]
          end).
  destruct (command n f _ _) eqn:E; [|discriminate].
  rewrite (command_monotone f _ n m _ _ Hle E). trivial.
Qed.

Lemma interpret_file_monotone (f : file) :
  monotone (fun n => interpret_file n f).
Proof.
  intros n m s x Hle. unfold interpret_file.
  apply (while_monotone _ (interpret_body_monotone f)); assumption.
Qed.

Lemma check_matching_brackets_monotone (f : file) (open close : Z) :
  monotone (fun n => check_matching_brackets n f open close).
Proof.
  intros n m w x Hle. unfold check_matching_brackets.
  destruct (while _ n _) as [[l w']|] eqn:E; [|discriminate].
  rewrite (while_monotone (fun _ => check_body f open close)
             ltac:(intros ? ? ? ? _ H; exact H) n m n m _ _ Hle Hle E).
  trivial.
Qed.

Lemma readfile_monotone (f : file) :
  monotone (fun n => readfile n f).
Proof.
  intros n m input x Hle. unfold readfile.
  destruct (check_matching_brackets n f ch_lbrack _ _) as [[e1 w1]|] eqn:E1;
    [|discriminate].
  rewrite (check_matching_brackets_monotone f _ _ n m _ _ Hle E1).
  destruct (negb _); [trivial|].
  destruct (check_matching_brackets n f ch_lparen _ _) as [[e2 w2]|] eqn:E2;
    [|discriminate].
  rewrite (check_matching_brackets_monotone f _ _ n m _ _ Hle E2).
  destruct (negb _); [trivial|].
  destruct (interpret_file n f _) as [[e s]|] eqn:E3; [|discriminate].
  rewrite (interpret_file_monotone f n m _ _ Hle E3). trivial.
Qed.

(** A run that ends with some amount of fuel ends the same way with more. *)
Lemma readfile_returns (n : nat) (f : file) (input : list Z) (r : outcome) :
  readfile n f input = Some r -> returns (fun k => readfile k f input) r.
Proof. apply (monotone_returns (fun k => readfile k f)), readfile_monotone. Qed.

Lemma interpret_file_returns (n : nat) (f : file) (s : session)
    (r : Error * session) :
  interpret_file n f s = Some r -> returns (fun k => interpret_file k f s) r.
Proof.
  apply (monotone_returns (fun k => interpret_file k f)), interpret_file_monotone.
Qed.

(** * Depth at a loop close *)

(** C9.  [depth] is an unsigned counter and [jump_backward] decrements it
    without looking at it: a [']'] dispatched on a zero cell while [depth]
    is 0 leaves [depth] at 2^32 - 1 and changes nothing else.  The source
    [][] has as many ['['] as [']'], so validation accepts it, and its first
    dispatch is such a [']']: the second iteration of the dispatcher starts
    with [depth] = 4294967295, and the run ends with [ERR_OK]. *)
Theorem depth_wraps_at_zero :
  (forall (fuel : nat) (f : file) (s : session),
      cell s = 0 -> depth s = 0 ->
      jump_backward fuel f s = Some (set_depth s (2 ^ 32 - 1)))
  /\ check_matching_brackets 3 (bytes "][") ch_lbrack ch_rbrack 0
     = Some (ERR_OK, 2)
  /\ map (fun s => (fpos s, depth s)) (dispatches 3 3 (bytes "][") (initial []))
     = [(0, 0); (1, 4294967295); (2, 0)]
  /\ exists r, returns (fun n => readfile n (bytes "][") []) r
               /\ status r = ERR_OK.
Proof.
  split; [|split; [|split]].
  - intros fuel f s Hc Hd. unfold jump_backward. rewrite Hc, Hd. reflexivity.
  - vm_compute. reflexivity.
  - vm_compute. reflexivity.
  - destruct (readfile 4 (bytes "][") []) as [r|] eqn:E;
      [|vm_compute in E; discriminate].
    exists r. split; [apply (readfile_returns 4); exact E|].
    vm_compute in E. injection E as <-. reflexivity.
Qed.

Lemma depth_wraps_at_zero_witness :
  cell (initial []) = 0 /\ depth (initial []) = 0 /\
  jump_backward 0 (bytes "][") (initial [])
  = Some (set_depth (initial []) (2 ^ 32 - 1)).
Proof.
  split; [reflexivity | split; [reflexivity|]].
  apply (proj1 depth_wraps_at_zero); reflexivity.
Defined.

(** * The nested loop [[-]] *)

(** C8.  The program [[[-]]] started on a cell holding 3 terminates with
    [ERR_OK]: the cell ends at 0, every other part of the tape is as it was,
    and [depth] is back at 0.  The dispatcher's iterations, as (cursor, cell,
    depth) at the head of each: the inner ['['] at offset 1 is dispatched
    three times, each time with [depth] 1 and leaving [depth] at 2; the inner
    [']'] at offset 3 jumps back twice and falls through once the cell is 0;
    the outer [']'] at offset 4 then reads 0 and the run ends. *)
Theorem nested_clear_terminates :
  exists s' : session,
    returns (fun n => interpret_file n (bytes "[[-]]") (set_cell (initial []) 3))
            (ERR_OK, s')
    /\ stack s' = stack (initial []) /\ cell s' = 0
    /\ stackptr s' = 0 /\ depth s' = 0 /\ out s' = []
    /\ map (fun s => (fpos s, cell s, depth s))
           (dispatches 12 13 (bytes "[[-]]") (set_cell (initial []) 3))
       = [(0, 3, 0); (1, 3, 1); (2, 3, 2); (3, 2, 2);
          (1, 2, 1); (2, 2, 2); (3, 1, 2);
          (1, 1, 1); (2, 1, 2); (3, 0, 2);
          (4, 0, 1); (5, 0, 0)].
Proof.
  destruct (interpret_file 13 (bytes "[[-]]") (set_cell (initial []) 3))
    as [[e s']|] eqn:E; [|vm_compute in E; discriminate].
  assert (e = ERR_OK) as ->
      by (vm_compute in E; injection E as <- _; reflexivity).
  exists s'. split; [apply (interpret_file_returns 13); exact E|].
  vm_compute in E. injection E as <-.
  repeat split; vm_compute; reflexivity.
Qed.

(** * Reading the file *)

Lemma len_nonneg (l : list Z) : 0 <= len l.
Proof. unfold len. lia. Qed.

Lemma len_app (l k : list Z) : len (l ++ k) = len l + len k.
Proof. unfold len. rewrite length_app. lia. Qed.

Lemma len_cons (b : Z) (l : list Z) : len (b :: l) = 1 + len l.
Proof. unfold len. simpl. lia. Qed.

Lemma len_nil : len [] = 0.
Proof. reflexivity. Qed.

Lemma byte_at_middle (pre post : list Z) (b : Z) :
  byte_at (pre ++ b :: post) (len pre) = Some b.
Proof.
  unfold byte_at, len. rewrite (proj2 (Z.leb_le _ _)) by lia.
  rewrite Nat2Z.id. apply list_lookup_middle. reflexivity.
Qed.

Lemma byte_at_end (f : file) (pos : Z) : len f <= pos -> byte_at f pos = None.
Proof.
  unfold byte_at, len. intros H. rewrite (proj2 (Z.leb_le _ _)) by lia.
  apply lookup_ge_None. lia.
Qed.

Lemma byte_at_split (f : file) (pos b : Z) :
  byte_at f pos = Some b ->
  exists pre post, f = pre ++ b :: post /\ pos = len pre.
Proof.
  unfold byte_at. destruct (0 <=? pos) eqn:E; [|discriminate].
  apply Z.leb_le in E. intros H.
  exists (take (Z.to_nat pos) f), (drop (S (Z.to_nat pos)) f). split.
  - symmetry. apply take_drop_middle. exact H.
  - unfold len. apply lookup_lt_Some in H. rewrite length_take. lia.
Qed.

Lemma freadc_byte (f : file) (pos b : Z) :
  byte_at f pos = Some b -> freadc f pos = (b, pos).
Proof.
  unfold byte_at, freadc, fgetc, fseek_cur.
  destruct (0 <=? pos) eqn:E; [|discriminate]. apply Z.leb_le in E.
  intros ->. rewrite (proj2 (Z.leb_le _ _)) by lia. f_equal; lia.
Qed.

(** At the end of the file [fgetc] gives [EOF] and does not move, and the
    seek that follows steps back onto the last byte. *)
Lemma freadc_eof (f : file) (pos : Z) :
  0 <= pos -> byte_at f pos = None ->
  freadc f pos = (EOF, if 0 <? pos then pos - 1 else pos).
Proof.
  unfold byte_at, freadc, fgetc, fseek_cur. intros H.
  rewrite (proj2 (Z.leb_le _ _)) by lia. intros ->.
  destruct (0 <? pos) eqn:E.
  - apply Z.ltb_lt in E. rewrite (proj2 (Z.leb_le _ _)) by lia. f_equal; lia.
  - apply Z.ltb_ge in E. rewrite (proj2 (Z.leb_gt _ _)) by lia. reflexivity.
Qed.

Lemma fmove_forward (pos : Z) : 0 <= pos -> fmove pos 1 = pos + 1.
Proof.
  intros H. unfold fmove, fseek_cur. rewrite (proj2 (Z.leb_le _ _)) by lia.
  reflexivity.
Qed.

Lemma fmoveback_one (pos : Z) : 1 <= pos -> fmoveback pos 1 = pos - 1.
Proof.
  intros H. unfold fmoveback, fseek_cur. simpl.
  rewrite (proj2 (Z.leb_le _ _)) by lia. lia.
Qed.

Lemma fmove_backward (pos : Z) : 1 <= pos -> fmove pos (-1) = pos - 1.
Proof.
  intros H. unfold fmove, fseek_cur.
  rewrite (proj2 (Z.leb_le _ _)) by lia. lia.
Qed.

Lemma to_char_plain (b : Z) :
  plain_byte b -> to_char b <> EOF /\ (forall c, 0 <= c < 128 -> to_char b = c <-> b = c).
Proof.
  unfold plain_byte, to_char, EOF. intros H.
  destruct (Z_lt_le_dec b 128).
  - rewrite Z.mod_small by lia. split; [lia|]. intros; lia.
  - replace (b + 128) with (b - 128 + 1 * 256) by lia.
    rewrite Z.mod_add by lia. rewrite Z.mod_small by lia.
    split; [lia|]. intros; lia.
Qed.

(** * Preflight validation *)

Lemma count_nil (c : Z) : count c [] = 0.
Proof. reflexivity. Qed.

Lemma count_cons (c b : Z) (l : list Z) :
  count c (b :: l) = (if b =? c then 1 else 0) + count c l.
Proof.
  unfold count. rewrite filter_cons. destruct (decide (b = c)) as [->|Hne].
  - rewrite Z.eqb_refl, len_cons. reflexivity.
  - rewrite (proj2 (Z.eqb_neq _ _) Hne). lia.
Qed.

Lemma count_app (c : Z) (l k : list Z) : count c (l ++ k) = count c l + count c k.
Proof. unfold count. rewrite filter_app, len_app. reflexivity. Qed.

Lemma count_nonneg (c : Z) (l : list Z) : 0 <= count c l.
Proof. apply len_nonneg. Qed.

Section Validation.
Variables open close : Z.
Hypothesis open_char : 0 <= open < 128.
Hypothesis close_char : 0 <= close < 128.
Hypothesis open_close : open <> close.

(** One pass over a stretch of plain bytes: the level moves by the
    difference of the two counts and [*where] by the stretch's length. *)
Lemma check_iterates (rest pre : list Z) (level w : Z) :
  Forall plain_byte rest ->
  iterates (fun _ => check_body (pre ++ rest) open close)
    (level, w, len pre)
    (level + count open rest - count close rest, w + len rest,
     len pre + len rest).
Proof.
  intros Hp. revert pre level w.
  induction Hp as [|b rest Hb _ IH]; intros pre level w.
  - rewrite !count_nil, len_nil, !Z.add_0_r, Z.sub_0_r. apply iterates_refl.
  - destruct (to_char_plain b Hb) as [Hne Heq].
    eapply iterates_step.
    + apply returns_always. intros _. unfold check_body.
      rewrite (freadc_byte _ _ b) by apply byte_at_middle.
      rewrite (proj2 (Z.eqb_neq _ _) Hne).
      rewrite fmove_forward by apply len_nonneg. reflexivity.
    + specialize (IH (pre ++ [b])
                    (if to_char b =? open then level + 1
                     else if to_char b =? close then level - 1 else level)
                    (w + 1)).
      rewrite <- app_assoc in IH. simpl in IH.
      rewrite len_app, len_cons, len_nil in IH.
      rewrite !count_cons, len_cons.
      replace (len pre + (1 + len rest)) with (len pre + (1 + 0) + len rest)
        by lia.
      replace (w + (1 + len rest)) with (w + 1 + len rest) by lia.
      replace (len pre + 1) with (len pre + (1 + 0)) by lia.
      match goal with
      | H : iterates _ ?a ?b |- iterates _ ?a ?b' =>
          replace b' with b; [exact H|]
      end.
      f_equal. f_equal.
      destruct (to_char b =? open) eqn:E1.
      * apply Z.eqb_eq, Heq in E1; [|assumption]. subst b.
        rewrite Z.eqb_refl, (proj2 (Z.eqb_neq _ _) open_close). lia.
      * apply Z.eqb_neq in E1.
        assert (b <> open) as Hbo by (intros ->; apply E1, Heq; auto).
        rewrite (proj2 (Z.eqb_neq _ _) Hbo).
        destruct (to_char b =? close) eqn:E2.
        -- apply Z.eqb_eq, Heq in E2; [|assumption]. subst b.
           rewrite Z.eqb_refl. lia.
        -- apply Z.eqb_neq in E2.
           assert (b <> close) as Hbc by (intros ->; apply E2, Heq; auto).
           rewrite (proj2 (Z.eqb_neq _ _) Hbc). lia.
Qed.

Lemma check_matching_brackets_returns (f : file) (w : Z) :
  Forall plain_byte f ->
  returns (fun n => check_matching_brackets n f open close w)
    (if count open f =? count close f then ERR_OK else ERR_MATCHING_BRACKET,
     w + len f).
Proof.
  intros Hp. unfold check_matching_brackets.
  pose proof (check_iterates f [] 0 w Hp) as Hit. simpl in Hit.
  eapply (returns_bind _ (fun _ x => _)).
  - eapply (while_returns (fun _ => check_body f open close)); [exact Hit|].
    unfold check_body. rewrite len_nil, Z.add_0_l.
    rewrite (freadc_eof f (len f)) by
      (try apply len_nonneg; apply byte_at_end; lia).
    apply returns_const.
  - simpl. replace (count open f =? count close f)
      with (count open f - count close f =? 0)
      by (destruct (Z.eqb_spec (count open f - count close f) 0);
          destruct (Z.eqb_spec (count open f) (count close f)); lia).
    destruct (_ =? 0); apply returns_const.
Qed.
End Validation.

Lemma plain_bytes_check (f : file) :
  forallb (fun b => (0 <=? b) && (b <? 255)) f = true -> Forall plain_byte f.
Proof.
  intros H. apply Forall_forall. intros b Hb.
  rewrite forallb_forall in H. apply list_elem_of_In in Hb.
  specialize (H b Hb). apply andb_true_iff in H as [H1 H2].
  apply Z.leb_le in H1. apply Z.ltb_lt in H2. unfold plain_byte. lia.
Qed.

Lemma readfile_brackets_unequal (f : file) (input : list Z) :
  Forall plain_byte f ->
  count ch_lbrack f <> count ch_rbrack f ->
  returns (fun n => readfile n f input)
    (mkOutcome ERR_MATCHING_BRACKET (initial input) (Some (len f))).
Proof.
  intros Hp Hne. unfold readfile.
  eapply returns_bind.
  - apply (check_matching_brackets_returns ch_lbrack ch_rbrack);
      unfold ch_lbrack, ch_rbrack; try lia. exact Hp.
  - simpl. rewrite (proj2 (Z.eqb_neq _ _) Hne). simpl. apply returns_const.
Qed.

Lemma readfile_parens_unequal (f : file) (input : list Z) :
  Forall plain_byte f ->
  count ch_lbrack f = count ch_rbrack f ->
  count ch_lparen f <> count ch_rparen f ->
  returns (fun n => readfile n f input)
    (mkOutcome ERR_MATCHING_BRACKET (initial input) (Some (2 * len f))).
Proof.
  intros Hp Heq Hne. unfold readfile.
  eapply returns_bind.
  - apply (check_matching_brackets_returns ch_lbrack ch_rbrack);
      unfold ch_lbrack, ch_rbrack; try lia. exact Hp.
  - simpl. rewrite (proj2 (Z.eqb_eq _ _) Heq). simpl.
    eapply returns_bind.
    + apply (check_matching_brackets_returns ch_lparen ch_rparen);
        unfold ch_lparen, ch_rparen; try lia. exact Hp.
    + simpl. rewrite (proj2 (Z.eqb_neq _ _) Hne). simpl.
      replace (2 * len f) with (0 + len f + len f) by lia. apply returns_const.
Qed.

(** When both counts agree validation passes and the run is the
    dispatcher's. *)
Lemma readfile_validated (f : file) (input : list Z) (e : Error) (s : session) :
  Forall plain_byte f ->
  count ch_lbrack f = count ch_rbrack f ->
  count ch_lparen f = count ch_rparen f ->
  returns (fun n => interpret_file n f (initial input)) (e, s) ->
  returns (fun n => readfile n f input) (mkOutcome e s None).
Proof.
  intros Hp Hb Hc Hrun. unfold readfile.
  eapply returns_bind.
  - apply (check_matching_brackets_returns ch_lbrack ch_rbrack);
      unfold ch_lbrack, ch_rbrack; try lia. exact Hp.
  - simpl. rewrite (proj2 (Z.eqb_eq _ _) Hb). simpl.
    eapply returns_bind.
    + apply (check_matching_brackets_returns ch_lparen ch_rparen);
        unfold ch_lparen, ch_rparen; try lia. exact Hp.
    + simpl. rewrite (proj2 (Z.eqb_eq _ _) Hc). simpl.
      eapply returns_bind; [exact Hrun|]. simpl. apply returns_const.
Qed.

(** Validation over a source free of the byte 0xFF: unequal counts of ['[']
    and [']'] end the run with [ERR_MATCHING_BRACKET] before the dispatcher
    starts, on the untouched initial session. *)
Lemma unequal_brackets_rejected (f : file) (input : list Z) :
  Forall plain_byte f ->
  count ch_lbrack f <> count ch_rbrack f ->
  exists r, returns (fun n => readfile n f input) r
    /\ status r = ERR_MATCHING_BRACKET
    /\ final r = initial input /\ out (final r) = [].
Proof.
  intros Hp Hne. eexists. split; [apply readfile_brackets_unequal; assumption|].
  repeat split.
Qed.

(** C6, at the source made of the byte 0xFF followed by ['[']: it has one
    ['['] and no [']'], yet the run ends with [ERR_OK] and reports no
    offset.  Both validation passes read 0xFF into a [char], take it for
    [EOF] and stop before the bracket; so does the dispatcher. *)
Theorem unequal_brackets_behind_ff_accepted :
  count ch_lbrack (255 :: bytes "[") = 1
  /\ count ch_rbrack (255 :: bytes "[") = 0
  /\ check_matching_brackets 1 (255 :: bytes "[") ch_lbrack ch_rbrack 0
     = Some (ERR_OK, 0)
  /\ exists r, returns (fun n => readfile n (255 :: bytes "[") []) r
       /\ status r = ERR_OK /\ reported r = None.
Proof.
  split; [vm_compute; reflexivity|].
  split; [vm_compute; reflexivity|].
  split; [vm_compute; reflexivity|].
  destruct (readfile 1 (255 :: bytes "[") []) as [r|] eqn:E;
    [|vm_compute in E; discriminate].
  exists r. split; [apply (readfile_returns 1); exact E|].
  vm_compute in E. injection E as <-. split; reflexivity.
Qed.

(** C10, at two sources holding the byte 0xFF, where a validation pass
    reads that byte into a [char], takes it for [EOF] and stops short of the
    end of the source.  In ['['; 0xFF] the bracket pass fails and the offset
    reported is 1, not the length 2.  In ['('; 0xFF; '('] the bracket pass
    succeeds, the parenthesis pass fails, and the offset reported is 2: not
    twice the length 3, and the offset of an unmatched ['(']. *)
Theorem reported_offset_short_of_length :
  (returns (fun n => readfile n (bytes "[" ++ [255]) [])
     (mkOutcome ERR_MATCHING_BRACKET (initial []) (Some 1))
   /\ len (bytes "[" ++ [255]) = 2)
  /\ (returns (fun n => readfile n (bytes "(" ++ 255 :: bytes "(") [])
        (mkOutcome ERR_MATCHING_BRACKET (initial []) (Some 2))
      /\ check_matching_brackets 2 (bytes "(" ++ 255 :: bytes "(")
           ch_lbrack ch_rbrack 0 = Some (ERR_OK, 1)
      /\ len (bytes "(" ++ 255 :: bytes "(") = 3
      /\ byte_at (bytes "(" ++ 255 :: bytes "(") 2 = Some ch_lparen).
Proof.
  split; [split|split; [|split; [|split]]].
  - apply (readfile_returns 2). vm_compute. reflexivity.
  - vm_compute. reflexivity.
  - apply (readfile_returns 2). vm_compute. reflexivity.
  - vm_compute. reflexivity.
  - vm_compute. reflexivity.
  - vm_compute. reflexivity.
Qed.

(** For a source free of the byte 0xFF each pass scans to the end of the
    source and adds its length to the shared counter: the offset reported is
    the source length when the ['[']/[']'] counts differ, and twice the
    source length when they agree and the ['(']/[')'] counts differ.
    Neither is the offset of a byte of the source. *)
Lemma validation_reports_scanned_length (f : file) (input : list Z) :
  Forall plain_byte f ->
  (count ch_lbrack f <> count ch_rbrack f ->
   returns (fun n => readfile n f input)
     (mkOutcome ERR_MATCHING_BRACKET (initial input) (Some (len f))))
  /\ (count ch_lbrack f = count ch_rbrack f ->
      count ch_lparen f <> count ch_rparen f ->
      returns (fun n => readfile n f input)
        (mkOutcome ERR_MATCHING_BRACKET (initial input) (Some (2 * len f))))
  /\ byte_at f (len f) = None /\ byte_at f (2 * len f) = None.
Proof.
  intros Hp. repeat split.
  - apply readfile_brackets_unequal; assumption.
  - apply readfile_parens_unequal; assumption.
  - apply byte_at_end. lia.
  - apply byte_at_end. pose proof (len_nonneg f). lia.
Qed.

Lemma validation_reports_scanned_length_example :
  Forall plain_byte (bytes "[+]())")
  /\ returns (fun n => readfile n (bytes "[+]())") [])
       (mkOutcome ERR_MATCHING_BRACKET (initial []) (Some 12)).
Proof.
  assert (Forall plain_byte (bytes "[+]())")) as Hp
      by (apply plain_bytes_check; vm_compute; reflexivity).
  split; [exact Hp|].
  apply (proj1 (proj2 (validation_reports_scanned_length (bytes "[+]())") [] Hp)));
    vm_compute; congruence.
Defined.

(** * Tape bounds *)

(** The bounds check sits at the head of the dispatcher's loop: a pointer
    that has left the tape is caught when the next command is read. *)
Lemma bounds_fault_at_next_command (fuel : nat) (f : file) (s : session) (b : Z) :
  byte_at f (fpos s) = Some b -> to_char b <> EOF ->
  (stackptr s < 0 ->
   interpret_body fuel f s = Some (inr (ERR_BOUNDS, set_stackptr s 0)))
  /\ (STACK_SIZE <= stackptr s ->
      interpret_body fuel f s
      = Some (inr (ERR_BOUNDS, set_stackptr s (STACK_SIZE - 1)))).
Proof.
  intros Hb Hne. unfold interpret_body. rewrite (freadc_byte _ _ _ Hb).
  rewrite (proj2 (Z.eqb_neq _ _) Hne).
  assert (set_fpos s (fpos s) = s) as -> by (destruct s; reflexivity).
  split; intros H.
  - rewrite (proj2 (Z.ltb_lt _ _) H). reflexivity.
  - rewrite (proj2 (Z.ltb_ge _ _)) by (unfold STACK_SIZE in *; lia).
    rewrite (proj2 (Z.leb_le _ _) H). reflexivity.
Qed.

(** C5, as stated, fails at two programs that begin with [<].  In the
    one-byte source [<] the move takes the tape pointer to index -1, the
    next read is the end of the file, the dispatcher's loop ends before its
    bounds check, and the run returns [ERR_OK] with the pointer left at -1.
    The source [<[] never reaches the dispatcher: validation rejects it with
    [ERR_MATCHING_BRACKET]. *)
Lemma move_left_not_always_a_bounds_fault :
  (exists r, returns (fun n => readfile n (bytes "<") []) r
     /\ status r = ERR_OK /\ stackptr (final r) = -1)
  /\ (exists r, returns (fun n => readfile n (bytes "<[") []) r
        /\ status r = ERR_MATCHING_BRACKET).
Proof.
  split.
  - destruct (readfile 2 (bytes "<") []) as [r|] eqn:E;
      [|vm_compute in E; discriminate].
    exists r. split; [apply (readfile_returns 2); exact E|].
    vm_compute in E. injection E as <-. split; reflexivity.
  - destruct (readfile 3 (bytes "<[") []) as [r|] eqn:E;
      [|vm_compute in E; discriminate].
    exists r. split; [apply (readfile_returns 3); exact E|].
    vm_compute in E. injection E as <-. reflexivity.
Qed.

(** * The tape *)

Lemma to_char_range (v : Z) : -128 <= to_char v < 128.
Proof. unfold to_char. pose proof (Z.mod_pos_bound (v + 128) 256). lia. Qed.

Lemma to_char_small (v : Z) : -128 <= v < 128 -> to_char v = v.
Proof. intros H. unfold to_char. rewrite Z.mod_small; lia. Qed.

Lemma to_char_add (a b : Z) : to_char (to_char a + b) = to_char (a + b).
Proof.
  unfold to_char.
  replace ((a + 128) mod 256 - 128 + b + 128) with ((a + 128) mod 256 + b) by lia.
  rewrite Zplus_mod_idemp_l. f_equal. f_equal. lia.
Qed.

Lemma to_uchar_to_char (v : Z) : to_uchar (to_char v) = v mod 256.
Proof.
  unfold to_uchar, to_char.
  rewrite Zminus_mod_idemp_l. f_equal. lia.
Qed.

Lemma tape_ok_initial (input : list Z) : tape_ok (initial input).
Proof.
  split; [unfold initial; cbn [stack]; apply length_replicate|].
  intros i. unfold tape, initial. cbn [stack].
  destruct (replicate _ _ !! _) eqn:E; simpl; [|lia].
  apply lookup_replicate in E. lia.
Qed.

Lemma tape_initial (input : list Z) (i : Z) : tape (initial input) i = 0.
Proof.
  unfold tape, initial. cbn [stack].
  destruct (replicate _ _ !! _) eqn:E; simpl; [|reflexivity].
  apply lookup_replicate in E. tauto.
Qed.

Lemma cell_tape (s : session) : 0 <= stackptr s -> cell s = tape s (stackptr s).
Proof.
  intros H. unfold cell, tape. rewrite (proj2 (Z.leb_le _ _) H). reflexivity.
Qed.

Lemma tape_set_cell (s : session) (v i : Z) :
  tape_ok s -> 0 <= stackptr s < STACK_SIZE -> 0 <= i ->
  tape (set_cell s v) i = if i =? stackptr s then v else tape s i.
Proof.
  intros [Hlen _] Hp Hi. unfold tape, set_cell.
  rewrite (proj2 (Z.leb_le _ _)) by lia. simpl.
  destruct (Z.eqb_spec i (stackptr s)) as [->|Hne].
  - rewrite list_lookup_insert_eq by lia. reflexivity.
  - rewrite list_lookup_insert_ne by lia. reflexivity.
Qed.

Lemma tape_ok_set_cell (s : session) (v : Z) :
  tape_ok s -> 0 <= stackptr s < STACK_SIZE -> -128 <= v < 128 ->
  tape_ok (set_cell s v).
Proof.
  intros Hok Hp Hv. split.
  - unfold set_cell. rewrite (proj2 (Z.leb_le _ _)) by lia. simpl.
    rewrite length_insert. apply Hok.
  - intros i. destruct (Z_lt_le_dec i 0) as [Hneg|Hpos].
    + unfold tape. replace (Z.to_nat i) with (Z.to_nat 0) by lia.
      change (-128 <= tape (set_cell s v) 0 < 128).
      rewrite tape_set_cell by (auto; lia).
      destruct (0 =? stackptr s); [assumption|apply Hok].
    + rewrite tape_set_cell by auto.
      destruct (i =? stackptr s); [assumption|apply Hok].
Qed.

Lemma set_cell_fields (s : session) (v : Z) :
  stackptr (set_cell s v) = stackptr s /\ depth (set_cell s v) = depth s
  /\ fpos (set_cell s v) = fpos s /\ inp (set_cell s v) = inp s
  /\ out (set_cell s v) = out s.
Proof. unfold set_cell. destruct (0 <=? stackptr s); repeat split. Qed.

(** * The dispatcher on one byte *)

Lemma byte_at_nonneg (f : file) (pos b : Z) : byte_at f pos = Some b -> 0 <= pos.
Proof.
  unfold byte_at. destruct (Z.leb_spec 0 pos); [trivial|discriminate].
Qed.

Lemma set_fpos_same (s : session) : set_fpos s (fpos s) = s.
Proof. destruct s; reflexivity. Qed.

(** One iteration of the dispatcher on a byte that is not read as [EOF],
    with the tape pointer inside the tape. *)
Lemma interpret_body_command (fuel : nat) (f : file) (s : session) (b : Z) :
  byte_at f (fpos s) = Some b -> to_char b <> EOF ->
  0 <= stackptr s < STACK_SIZE ->
  interpret_body fuel f s =
  match command fuel f (to_char b) s with
  | None => None
  | Some None => Some (inr (ERR_UNKNOWN_CHAR, s))
  | Some (Some s') => Some (inl (set_fpos s' (fmove (fpos s') 1)))
  end.
Proof.
  intros Hb Hne Hp.
  unfold interpret_body. rewrite (freadc_byte _ _ _ Hb), set_fpos_same.
  rewrite (proj2 (Z.eqb_neq _ _) Hne).
  rewrite (proj2 (Z.ltb_ge _ _)) by lia.
  rewrite (proj2 (Z.leb_gt _ _)) by lia.
  reflexivity.
Qed.

(** At the end of the file the dispatcher's loop ends with [ERR_OK]; the
    failed read has stepped the cursor back by one. *)
Lemma interpret_body_eof (fuel : nat) (f : file) (s : session) :
  0 <= fpos s -> byte_at f (fpos s) = None ->
  interpret_body fuel f s
  = Some (inr (ERR_OK, set_fpos s (if 0 <? fpos s then fpos s - 1 else fpos s))).
Proof.
  intros Hp Hb. unfold interpret_body. rewrite (freadc_eof _ _ Hp Hb).
  reflexivity.
Qed.

(** * Straight-line programs *)

Lemma is_arith_cases (c : Z) :
  is_arith c = true -> c = ch_plus \/ c = ch_minus \/ c = ch_gt \/ c = ch_lt.
Proof.
  unfold is_arith. rewrite !orb_true_iff, !Z.eqb_eq. tauto.
Qed.

Lemma arith_step (f : file) (s : session) (c : Z) :
  byte_at f (fpos s) = Some c -> is_arith c = true ->
  0 <= stackptr s < STACK_SIZE -> tape_ok s ->
  exists s', (forall fuel, interpret_body fuel f s = Some (inl s'))
    /\ fpos s' = fpos s + 1
    /\ stackptr s' = head_step c (stackptr s)
    /\ depth s' = depth s /\ inp s' = inp s /\ out s' = out s
    /\ tape_ok s'
    /\ forall i, 0 <= i ->
         tape s' i = to_char (tape s i + cell_step c (stackptr s) i).
Proof.
  intros Hb Hc Hp Hok.
  pose proof (byte_at_nonneg _ _ _ Hb) as Hpos.
  assert (to_char c = c /\ c <> EOF) as [Hcc Hne]
    by (destruct (is_arith_cases c Hc) as [-> | [-> | [-> | ->]]];
        split; vm_compute; congruence).
  assert (forall fuel, interpret_body fuel f s =
            match command fuel f c s with
            | None => None
            | Some None => Some (inr (ERR_UNKNOWN_CHAR, s))
            | Some (Some s') => Some (inl (set_fpos s' (fmove (fpos s') 1)))
            end) as Hrun.
  { intros fuel.
    rewrite (interpret_body_command fuel f s c Hb) by (rewrite ?Hcc; auto).
    rewrite Hcc. reflexivity. }
  destruct (set_cell_fields s (to_char (cell s + 1))) as (Es1 & Es2 & Es3 & Es4 & Es5).
  destruct (set_cell_fields s (to_char (cell s - 1))) as (Em1 & Em2 & Em3 & Em4 & Em5).
  destruct (is_arith_cases c Hc) as [-> | [-> | [-> | ->]]];
    (eexists; split; [intros fuel; rewrite Hrun; reflexivity|]);
    cbn [fpos stackptr depth inp out set_fpos set_stackptr].
  - rewrite Es3, fmove_forward by lia.
    repeat (split; [first [reflexivity | assumption]|]).
    split; [apply (tape_ok_set_cell s _ Hok Hp (to_char_range _))|].
    intros i Hi.
    change (tape (set_cell s (to_char (cell s + 1))) i
            = to_char (tape s i + cell_step ch_plus (stackptr s) i)).
    rewrite tape_set_cell by auto. unfold cell_step. rewrite cell_tape by lia.
    rewrite (Z.eqb_sym (stackptr s) i).
    destruct (Z.eqb_spec i (stackptr s)) as [->|Hne']; simpl.
    + reflexivity.
    + rewrite Z.add_0_r. symmetry. apply to_char_small, Hok.
  - rewrite Em3, fmove_forward by lia.
    repeat (split; [first [reflexivity | assumption]|]).
    split; [apply (tape_ok_set_cell s _ Hok Hp (to_char_range _))|].
    intros i Hi.
    change (tape (set_cell s (to_char (cell s - 1))) i
            = to_char (tape s i + cell_step ch_minus (stackptr s) i)).
    rewrite tape_set_cell by auto. unfold cell_step. rewrite cell_tape by lia.
    rewrite (Z.eqb_sym (stackptr s) i).
    destruct (Z.eqb_spec i (stackptr s)) as [->|Hne']; simpl.
    + reflexivity.
    + rewrite Z.add_0_r. symmetry. apply to_char_small, Hok.
  - rewrite fmove_forward by lia.
    repeat (split; [first [reflexivity | assumption]|]).
    intros i Hi. unfold cell_step. destruct (negb _); simpl;
      rewrite Z.add_0_r; symmetry; apply to_char_small, Hok.
  - rewrite fmove_forward by lia.
    repeat (split; [first [reflexivity | assumption]|]).
    intros i Hi. unfold cell_step. destruct (negb _); simpl;
      rewrite Z.add_0_r; symmetry; apply to_char_small, Hok.
Qed.

Lemma arith_run (rest : list Z) :
  forall (pre : list Z) (s : session),
    forallb is_arith rest = true ->
    stays_inside rest (stackptr s) = true ->
    fpos s = len pre -> tape_ok s ->
    exists s', iterates (fun n => interpret_body n (pre ++ rest)) s s'
      /\ fpos s' = len pre + len rest
      /\ stackptr s' = head_after rest (stackptr s)
      /\ depth s' = depth s /\ inp s' = inp s /\ out s' = out s
      /\ tape_ok s'
      /\ forall i, 0 <= i ->
           tape s' i = to_char (tape s i + net_sum rest (stackptr s) i).
Proof.
  induction rest as [|c rest IH]; intros pre s Har Hin Hpos Hok.
  - exists s. split; [apply iterates_refl|].
    rewrite len_nil, Z.add_0_r. repeat (split; [first [reflexivity|assumption]|]).
    intros i _. simpl. rewrite Z.add_0_r. symmetry. apply to_char_small, Hok.
  - simpl in Har, Hin. apply andb_true_iff in Har as [Hc Har].
    apply andb_true_iff in Hin as [Hb Hin].
    apply andb_true_iff in Hb as [Hb1 Hb2].
    apply Z.leb_le in Hb1. apply Z.ltb_lt in Hb2.
    destruct (arith_step (pre ++ c :: rest) s c) as
      (s1 & Hrun & Hf1 & Hp1 & Hd1 & Hi1 & Ho1 & Hok1 & Ht1); auto.
    { rewrite Hpos. apply byte_at_middle. }
    destruct (IH (pre ++ [c]) s1) as
      (s' & Hit & Hf' & Hp' & Hd' & Hi' & Ho' & Hok' & Ht'); auto.
    { rewrite Hp1. exact Hin. }
    { rewrite Hf1, Hpos, len_app, len_cons, len_nil. lia. }
    rewrite <- app_assoc in Hit. simpl in Hit.
    exists s'. split.
    + eapply iterates_step; [|exact Hit].
      apply returns_always. exact Hrun.
    + rewrite Hf', len_app, !len_cons, len_nil.
      split; [lia|]. split; [rewrite Hp', Hp1; reflexivity|].
      split; [congruence|]. split; [congruence|]. split; [congruence|].
      split; [assumption|].
      intros i Hi. rewrite Ht', Ht1, Hp1 by assumption. simpl.
      rewrite to_char_add. f_equal. lia.
Qed.

Lemma arith_plain (prog : list Z) :
  forallb is_arith prog = true -> Forall plain_byte prog.
Proof.
  induction prog as [|c prog IH]; simpl; intros H; constructor.
  - apply andb_true_iff in H as [Hc _].
    destruct (is_arith_cases c Hc) as [-> | [-> | [-> | ->]]];
      unfold plain_byte; vm_compute; split; congruence.
  - apply IH. apply andb_true_iff in H. tauto.
Qed.

Lemma arith_count (prog : list Z) (c : Z) :
  forallb is_arith prog = true -> is_arith c = false -> count c prog = 0.
Proof.
  intros Hp Hc. induction prog as [|b prog IH]; [reflexivity|].
  simpl in Hp. apply andb_true_iff in Hp as [Hb Hp].
  rewrite count_cons, IH by assumption.
  destruct (Z.eqb_spec b c) as [->|]; [congruence|reflexivity].
Qed.

Lemma unvisited_net_sum (prog : list Z) (p i : Z) :
  visits prog p i = false -> net_sum prog p i = 0.
Proof.
  revert p. induction prog as [|c prog IH]; intros p H; [reflexivity|].
  simpl in *. apply orb_false_iff in H as [Hp H].
  rewrite IH by assumption. unfold cell_step. rewrite Hp. reflexivity.
Qed.

(** C7.  A program made only of [+], [-], [>], [<] (it has no brackets, so
    it is balanced) whose head never leaves the tape runs to the end with
    [ERR_OK]; the tape pointer ends where the moves lead; each cell of the
    tape holds the [char] whose byte is the net sum of the increments and
    decrements applied to it, modulo 256; every cell the head was never on
    holds 0; nothing is printed. *)
Theorem straight_line_net_sums (prog : list Z) (input : list Z) :
  forallb is_arith prog = true ->
  stays_inside prog 0 = true ->
  exists r, returns (fun n => readfile n prog input) r
    /\ status r = ERR_OK
    /\ stackptr (final r) = head_after prog 0
    /\ Z.of_nat (length (stack (final r))) = STACK_SIZE
    /\ out (final r) = []
    /\ forall i, 0 <= i < STACK_SIZE ->
         tape (final r) i = to_char (net_sum prog 0 i)
         /\ to_uchar (tape (final r) i) = net_sum prog 0 i mod 256
         /\ (visits prog 0 i = false -> tape (final r) i = 0).
Proof.
  intros Har Hin.
  destruct (arith_run prog [] (initial input) Har Hin eq_refl
              (tape_ok_initial input))
    as (s' & Hit & Hf & Hp & Hd & Hi & Ho & Hok & Ht).
  simpl in Hit. rewrite len_nil, Z.add_0_l in Hf.
  pose (s'' := set_fpos s' (if 0 <? fpos s' then fpos s' - 1 else fpos s')).
  exists (mkOutcome ERR_OK s'' None). split.
  - apply readfile_validated.
    + apply arith_plain, Har.
    + rewrite !arith_count by (assumption || reflexivity). reflexivity.
    + rewrite !arith_count by (assumption || reflexivity). reflexivity.
    + apply (while_returns _ _ s'); [exact Hit|].
      apply returns_always. intros n. apply interpret_body_eof.
      * rewrite Hf. apply len_nonneg.
      * apply byte_at_end. lia.
  - simpl. split; [reflexivity|]. split; [exact Hp|].
    split; [rewrite (proj1 Hok); reflexivity|]. split; [exact Ho|].
    intros i Hi'.
    assert (tape s'' i = to_char (net_sum prog 0 i)) as Hti.
    { change (tape s'' i) with (tape s' i). rewrite Ht by lia.
      rewrite tape_initial. reflexivity. }
    split; [exact Hti|]. split.
    + rewrite Hti. apply to_uchar_to_char.
    + intros Hv. rewrite Hti, unvisited_net_sum by assumption. reflexivity.
Qed.

Lemma straight_line_net_sums_witness :
  forallb is_arith (bytes "+>-->+<<+") = true
  /\ stays_inside (bytes "+>-->+<<+") 0 = true
  /\ exists r, returns (fun n => readfile n (bytes "+>-->+<<+") []) r
       /\ status r = ERR_OK
       /\ stackptr (final r) = 0
       /\ to_uchar (tape (final r) 0) = 2
       /\ to_uchar (tape (final r) 1) = 254
       /\ tape (final r) 3 = 0.
Proof.
  split; [reflexivity|]. split; [reflexivity|].
  destruct (straight_line_net_sums (bytes "+>-->+<<+") [] eq_refl eq_refl)
    as (r & Hr & Hs & Hp & _ & _ & Ht).
  exists r. split; [exact Hr|]. split; [exact Hs|]. split; [exact Hp|].
  split; [apply (Ht 0); vm_compute; split; congruence|].
  split; [apply (Ht 1); vm_compute; split; congruence|].
  apply (Ht 3); [vm_compute; split; congruence | reflexivity].
Defined.

(** The wrap-around of C7's example: 255 increments of a zero cell leave the
    byte 255 in it, and one more leaves 0. *)
Lemma increments_wrap :
  option_map (fun r => to_uchar (tape (final r) 0))
    (readfile 256 (replicate 255 ch_plus) []) = Some 255
  /\ option_map (fun r => to_uchar (tape (final r) 0))
       (readfile 257 (replicate 256 ch_plus) []) = Some 0
  /\ net_sum (replicate 255 ch_plus) 0 0 mod 256 = 255
  /\ net_sum (replicate 256 ch_plus) 0 0 mod 256 = 0.
Proof.
  split; [|split; [|split]]; vm_compute; reflexivity.
Qed.

(** * Segments of the file *)

Lemma segment_at_app (f : file) (k1 k2 : list Z) (p : Z) :
  segment_at f p (k1 ++ k2)
  <-> segment_at f p k1 /\ segment_at f (p + len k1) k2.
Proof.
  revert p. induction k1 as [|b k1 IH]; intros p; simpl.
  - rewrite len_nil, Z.add_0_r. tauto.
  - rewrite IH, len_cons.
    replace (p + (1 + len k1)) with (p + 1 + len k1) by lia. tauto.
Qed.

Lemma segment_at_middle (pre k post : list Z) :
  segment_at (pre ++ k ++ post) (len pre) k.
Proof.
  revert pre. induction k as [|b k IH]; intros pre; simpl; [trivial|].
  split; [apply byte_at_middle|].
  specialize (IH (pre ++ [b])). rewrite <- app_assoc in IH. simpl in IH.
  rewrite len_app, len_cons, len_nil in IH.
  replace (len pre + 1) with (len pre + (1 + 0)) by lia. exact IH.
Qed.

Lemma byte_at_is_byte (f : file) (p b : Z) :
  is_bytes f -> byte_at f p = Some b -> 0 <= b < 256.
Proof.
  unfold is_bytes, byte_at. intros Hf. destruct (0 <=? p); [|discriminate].
  intros H. apply (proj1 (Forall_lookup _ _) Hf _ _ H).
Qed.

(** * The scan for a matching delimiter *)

Section ScanBody.
Variable f : file.
Variables c1 c2 direction : Z.
Hypothesis c1_c2 : c1 <> c2.

Lemma ffindc_matching_body_c1 (d p : Z) :
  byte_at f p = Some c1 -> 0 <= c1 ->
  ffindc_matching_body f c1 c2 direction (d, p)
  = Some (inl (d + 1, fmove p direction)).
Proof.
  intros Hb Hc. unfold ffindc_matching_body. rewrite (freadc_byte _ _ _ Hb).
  rewrite (proj2 (Z.eqb_neq c1 EOF)) by (unfold EOF; lia).
  rewrite Z.eqb_refl. reflexivity.
Qed.

Lemma ffindc_matching_body_c2 (d p : Z) :
  byte_at f p = Some c2 -> 0 <= c2 ->
  ffindc_matching_body f c1 c2 direction (d, p)
  = if d =? 1 then Some (inr (c2, p))
    else Some (inl (d - 1, fmove p direction)).
Proof.
  intros Hb Hc. unfold ffindc_matching_body. rewrite (freadc_byte _ _ _ Hb).
  rewrite (proj2 (Z.eqb_neq c2 EOF)) by (unfold EOF; lia).
  rewrite (proj2 (Z.eqb_neq c2 c1)) by congruence.
  rewrite Z.eqb_refl. reflexivity.
Qed.

Lemma ffindc_matching_body_other (d p b : Z) :
  byte_at f p = Some b -> 0 <= b -> b <> c1 -> b <> c2 ->
  ffindc_matching_body f c1 c2 direction (d, p)
  = Some (inl (d, fmove p direction)).
Proof.
  intros Hb Hc H1 H2. unfold ffindc_matching_body.
  rewrite (freadc_byte _ _ _ Hb).
  rewrite (proj2 (Z.eqb_neq b EOF)) by (unfold EOF; lia).
  rewrite (proj2 (Z.eqb_neq b c1)), (proj2 (Z.eqb_neq b c2)) by assumption.
  reflexivity.
Qed.
End ScanBody.

Section Scan.
Variable f : file.
Variables o c : Z.
Hypothesis file_bytes : is_bytes f.
Hypothesis o_c : o <> c.

(** Forward over a nested text: the counter is back at its value when the
    cursor leaves the text. *)
Lemma scan_forward_nested (k : list Z) :
  nested o c k ->
  forall p d, 0 <= p -> 1 <= d -> segment_at f p k ->
    iterates (fun _ => ffindc_matching_body f o c 1) (d, p) (d, p + len k).
Proof.
  induction 1 as [|b l Hbo Hbc _ IH|k l _ IHk _ IHl]; intros p d Hp Hd Hseg.
  - rewrite len_nil, Z.add_0_r. apply iterates_refl.
  - destruct Hseg as [Hb Hl].
    eapply iterates_step.
    + apply returns_always. intros _.
      apply (ffindc_matching_body_other f o c 1 d p b); auto.
      apply (byte_at_is_byte f p b); assumption.
    + rewrite fmove_forward by lia. rewrite len_cons.
      replace (p + (1 + len l)) with (p + 1 + len l) by lia.
      apply IH; auto; lia.
  - simpl in Hseg. destruct Hseg as [Ho Hseg].
    apply segment_at_app in Hseg as [Hk [Hc Hl]].
    pose proof (byte_at_is_byte f _ _ file_bytes Ho) as Hob.
    pose proof (byte_at_is_byte f _ _ file_bytes Hc) as Hcb.
    pose proof (len_nonneg k) as Hlk.
    eapply iterates_step.
    { apply returns_always. intros _.
      apply (ffindc_matching_body_c1 f o c 1 d p); auto; lia. }
    rewrite fmove_forward by lia.
    eapply iterates_trans; [apply (IHk (p + 1) (d + 1)); auto; lia|].
    eapply iterates_step.
    { apply returns_always. intros _.
      rewrite (ffindc_matching_body_c2 f o c 1 o_c (d + 1) _ Hc) by lia.
      rewrite (proj2 (Z.eqb_neq (d + 1) 1)) by lia. reflexivity. }
    rewrite fmove_forward by lia.
    rewrite len_cons, len_app, len_cons.
    replace (d + 1 - 1) with d by lia.
    replace (p + (1 + (len k + (1 + len l))))
      with (p + 1 + len k + 1 + len l) by lia.
    apply IHl; auto; lia.
Qed.

(** Backward over a nested text that does not start the file, with the
    roles of the two delimiters exchanged. *)
Lemma scan_backward_nested (k : list Z) :
  nested o c k ->
  forall p d, 1 <= p -> 1 <= d -> segment_at f p k ->
    iterates (fun _ => ffindc_matching_body f c o (-1))
      (d, p + len k - 1) (d, p - 1).
Proof.
  induction 1 as [|b l Hbo Hbc _ IH|k l _ IHk _ IHl]; intros p d Hp Hd Hseg.
  - rewrite len_nil, Z.add_0_r. apply iterates_refl.
  - destruct Hseg as [Hb Hl]. rewrite len_cons.
    replace (p + (1 + len l) - 1) with (p + 1 + len l - 1) by lia.
    eapply iterates_trans; [apply (IH (p + 1) d); auto; lia|].
    replace (p + 1 - 1) with p by lia.
    apply iterates_one, returns_always. intros _.
    rewrite (ffindc_matching_body_other f c o (-1) d p b); auto.
    + rewrite fmove_backward by lia. reflexivity.
    + apply (byte_at_is_byte f p b); assumption.
  - simpl in Hseg. destruct Hseg as [Ho Hseg].
    apply segment_at_app in Hseg as [Hk [Hc Hl]].
    pose proof (byte_at_is_byte f _ _ file_bytes Ho) as Hob.
    pose proof (byte_at_is_byte f _ _ file_bytes Hc) as Hcb.
    pose proof (len_nonneg k) as Hlk.
    rewrite len_cons, len_app, len_cons.
    replace (p + (1 + (len k + (1 + len l))) - 1)
      with (p + 1 + len k + 1 + len l - 1) by lia.
    eapply iterates_trans; [apply (IHl (p + 1 + len k + 1) d); auto; lia|].
    replace (p + 1 + len k + 1 - 1) with (p + 1 + len k) by lia.
    eapply iterates_step.
    { apply returns_always. intros _.
      apply (ffindc_matching_body_c1 f c o (-1) d _ Hc); lia. }
    rewrite fmove_backward by lia.
    eapply iterates_trans; [apply (IHk (p + 1) (d + 1)); auto; lia|].
    replace (p + 1 - 1) with p by lia.
    apply iterates_one, returns_always. intros _.
    rewrite (ffindc_matching_body_c2 f c o (-1)) by (auto; lia).
    rewrite (proj2 (Z.eqb_neq (d + 1) 1)) by lia.
    rewrite fmove_backward by lia. f_equal. f_equal. f_equal. lia.
Qed.
End Scan.

Section ScanReturns.
Variable f : file.
Variables o c : Z.
Hypothesis file_bytes : is_bytes f.
Hypothesis o_c : o <> c.
Variables (k : list Z) (p : Z).
Hypothesis k_nested : nested o c k.
Hypothesis k_at_p : segment_at f p (o :: k ++ [c]).

Lemma ffindc_matching_forward (direction : Z) :
  0 <= direction ->
  returns (fun n => ffindc_matching n f o c direction p) (c, p + 1 + len k).
Proof.
  intros Hd. simpl in k_at_p. destruct k_at_p as [Ho Hseg].
  apply segment_at_app in Hseg as [Hseg [Hc _]].
  pose proof (byte_at_nonneg _ _ _ Ho) as Hp.
  pose proof (byte_at_is_byte f _ _ file_bytes Ho) as Hob.
  pose proof (byte_at_is_byte f _ _ file_bytes Hc) as Hcb.
  pose proof (len_nonneg k) as Hlk.
  unfold ffindc_matching.
  rewrite (proj2 (Z.ltb_ge direction 0)) by lia.
  apply (while_returns (fun _ => ffindc_matching_body f o c 1)
           _ (1, p + 1 + len k)).
  - eapply iterates_step.
    { apply returns_always. intros _.
      apply (ffindc_matching_body_c1 f o c 1 0 p Ho). lia. }
    rewrite fmove_forward by lia.
    apply (scan_forward_nested f o c file_bytes o_c k k_nested (p + 1) 1);
      auto; lia.
  - apply returns_always. intros _.
    rewrite (ffindc_matching_body_c2 f o c 1 o_c 1 _ Hc) by lia.
    reflexivity.
Qed.

Lemma ffindc_matching_backward (direction : Z) :
  direction < 0 ->
  returns (fun n => ffindc_matching n f c o direction (p + 1 + len k)) (o, p).
Proof.
  intros Hd. simpl in k_at_p. destruct k_at_p as [Ho Hseg].
  apply segment_at_app in Hseg as [Hseg [Hc _]].
  pose proof (byte_at_nonneg _ _ _ Ho) as Hp.
  pose proof (byte_at_is_byte f _ _ file_bytes Ho) as Hob.
  pose proof (byte_at_is_byte f _ _ file_bytes Hc) as Hcb.
  pose proof (len_nonneg k) as Hlk.
  unfold ffindc_matching.
  rewrite (proj2 (Z.ltb_lt direction 0)) by lia.
  apply (while_returns (fun _ => ffindc_matching_body f c o (-1)) _ (1, p)).
  - eapply iterates_step.
    { apply returns_always. intros _.
      apply (ffindc_matching_body_c1 f c o (-1) 0 _ Hc). lia. }
    rewrite fmove_backward by lia.
    pose proof (scan_backward_nested f o c file_bytes o_c k k_nested (p + 1) 1)
      as H.
    replace (p + 1 - 1) with p in H by lia.
    apply H; auto; lia.
  - apply returns_always. intros _.
    rewrite (ffindc_matching_body_c2 f c o (-1)) by (auto; lia).
    reflexivity.
Qed.
End ScanReturns.

(** C2.  Let [o] and [c] be two different delimiters ([char] arguments, so
    below 128).  When the [o] under the cursor at offset [p] has its
    matching [c] at offset [q], the forward scan
    [ffindc_matching(o, c, direction >= 0)] started at [p] returns with the
    cursor on [q], having read [c]; and the backward scan
    [ffindc_matching(c, o, direction < 0)] started on that [c] at [q]
    returns with the cursor on [p], having read [o].  Pairs nested in
    between are counted by the local depth and skipped. *)
Theorem ffindc_matching_finds_match (f : file) (o c p q : Z) :
  is_bytes f -> 0 <= o < 128 -> 0 <= c < 128 -> o <> c ->
  matching o c f p q ->
  (forall direction, 0 <= direction ->
     returns (fun n => ffindc_matching n f o c direction p) (c, q))
  /\ (forall direction, direction < 0 ->
        returns (fun n => ffindc_matching n f c o direction q) (o, p)).
Proof.
  intros Hf _ _ Hoc (k & Hk & Hseg & ->). split; intros direction Hd.
  - apply ffindc_matching_forward; assumption.
  - apply ffindc_matching_backward; assumption.
Qed.

Lemma ffindc_matching_finds_match_witness :
  is_bytes (bytes "+(a(b)[)c)-")
  /\ matching ch_lparen ch_rparen (bytes "+(a(b)[)c)-") 1 7
  /\ returns (fun n => ffindc_matching n (bytes "+(a(b)[)c)-")
                         ch_lparen ch_rparen 1 1) (ch_rparen, 7)
  /\ returns (fun n => ffindc_matching n (bytes "+(a(b)[)c)-")
                         ch_rparen ch_lparen (-1) 7) (ch_lparen, 1).
Proof.
  assert (is_bytes (bytes "+(a(b)[)c)-")) as Hf
      by (repeat constructor; lia).
  assert (matching ch_lparen ch_rparen (bytes "+(a(b)[)c)-") 1 7) as Hm.
  { exists (bytes "a(b)["). split; [|split; [|reflexivity]].
    - apply nested_other; [vm_compute; congruence..|].
      apply (nested_pair _ _ (bytes "b") (bytes "[")).
      + apply nested_other; [vm_compute; congruence..|]. apply nested_nil.
      + apply nested_other; [vm_compute; congruence..|]. apply nested_nil.
    - vm_compute. tauto. }
  split; [exact Hf|]. split; [exact Hm|].
  assert (ch_lparen <> ch_rparen) as Hne by (vm_compute; congruence).
  assert (0 <= ch_lparen < 128) as Ho by (vm_compute; split; congruence).
  assert (0 <= ch_rparen < 128) as Hc by (vm_compute; split; congruence).
  split.
  - apply (proj1 (ffindc_matching_finds_match _ _ _ _ _ Hf Ho Hc Hne Hm)).
    lia.
  - apply (proj2 (ffindc_matching_finds_match _ _ _ _ _ Hf Ho Hc Hne Hm)).
    lia.
Defined.

(** * The bracket scans of the loop commands *)

Lemma to_uint_range (v : Z) : 0 <= to_uint v < 2 ^ 32.
Proof. unfold to_uint. apply Z.mod_pos_bound. lia. Qed.

Lemma to_uint_small (v : Z) : 0 <= v < 2 ^ 32 -> to_uint v = v.
Proof. intros H. unfold to_uint. apply Z.mod_small, H. Qed.

Lemma to_uint_add (a b : Z) : to_uint (to_uint a + b) = to_uint (a + b).
Proof. unfold to_uint. apply Zplus_mod_idemp_l. Qed.

Lemma to_uint_level (d j : Z) :
  0 <= d < 2 ^ 32 -> 0 < j < 2 ^ 32 -> to_uint (d + j) <> d.
Proof.
  intros Hd Hj. unfold to_uint.
  destruct (Z_lt_le_dec (d + j) (2 ^ 32)).
  - rewrite Z.mod_small by lia. lia.
  - replace (d + j) with (d + j - 2 ^ 32 + 1 * 2 ^ 32) by lia.
    rewrite Z.mod_add by lia. rewrite Z.mod_small by lia. lia.
Qed.

Lemma to_char_byte (b : Z) :
  0 <= b < 256 ->
  (to_char b = EOF <-> b = 255)
  /\ (forall c, 0 <= c < 128 -> to_char b = c <-> b = c).
Proof.
  intros Hb. destruct (Z.eq_dec b 255) as [->|Hne].
  - split; [split; reflexivity|]. intros c Hc. vm_compute (to_char 255). lia.
  - destruct (to_char_plain b) as [H1 H2]; [unfold plain_byte; lia|].
    split; [tauto | exact H2].
Qed.

Section LoopBody.
Variable f : file.
Variable d : Z.
Hypothesis file_bytes : is_bytes f.

Lemma jump_forward_body_plain (n : nat) (cd p b : Z) :
  byte_at f p = Some b -> b <> 255 ->
  b <> ch_lbrack -> b <> ch_rbrack -> b <> ch_lparen ->
  jump_forward_body n f d (cd, p) = Some (inl (cd, fmove p 1)).
Proof.
  intros Hb H255 H1 H2 H3. unfold jump_forward_body.
  rewrite (freadc_byte _ _ _ Hb).
  destruct (to_char_byte b (byte_at_is_byte f p b file_bytes Hb)) as [He Hc].
  rewrite (proj2 (Z.eqb_neq _ _)) by tauto.
  rewrite (proj2 (Z.eqb_neq _ ch_lbrack))
    by (rewrite Hc; [assumption | vm_compute; split; congruence]).
  rewrite (proj2 (Z.eqb_neq _ ch_rbrack))
    by (rewrite Hc; [assumption | vm_compute; split; congruence]).
  rewrite (proj2 (Z.eqb_neq _ ch_lparen))
    by (rewrite Hc; [assumption | vm_compute; split; congruence]).
  reflexivity.
Qed.

Lemma jump_forward_body_open (n : nat) (cd p : Z) :
  byte_at f p = Some ch_lbrack ->
  jump_forward_body n f d (cd, p) = Some (inl (to_uint (cd + 1), fmove p 1)).
Proof.
  intros Hb. unfold jump_forward_body. rewrite (freadc_byte _ _ _ Hb).
  reflexivity.
Qed.

Lemma jump_forward_body_close (n : nat) (cd p : Z) :
  byte_at f p = Some ch_rbrack ->
  jump_forward_body n f d (cd, p)
  = if cd =? d then Some (inr p)
    else Some (inl (to_uint (cd - 1), fmove p 1)).
Proof.
  intros Hb. unfold jump_forward_body. rewrite (freadc_byte _ _ _ Hb).
  reflexivity.
Qed.

Lemma jump_forward_body_comment (n : nat) (cd p : Z) :
  byte_at f p = Some ch_lparen ->
  jump_forward_body n f d (cd, p)
  = match ffindc_matching n f ch_lparen ch_rparen 1 p with
    | None => None
    | Some (_, pos) => Some (inl (cd, fmove pos 1))
    end.
Proof.
  intros Hb. unfold jump_forward_body. rewrite (freadc_byte _ _ _ Hb).
  reflexivity.
Qed.

Lemma jump_backward_body_plain (n : nat) (cd p b : Z) :
  byte_at f p = Some b ->
  b <> ch_lbrack -> b <> ch_rbrack -> b <> ch_rparen ->
  jump_backward_body n f d (cd, p) = Some (inl (cd, fmoveback p 1)).
Proof.
  intros Hb H1 H2 H3. unfold jump_backward_body.
  rewrite (freadc_byte _ _ _ Hb).
  destruct (to_char_byte b (byte_at_is_byte f p b file_bytes Hb)) as [He Hc].
  rewrite (proj2 (Z.eqb_neq _ ch_rbrack))
    by (rewrite Hc; [assumption | vm_compute; split; congruence]).
  rewrite (proj2 (Z.eqb_neq _ ch_lbrack))
    by (rewrite Hc; [assumption | vm_compute; split; congruence]).
  rewrite (proj2 (Z.eqb_neq _ ch_rparen))
    by (rewrite Hc; [assumption | vm_compute; split; congruence]).
  reflexivity.
Qed.

Lemma jump_backward_body_close (n : nat) (cd p : Z) :
  byte_at f p = Some ch_rbrack ->
  jump_backward_body n f d (cd, p)
  = Some (inl (to_uint (cd + 1), fmoveback p 1)).
Proof.
  intros Hb. unfold jump_backward_body. rewrite (freadc_byte _ _ _ Hb).
  reflexivity.
Qed.


Lemma jump_backward_body_comment (n : nat) (cd p : Z) :
  byte_at f p = Some ch_rparen ->
  jump_backward_body n f d (cd, p)
  = match ffindc_matching n f ch_rparen ch_lparen (-1) p with
    | None => None
    | Some (_, pos) => Some (inl (cd, fmoveback pos 1))
    end.
Proof.
  intros Hb. unfold jump_backward_body. rewrite (freadc_byte _ _ _ Hb).
  reflexivity.
Qed.
End LoopBody.

Lemma to_uint_succ (a j : Z) : to_uint (to_uint (a + j) + 1) = to_uint (a + (j + 1)).
Proof. rewrite to_uint_add. f_equal. lia. Qed.

Lemma to_uint_pred (a j : Z) : to_uint (to_uint (a + (j + 1)) - 1) = to_uint (a + j).
Proof.
  rewrite <- Z.add_opp_r, to_uint_add. f_equal. lia.
Qed.

Lemma segment_at_pair (f : file) (p o c : Z) (k l : list Z) :
  segment_at f p (o :: k ++ c :: l) ->
  byte_at f p = Some o /\ segment_at f (p + 1) k
  /\ byte_at f (p + 1 + len k) = Some c
  /\ segment_at f (p + 1 + len k + 1) l
  /\ segment_at f p (o :: k ++ [c]).
Proof.
  simpl. intros [Ho Hseg].
  apply segment_at_app in Hseg as [Hk [Hc Hl]].
  repeat (split; [assumption|]).
  apply segment_at_app. simpl. auto.
Qed.

Lemma lparen_rparen : ch_lparen <> ch_rparen.
Proof. unfold ch_lparen, ch_rparen. lia. Qed.

Section LoopScan.
Variable f : file.
Variable d : Z.
Hypothesis file_bytes : is_bytes f.
Hypothesis d_range : 0 <= d < 2 ^ 32.

(** Forward over a loop text at nesting level [j]: the scan's counter is
    back at [depth + j] when the cursor leaves the text. *)
Lemma jump_forward_scan (k : list Z) :
  loop_text k ->
  forall p j, 0 <= p -> 0 <= j -> j + len k < 2 ^ 32 -> segment_at f p k ->
    iterates (fun n => jump_forward_body n f d)
      (to_uint (d + j), p) (to_uint (d + j), p + len k).
Proof.
  induction 1 as [|b l H1 H2 H3 H4 H5 _ IH|k l _ IHk _ IHl|k l Hk _ IHl];
    intros p j Hp Hj Hlen Hseg.
  - rewrite len_nil, Z.add_0_r. apply iterates_refl.
  - destruct Hseg as [Hb Hl]. rewrite len_cons in *.
    eapply iterates_step.
    { apply returns_always. intros n.
      apply (jump_forward_body_plain f d file_bytes n _ p b); assumption. }
    rewrite fmove_forward by lia.
    replace (p + (1 + len l)) with (p + 1 + len l) by lia.
    apply IH; auto; lia.
  - apply segment_at_pair in Hseg as (Ho & Hsk & Hc & Hsl & _).
    rewrite len_cons, len_app, len_cons in *.
    pose proof (len_nonneg k). pose proof (len_nonneg l).
    eapply iterates_step.
    { apply returns_always. intros n.
      apply (jump_forward_body_open f d n _ p Ho). }
    rewrite fmove_forward, to_uint_succ by lia.
    eapply iterates_trans; [apply (IHk (p + 1) (j + 1)); auto; lia|].
    eapply iterates_step.
    { apply returns_always. intros n.
      rewrite (jump_forward_body_close f d n _ _ Hc).
      rewrite (proj2 (Z.eqb_neq _ _)) by (apply to_uint_level; lia).
      reflexivity. }
    rewrite fmove_forward, to_uint_pred by lia.
    replace (p + (1 + (len k + (1 + len l))))
      with (p + 1 + len k + 1 + len l) by lia.
    apply IHl; auto; lia.
  - apply segment_at_pair in Hseg as (Ho & Hsk & Hc & Hsl & Hpair).
    rewrite len_cons, len_app, len_cons in *.
    pose proof (len_nonneg k). pose proof (len_nonneg l).
    eapply iterates_step.
    { eapply returns_ext;
        [intros n; symmetry; apply (jump_forward_body_comment f d n _ p Ho)|].
      eapply (returns_bind _ (fun _ x => let '(_, pos) := x in _)).
      - apply (ffindc_matching_forward f ch_lparen ch_rparen file_bytes
                 lparen_rparen k p Hk Hpair 1). lia.
      - apply returns_const. }
    rewrite fmove_forward by lia.
    replace (p + (1 + (len k + (1 + len l))))
      with (p + 1 + len k + 1 + len l) by lia.
    apply IHl; auto; lia.
Qed.

End LoopScan.

Lemma byte_at_lt (f : file) (p b : Z) : byte_at f p = Some b -> 0 <= p < len f.
Proof.
  unfold byte_at, len. destruct (Z.leb_spec 0 p); [|discriminate].
  intros Hl%lookup_lt_Some. lia.
Qed.

Lemma segment_at_bound (f : file) (k : list Z) (p : Z) :
  segment_at f p k -> k = [] \/ p + len k <= len f.
Proof.
  revert p. induction k as [|b k IH]; intros p Hseg; [left; reflexivity|].
  right. destruct Hseg as [Hb Hk]. apply byte_at_lt in Hb.
  rewrite len_cons. destruct (IH _ Hk) as [->|Hle].
  - rewrite len_nil. lia.
  - lia.
Qed.

Lemma command_lbrack (n : nat) (f : file) (s : session) :
  command n f ch_lbrack s
  = match jump_forward n f s with None => None | Some s => Some (Some s) end.
Proof. reflexivity. Qed.

Lemma command_rbrack (n : nat) (f : file) (s : session) :
  command n f ch_rbrack s
  = match jump_backward n f s with None => None | Some s => Some (Some s) end.
Proof. reflexivity. Qed.

Lemma command_lparen (n : nat) (f : file) (s : session) :
  command n f ch_lparen s
  = match ffindc_matching n f ch_lparen ch_rparen 1 (fpos s) with
    | None => None
    | Some (_, pos) => Some (Some (set_fpos s pos))
    end.
Proof. reflexivity. Qed.

Lemma command_hash (n : nat) (f : file) (s : session) :
  command n f ch_hash s
  = match ffindc n f ch_nl (fpos s) with
    | None => None
    | Some (_, pos) => Some (Some (set_fpos s pos))
    end.
Proof. reflexivity. Qed.

Section LoopCommands.
Variable f : file.
Hypothesis file_bytes : is_bytes f.
Hypothesis file_short : len f < 2 ^ 32.
Variables p q : Z.
Hypothesis loop_p_q : loop_at f p q.


End LoopCommands.

(** * Invariants of a run *)

Lemma while_invariant {St Res : Type} (body : St -> option (St + Res))
    (I : St -> Prop) (Q : Res -> Prop) :
  (forall s s', I s -> body s = Some (inl s') -> I s') ->
  (forall s r, I s -> body s = Some (inr r) -> Q r) ->
  forall n s r, I s -> while body n s = Some r -> Q r.
Proof.
  intros Hstep Hexit n. induction n as [|n IH]; intros s r Hs; simpl.
  - discriminate.
  - destruct (body s) as [[s'|r']|] eqn:E; try discriminate.
    + apply IH. eapply Hstep; eassumption.
    + intros [= <-]. eapply Hexit; eassumption.
Qed.

Lemma fseek_cur_nonneg (pos n : Z) : 0 <= pos -> 0 <= fseek_cur pos n.
Proof. unfold fseek_cur. destruct (Z.leb_spec 0 (pos + n)); lia. Qed.

Lemma freadc_nonneg (f : file) (pos v pos' : Z) :
  0 <= pos -> freadc f pos = (v, pos') -> 0 <= pos'.
Proof.
  unfold freadc, fgetc. intros Hp.
  destruct (f !! Z.to_nat pos); intros [= <- <-]; apply fseek_cur_nonneg; lia.
Qed.


Lemma ffindc_matching_nonneg (n : nat) (f : file) (c1 c2 dir pos v pos' : Z) :
  0 <= pos -> ffindc_matching n f c1 c2 dir pos = Some (v, pos') -> 0 <= pos'.
Proof.
  intros Hp. unfold ffindc_matching.
  apply (while_invariant (ffindc_matching_body f c1 c2 _)
           (fun st => 0 <= snd st) (fun r => 0 <= snd r))
    with (r := (v, pos')); [| |exact Hp].
  - intros [d s] s' Hs. unfold ffindc_matching_body.
    destruct (freadc f s) as [w q] eqn:E.
    pose proof (freadc_nonneg _ _ _ _ Hs E).
    repeat case_match; intros [= <-]; apply fseek_cur_nonneg; assumption.
  - intros [d s] r Hs. unfold ffindc_matching_body.
    destruct (freadc f s) as [w q] eqn:E.
    pose proof (freadc_nonneg _ _ _ _ Hs E).
    repeat case_match; intros [= <-]; assumption.
Qed.

Lemma jump_forward_frame (n : nat) (f : file) (s s' : session) :
  jump_forward n f s = Some s' ->
  stack s' = stack s /\ stackptr s' = stackptr s
  /\ inp s' = inp s /\ out s' = out s
  /\ depth s' = to_uint (depth s + 1)
  /\ (0 <= fpos s -> 0 <= fpos s').
Proof.
  unfold jump_forward. destruct (negb _).
  - intros [= <-]. repeat split. trivial.
  - destruct (while _ n _) as [pos|] eqn:E; [|discriminate].
    intros [= <-]. repeat split. cbn [fpos set_fpos set_depth]. intros Hp.
    revert E.
    apply (while_invariant (jump_forward_body n f _)
             (fun st => 0 <= snd st) (fun r => 0 <= r)).
    + intros [cd q] st' Hq. unfold jump_forward_body.
      destruct (freadc f q) as [w q'] eqn:E.
      pose proof (freadc_nonneg _ _ _ _ Hq E).
      repeat case_match; intros [= <-]; subst; apply fseek_cur_nonneg;
        try assumption.
      eapply ffindc_matching_nonneg; eassumption.
    + intros [cd q] r Hq. unfold jump_forward_body.
      destruct (freadc f q) as [w q'] eqn:E.
      pose proof (freadc_nonneg _ _ _ _ Hq E).
      repeat case_match; intros [= <-]; assumption.
    + apply fseek_cur_nonneg. assumption.
Qed.

Lemma jump_backward_frame (n : nat) (f : file) (s s' : session) :
  jump_backward n f s = Some s' ->
  stack s' = stack s /\ stackptr s' = stackptr s
  /\ inp s' = inp s /\ out s' = out s
  /\ depth s' = to_uint (depth s - 1)
  /\ (0 <= fpos s -> 0 <= fpos s').
Proof.
  unfold jump_backward. destruct (cell s =? 0).
  - intros [= <-]. repeat split. trivial.
  - destruct (while _ n _) as [pos|] eqn:E; [|discriminate].
    intros [= <-]. repeat split. cbn [fpos set_fpos set_depth]. intros Hp.
    apply fseek_cur_nonneg. revert E.
    apply (while_invariant (jump_backward_body n f _)
             (fun st => 0 <= snd st) (fun r => 0 <= r)).
    + intros [cd q] st' Hq. unfold jump_backward_body.
      destruct (freadc f q) as [w q'] eqn:E.
      pose proof (freadc_nonneg _ _ _ _ Hq E).
      repeat case_match; intros [= <-]; subst; apply fseek_cur_nonneg;
        try assumption.
      eapply ffindc_matching_nonneg; eassumption.
    + intros [cd q] r Hq. unfold jump_backward_body.
      destruct (freadc f q) as [w q'] eqn:E.
      pose proof (freadc_nonneg _ _ _ _ Hq E).
      repeat case_match; intros [= <-]; assumption.
    + apply fseek_cur_nonneg. assumption.
Qed.




(** * Dispatching the loop commands *)

Lemma to_char_lbrack : to_char ch_lbrack = ch_lbrack.
Proof. reflexivity. Qed.

Lemma to_char_rbrack : to_char ch_rbrack = ch_rbrack.
Proof. reflexivity. Qed.

Lemma dispatch_jump_forward (f : file) (s s' : session) :
  byte_at f (fpos s) = Some ch_lbrack ->
  0 <= stackptr s < STACK_SIZE ->
  returns (fun n => jump_forward n f s) s' ->
  returns (fun n => interpret_body n f s)
    (inl (set_fpos s' (fmove (fpos s') 1))).
Proof.
  intros Hb Hp Hj.
  eapply returns_ext.
  { intros n. symmetry.
    rewrite (interpret_body_command n f s _ Hb);
      [|vm_compute; congruence|assumption].
    rewrite to_char_lbrack, command_lbrack. reflexivity. }
  eapply (returns_ext (fun n => match jump_forward n f s with
                                | None => None
                                | Some x => Some (inl (set_fpos x (fmove (fpos x) 1)))
                                end)).
  { intros n. destruct (jump_forward n f s); reflexivity. }
  eapply (returns_bind _ (fun _ x => Some _)); [exact Hj|].
  apply returns_const.
Qed.


Section LoopDispatch.
Variable f : file.
Hypothesis file_bytes : is_bytes f.
Hypothesis file_short : len f < 2 ^ 32.
Variables p q : Z.
Hypothesis loop_p_q : loop_at f p q.





End LoopDispatch.



Lemma interpret_body_returns (n : nat) (f : file) (s : session)
    (x : session + Error * session) :
  interpret_body n f s = Some x -> returns (fun k => interpret_body k f s) x.
Proof.
  apply (monotone_returns (fun k => interpret_body k f)),
    interpret_body_monotone.
Qed.


(** The forward scan of [jump_forward] keeps the byte it reads in a [char]
    and so takes a byte 0xFF for the end of the file.  The source
    [(])[] 0xFF [+]([)] has as many ['['] as [']'] and as many ['('] as
    [')'], and passes validation.  The ['['] at offset 3 is dispatched on a
    zero cell; its [']'] is at offset 6.  The scan stops on the byte 0xFF at
    offset 4, the next iteration starts at offset 5 and executes the [+] of
    the body: the run ends with cell 0 at 1. *)
Lemma skip_stops_at_byte_ff :
  count ch_lbrack (bytes "(])[" ++ 255 :: bytes "+]([)")
  = count ch_rbrack (bytes "(])[" ++ 255 :: bytes "+]([)")
  /\ count ch_lparen (bytes "(])[" ++ 255 :: bytes "+]([)")
     = count ch_rparen (bytes "(])[" ++ 255 :: bytes "+]([)")
  /\ reachable (bytes "(])[" ++ 255 :: bytes "+]([)") []
       (set_fpos (initial []) 3)
  /\ byte_at (bytes "(])[" ++ 255 :: bytes "+]([)") 3 = Some ch_lbrack
  /\ byte_at (bytes "(])[" ++ 255 :: bytes "+]([)") 6 = Some ch_rbrack
  /\ cell (set_fpos (initial []) 3) = 0
  /\ returns (fun n => interpret_body n (bytes "(])[" ++ 255 :: bytes "+]([)")
                (set_fpos (initial []) 3))
       (inl (set_fpos (set_depth (initial []) 1) 5))
  /\ exists r,
       returns (fun n => readfile n (bytes "(])[" ++ 255 :: bytes "+]([)") []) r
       /\ status r = ERR_OK /\ tape (final r) 0 = 1.
Proof.
  split; [vm_compute; reflexivity|].
  split; [vm_compute; reflexivity|].
  split.
  { eapply reachable_step; [apply reachable_initial|].
    apply (interpret_body_returns 12). vm_compute. reflexivity. }
  split; [vm_compute; reflexivity|].
  split; [vm_compute; reflexivity|].
  split; [vm_compute; reflexivity|].
  split; [apply (interpret_body_returns 12); vm_compute; reflexivity|].
  destruct (readfile 12 (bytes "(])[" ++ 255 :: bytes "+]([)") [])
    as [r|] eqn:E; [|vm_compute in E; discriminate].
  exists r. split; [apply (readfile_returns 12); exact E|].
  vm_compute in E. injection E as <-. repeat split.
Qed.

Lemma dispatches_reachable (fuel k : nat) (f : file) (input : list Z) :
  forall s, reachable f input s ->
            Forall (reachable f input) (dispatches fuel k f s).
Proof.
  induction k as [|k IH]; intros s Hs; simpl; constructor; [assumption|].
  destruct (interpret_body fuel f s) as [[s'|r]|] eqn:E; try constructor.
  apply IH. eapply reachable_step; [exact Hs|].
  apply (interpret_body_returns fuel). exact E.
Qed.

(** C3, at the source [[]+([)]], which passes validation.  Its run skips the
    empty loop at offset 0, sets the cell to 1, skips the comment and
    dispatches the [']'] at offset 6, whose backward scan skips the comment,
    counts the [']'] at offset 1 and ends on the ['['] at offset 0, where
    the seek before the start of the file fails: the next iteration starts
    at offset 1.  That iteration, the fifth, dispatches the [']'] at offset 1
    on the nonzero cell; its matching ['['] is the first byte of the file,
    the final seek of [jump_backward] fails again, and the next byte the
    dispatcher reads is the same [']'] at offset 1, not the ['['], with
    [depth] decremented from 0 to 2^32 - 1.  The trace lists (cursor, cell,
    depth) at the head of each iteration. *)
Theorem close_of_first_loop_not_rewound :
  check_matching_brackets 8 (bytes "[]+([)]") ch_lbrack ch_rbrack 0
  = Some (ERR_OK, 7)
  /\ check_matching_brackets 8 (bytes "[]+([)]") ch_lparen ch_rparen 7
     = Some (ERR_OK, 14)
  /\ map (fun s => (fpos s, cell s, depth s))
         (dispatches 8 6 (bytes "[]+([)]") (initial []))
     = [(0, 0, 0); (2, 0, 1); (3, 1, 1); (6, 1, 1); (1, 1, 0);
        (1, 1, 4294967295)]
  /\ exists s s' : session,
       reachable (bytes "[]+([)]") [] s
       /\ loop_at (bytes "[]+([)]") 0 (fpos s)
       /\ cell s <> 0 /\ 0 <= stackptr s < STACK_SIZE
       /\ returns (fun n => interpret_body n (bytes "[]+([)]") s) (inl s')
       /\ depth s' = to_uint (depth s - 1)
       /\ fpos s' = 1
       /\ byte_at (bytes "[]+([)]") (fpos s') = Some ch_rbrack.
Proof.
  split; [vm_compute; reflexivity|].
  split; [vm_compute; reflexivity|].
  split; [vm_compute; reflexivity|].
  pose proof (dispatches_reachable 8 6 (bytes "[]+([)]") [] _
                (reachable_initial _ _)) as Hall.
  destruct (dispatches 8 6 (bytes "[]+([)]") (initial []) !! 4%nat)
    as [s|] eqn:Es; [|vm_compute in Es; discriminate].
  destruct (interpret_body 8 (bytes "[]+([)]") s) as [[s'|r]|] eqn:Es'.
  - exists s, s'.
    split; [apply (proj1 (Forall_lookup _ _) Hall _ _ Es)|].
    vm_compute in Es. injection Es as <-.
    split.
    { exists []. split; [apply loop_text_nil|].
      split; [vm_compute; tauto | reflexivity]. }
    split; [vm_compute; congruence|].
    split; [vm_compute; split; congruence|].
    split; [apply (interpret_body_returns 8); exact Es'|].
    vm_compute in Es'. injection Es' as <-.
    repeat split.
  - vm_compute in Es. injection Es as <-. vm_compute in Es'. discriminate.
  - vm_compute in Es. injection Es as <-. vm_compute in Es'. discriminate.
Qed.

(** * Comments *)

Lemma is_bytes_check (f : file) :
  forallb (fun b => (0 <=? b) && (b <? 256)) f = true -> is_bytes f.
Proof.
  intros H. apply Forall_forall. intros b Hb.
  rewrite forallb_forall in H. apply list_elem_of_In in Hb.
  specialize (H b Hb). apply andb_true_iff in H as [H1 H2].
  apply Z.leb_le in H1. apply Z.ltb_lt in H2. lia.
Qed.

(** The scan of a line comment passes every byte that is not a newline. *)
Lemma ffindc_scan (f : file) (c : Z) (k : list Z) :
  is_bytes f -> Forall (fun b => b <> c) k ->
  forall p, 0 <= p -> segment_at f p k ->
    iterates (fun _ => ffindc_body f c) p (p + len k).
Proof.
  intros Hf Hk. induction Hk as [|b k Hb _ IH]; intros p Hp Hseg.
  - rewrite len_nil, Z.add_0_r. apply iterates_refl.
  - destruct Hseg as [Hb' Hseg].
    pose proof (byte_at_is_byte f p b Hf Hb') as Hbyte.
    eapply iterates_step.
    + apply returns_always. intros _. unfold ffindc_body.
      rewrite (freadc_byte _ _ _ Hb').
      rewrite (proj2 (Z.eqb_neq b EOF)) by (unfold EOF; lia).
      rewrite (proj2 (Z.eqb_neq b c)) by assumption. reflexivity.
    + rewrite fmove_forward, len_cons by lia.
      replace (p + (1 + len k)) with (p + 1 + len k) by lia.
      apply IH; [lia | assumption].
Qed.

Lemma ffindc_returns (f : file) (c : Z) (k : list Z) (p : Z) :
  is_bytes f -> Forall (fun b => b <> c) k ->
  segment_at f p (k ++ [c]) ->
  returns (fun n => ffindc n f c p) (c, p + len k).
Proof.
  intros Hf Hk Hseg. apply segment_at_app in Hseg as [Hsk [Hc _]].
  pose proof (byte_at_nonneg _ _ _ Hc) as Hpos.
  pose proof (byte_at_is_byte f _ c Hf Hc) as Hbyte.
  assert (0 <= p) as Hp.
  { destruct k as [|b k]; [rewrite len_nil in Hpos; lia|].
    destruct Hsk as [Hb _]. apply (byte_at_nonneg _ _ _ Hb). }
  unfold ffindc.
  apply (while_returns (fun _ => ffindc_body f c) _ (p + len k)).
  - apply ffindc_scan; assumption.
  - apply returns_always. intros _. unfold ffindc_body.
    rewrite (freadc_byte _ _ _ Hc).
    rewrite (proj2 (Z.eqb_neq c EOF)) by (unfold EOF; lia).
    rewrite Z.eqb_refl. reflexivity.
Qed.

(** C4, as stated, fails twice.  Validation counts the brackets inside
    comments of either kind: the source made of the line comment [#[] and a
    newline is rejected, while the same comment without its bracket is
    accepted, and so are the comments [([)] and [()] (last two parts).  And
    the bracket scans read line comments as code: in the second source the
    skip of the loop on the zero cell stops at the [']'] inside the first
    comment, the body runs, and the run ends with cell 0 at 1 and the tape
    pointer at 1; with the two brackets taken out of the comments the loop is
    skipped and the tape and the pointer stay at 0. *)
Lemma comment_contents_change_the_run :
  (returns (fun n => readfile n (bytes "#[" ++ [ch_nl]) [])
     (mkOutcome ERR_MATCHING_BRACKET (initial []) (Some 3))
   /\ exists r, returns (fun n => readfile n (bytes "#" ++ [ch_nl]) []) r
        /\ status r = ERR_OK)
  /\ (exists r,
        returns (fun n => readfile n
          (bytes "[#]" ++ [ch_nl] ++ bytes "+>]#[" ++ [ch_nl]) []) r
        /\ status r = ERR_OK /\ tape (final r) 0 = 1 /\ stackptr (final r) = 1)
  /\ (exists r,
        returns (fun n => readfile n
          (bytes "[#" ++ [ch_nl] ++ bytes "+>]#" ++ [ch_nl]) []) r
        /\ status r = ERR_OK /\ tape (final r) 0 = 0 /\ stackptr (final r) = 0)
  /\ returns (fun n => readfile n (bytes "([)") [])
       (mkOutcome ERR_MATCHING_BRACKET (initial []) (Some 3))
  /\ exists r, returns (fun n => readfile n (bytes "()") []) r
       /\ status r = ERR_OK.
Proof.
  split; [split|split; [|split; [|split]]].
  - apply (readfile_returns 4). vm_compute. reflexivity.
  - destruct (readfile 4 (bytes "#" ++ [ch_nl]) []) as [r|] eqn:E;
      [|vm_compute in E; discriminate].
    exists r. split; [apply (readfile_returns 4); exact E|].
    vm_compute in E. injection E as <-. reflexivity.
  - destruct (readfile 12
                (bytes "[#]" ++ [ch_nl] ++ bytes "+>]#[" ++ [ch_nl]) [])
      as [r|] eqn:E; [|vm_compute in E; discriminate].
    exists r. split; [apply (readfile_returns 12); exact E|].
    vm_compute in E. injection E as <-. repeat split.
  - destruct (readfile 12
                (bytes "[#" ++ [ch_nl] ++ bytes "+>]#" ++ [ch_nl]) [])
      as [r|] eqn:E; [|vm_compute in E; discriminate].
    exists r. split; [apply (readfile_returns 12); exact E|].
    vm_compute in E. injection E as <-. repeat split.
  - apply (readfile_returns 5). vm_compute. reflexivity.
  - destruct (readfile 5 (bytes "()") []) as [r|] eqn:E;
      [|vm_compute in E; discriminate].
    exists r. split; [apply (readfile_returns 5); exact E|].
    vm_compute in E. injection E as <-. reflexivity.
Qed.

(** A comment the dispatcher reads from its opening delimiter is skipped
    whole, whatever it contains. *)
Lemma comment_dispatch (f : file) (s : session) :
  is_bytes f -> 0 <= stackptr s < STACK_SIZE ->
  (forall q, matching ch_lparen ch_rparen f (fpos s) q ->
     returns (fun n => interpret_body n f s) (inl (set_fpos s (q + 1))))
  /\ (forall k, Forall (fun b => b <> ch_nl) k ->
        segment_at f (fpos s) (ch_hash :: k ++ [ch_nl]) ->
        returns (fun n => interpret_body n f s)
          (inl (set_fpos s (fpos s + len k + 2))))
  /\ (Forall plain_byte f ->
      returns (fun n => check_matching_brackets n f ch_lbrack ch_rbrack 0)
        (if count ch_lbrack f =? count ch_rbrack f
         then ERR_OK else ERR_MATCHING_BRACKET, len f)).
Proof.
  intros Hf Hb. split; [|split].
  - intros q (k & Hk & Hseg & ->).
    pose proof Hseg as [Ho _].
    pose proof (byte_at_nonneg _ _ _ Ho) as Hpos.
    pose proof (len_nonneg k) as Hlen.
    eapply returns_ext.
    { intros n. symmetry.
      rewrite (interpret_body_command n f s _ Ho);
        [|vm_compute; congruence|assumption].
      change (to_char ch_lparen) with ch_lparen.
      rewrite command_lparen. reflexivity. }
    eapply (returns_ext
              (fun n => match ffindc_matching n f ch_lparen ch_rparen 1 (fpos s)
                        with
                        | None => None
                        | Some x => Some (inl (set_fpos s (fmove (snd x) 1)))
                        end)).
    { intros n. destruct (ffindc_matching n f _ _ _ _) as [[v pos]|];
        reflexivity. }
    eapply (returns_bind _ (fun _ x => Some _)).
    + apply (ffindc_matching_forward f ch_lparen ch_rparen Hf lparen_rparen
               k (fpos s) Hk Hseg 1). lia.
    + cbn [snd]. rewrite fmove_forward by lia. apply returns_const.
  - intros k Hk Hseg.
    pose proof Hseg as [Ho _].
    pose proof (byte_at_nonneg _ _ _ Ho) as Hpos.
    pose proof (len_nonneg k) as Hlen.
    eapply returns_ext.
    { intros n. symmetry.
      rewrite (interpret_body_command n f s _ Ho);
        [|vm_compute; congruence|assumption].
      change (to_char ch_hash) with ch_hash.
      rewrite command_hash. reflexivity. }
    eapply (returns_ext
              (fun n => match ffindc n f ch_nl (fpos s) with
                        | None => None
                        | Some x => Some (inl (set_fpos s (fmove (snd x) 1)))
                        end)).
    { intros n. destruct (ffindc n f _ _) as [[v pos]|]; reflexivity. }
    eapply (returns_bind _ (fun _ x => Some _)).
    + apply (ffindc_returns f ch_nl (ch_hash :: k) (fpos s) Hf).
      * constructor; [vm_compute; congruence | assumption].
      * exact Hseg.
    + cbn [snd]. rewrite len_cons, fmove_forward by lia.
      replace (fpos s + (1 + len k) + 1) with (fpos s + len k + 2) by lia.
      apply returns_const.
  - intros Hp.
    pose proof (check_matching_brackets_returns ch_lbrack ch_rbrack
                  ltac:(vm_compute; split; congruence)
                  ltac:(vm_compute; split; congruence)
                  ltac:(vm_compute; congruence) f 0 Hp) as H.
    rewrite Z.add_0_l in H. exact H.
Qed.

(** The bracket scans step across a parenthesised comment without counting
    anything in it. *)
Lemma jump_forward_over_comment (f : file) (d cd p q : Z) :
  is_bytes f -> matching ch_lparen ch_rparen f p q ->
  returns (fun n => jump_forward_body n f d (cd, p)) (inl (cd, q + 1)).
Proof.
  intros Hf (k & Hk & Hseg & ->).
  pose proof Hseg as [Ho _].
  pose proof (byte_at_nonneg _ _ _ Ho) as Hp.
  pose proof (len_nonneg k) as Hlen.
  eapply returns_ext;
    [intros n; symmetry; apply (jump_forward_body_comment f d n cd p Ho)|].
  eapply (returns_bind _ (fun _ x => let '(_, pos) := x in _)).
  - apply (ffindc_matching_forward f ch_lparen ch_rparen Hf lparen_rparen
             k p Hk Hseg 1). lia.
  - simpl. rewrite fmove_forward by lia. apply returns_const.
Qed.

Lemma jump_backward_over_comment (f : file) (d cd p q : Z) :
  is_bytes f -> matching ch_lparen ch_rparen f p q -> 1 <= p ->
  returns (fun n => jump_backward_body n f d (cd, q)) (inl (cd, p - 1)).
Proof.
  intros Hf (k & Hk & Hseg & ->) Hp.
  pose proof Hseg as [_ Hrest].
  apply segment_at_app in Hrest as [_ [Hc _]].
  pose proof (len_nonneg k) as Hlen.
  eapply returns_ext;
    [intros n; symmetry; apply (jump_backward_body_comment f d n cd _ Hc)|].
  eapply (returns_bind _ (fun _ x => let '(_, pos) := x in _)).
  - apply (ffindc_matching_backward f ch_lparen ch_rparen Hf lparen_rparen
             k p Hk Hseg (-1)). lia.
  - simpl. rewrite fmoveback_one by lia. apply returns_const.
Qed.

(** C4, amended.  A parenthesised comment, from a ['('] to its matching
    [')'], is skipped whole wherever the code meets it, whatever it
    contains: the dispatcher that reads the ['('] with the tape pointer
    inside the tape starts its next iteration after the [')'] with the tape,
    the tape pointer, [depth], the input and the output unchanged; the
    forward scan of a loop that reads the ['('] goes on after the [')'] with
    its bracket counter unchanged; and the backward scan of a loop that
    reads the [')'] goes on before the ['('] with its counter unchanged,
    when the comment does not start the file.  A line comment, a ['#']
    followed by the bytes [k], none a newline, and a newline, is skipped
    whole by the dispatcher that reads the ['#'] with the tape pointer
    inside the tape: the next iteration starts after the newline with the
    session otherwise unchanged.  Validation is a different matter: over a
    source free of the byte 0xFF each pass compares the counts of its two
    delimiters over all bytes, those inside comments included. *)
Theorem comment_spans_skipped (f : file) :
  is_bytes f ->
  (forall s q, 0 <= stackptr s < STACK_SIZE ->
     matching ch_lparen ch_rparen f (fpos s) q ->
     returns (fun n => interpret_body n f s) (inl (set_fpos s (q + 1))))
  /\ (forall d cd p q, matching ch_lparen ch_rparen f p q ->
        returns (fun n => jump_forward_body n f d (cd, p)) (inl (cd, q + 1))
        /\ (1 <= p ->
            returns (fun n => jump_backward_body n f d (cd, q))
              (inl (cd, p - 1))))
  /\ (forall s k, 0 <= stackptr s < STACK_SIZE ->
        Forall (fun b => b <> ch_nl) k ->
        segment_at f (fpos s) (ch_hash :: k ++ [ch_nl]) ->
        returns (fun n => interpret_body n f s)
          (inl (set_fpos s (fpos s + len k + 2))))
  /\ (Forall plain_byte f -> forall w,
      returns (fun n => check_matching_brackets n f ch_lbrack ch_rbrack w)
        (if count ch_lbrack f =? count ch_rbrack f
         then ERR_OK else ERR_MATCHING_BRACKET, w + len f)
      /\ returns (fun n => check_matching_brackets n f ch_lparen ch_rparen w)
           (if count ch_lparen f =? count ch_rparen f
            then ERR_OK else ERR_MATCHING_BRACKET, w + len f)).
Proof.
  intros Hf. split; [|split; [|split]].
  - intros s q Hb Hm. apply (proj1 (comment_dispatch f s Hf Hb) q Hm).
  - intros d cd p q Hm. split.
    + apply jump_forward_over_comment; assumption.
    + intros Hp. apply (jump_backward_over_comment f d cd p q); assumption.
  - intros s k Hb Hk Hseg.
    apply (proj1 (proj2 (comment_dispatch f s Hf Hb)) k Hk Hseg).
  - intros Hp w. split.
    + apply (check_matching_brackets_returns ch_lbrack ch_rbrack
               ltac:(vm_compute; split; congruence)
               ltac:(vm_compute; split; congruence)
               ltac:(vm_compute; congruence) f w Hp).
    + apply (check_matching_brackets_returns ch_lparen ch_rparen
               ltac:(vm_compute; split; congruence)
               ltac:(vm_compute; split; congruence)
               ltac:(vm_compute; congruence) f w Hp).
Qed.

Lemma comment_spans_skipped_witness :
  is_bytes (bytes "(a[)#]b" ++ [ch_nl] ++ bytes "+")
  /\ matching ch_lparen ch_rparen (bytes "(a[)#]b" ++ [ch_nl] ++ bytes "+") 0 3
  /\ returns (fun n => interpret_body n
                (bytes "(a[)#]b" ++ [ch_nl] ++ bytes "+") (initial []))
       (inl (set_fpos (initial []) 4))
  /\ returns (fun n => jump_forward_body n
                (bytes "(a[)#]b" ++ [ch_nl] ++ bytes "+") 1 (1, 0))
       (inl (1, 4))
  /\ returns (fun n => interpret_body n
                (bytes "(a[)#]b" ++ [ch_nl] ++ bytes "+")
                (set_fpos (initial []) 4))
       (inl (set_fpos (initial []) 8)).
Proof.
  assert (is_bytes (bytes "(a[)#]b" ++ [ch_nl] ++ bytes "+")) as Hf
      by (apply is_bytes_check; vm_compute; reflexivity).
  assert (matching ch_lparen ch_rparen
            (bytes "(a[)#]b" ++ [ch_nl] ++ bytes "+") 0 3) as Hm.
  { exists (bytes "a["). split; [|split; [vm_compute; tauto | reflexivity]].
    repeat (apply nested_other; [vm_compute; congruence..|]).
    apply nested_nil. }
  split; [exact Hf|]. split; [exact Hm|]. split; [|split].
  - apply (proj1 (comment_spans_skipped _ Hf) (initial []) 3
             ltac:(vm_compute; split; congruence) Hm).
  - apply (proj1 (proj1 (proj2 (comment_spans_skipped _ Hf)) 1 1 0 3 Hm)).
  - apply (proj1 (proj2 (proj2 (comment_spans_skipped _ Hf)))
             (set_fpos (initial []) 4) (bytes "]b")
             ltac:(vm_compute; split; congruence)).
    + repeat constructor; vm_compute; congruence.
    + vm_compute. tauto.
Defined.

(** * Tape bounds, at the following command *)

Lemma move_out_then_fault (f : file) (s : session) (c b : Z) :
  byte_at f (fpos s) = Some c ->
  (c = ch_lt /\ stackptr s = 0) \/ (c = ch_gt /\ stackptr s = STACK_SIZE - 1) ->
  byte_at f (fpos s + 1) = Some b -> to_char b <> EOF ->
  returns (fun n => interpret_file n f s)
    (ERR_BOUNDS, set_fpos s (fpos s + 1)).
Proof.
  intros Hc Hmove Hb Hne.
  pose proof (byte_at_nonneg _ _ _ Hc) as Hpos.
  unfold interpret_file.
  set (s1 := set_fpos (set_stackptr s (head_step c (stackptr s)))
               (fpos s + 1)).
  apply (while_returns (fun n => interpret_body n f) s s1).
  - apply iterates_one, returns_always. intros n.
    rewrite (interpret_body_command n f s c Hc).
    + destruct Hmove as [[-> Hs] | [-> Hs]];
        change (to_char ch_lt) with ch_lt; change (to_char ch_gt) with ch_gt;
        unfold s1; cbn [command Z.eqb Pos.eqb ch_gt ch_lt fpos set_stackptr];
        rewrite fmove_forward by lia; reflexivity.
    + destruct Hmove as [[-> _] | [-> _]]; vm_compute; congruence.
    + unfold STACK_SIZE in *. destruct Hmove as [[_ ->] | [_ ->]]; lia.
  - apply returns_always. intros n.
    destruct (bounds_fault_at_next_command n f s1 b Hb Hne) as [Hlo Hhi].
    destruct Hmove as [[-> Hs] | [-> Hs]].
    + rewrite Hlo by (unfold s1; cbn; rewrite Hs; reflexivity).
      do 3 f_equal. unfold s1. destruct s; cbn in *. subst. reflexivity.
    + rewrite Hhi by (unfold s1; cbn; rewrite Hs; vm_compute; congruence).
      do 3 f_equal. unfold s1. destruct s; cbn in *. subst. reflexivity.
Qed.

(** C5, amended.  When a command follows a [<] executed at index 0 or a [>]
    executed at the last index (a byte that is not read as [EOF] stands
    after the move), the run ends there with [ERR_BOUNDS]: the following
    command is not executed, and the pointer is clamped to the edge it left,
    so the session is the one before the move with the cursor on the
    following byte.  In particular a source that passes validation and
    begins with [<] followed by at least one byte is rejected with
    [ERR_BOUNDS], tape untouched and nothing printed. *)
Theorem bounds_fault_at_following_command :
  (forall (f : file) (s : session) (c b : Z),
      byte_at f (fpos s) = Some c ->
      (c = ch_lt /\ stackptr s = 0)
      \/ (c = ch_gt /\ stackptr s = STACK_SIZE - 1) ->
      byte_at f (fpos s + 1) = Some b -> to_char b <> EOF ->
      returns (fun n => interpret_file n f s)
        (ERR_BOUNDS, set_fpos s (fpos s + 1)))
  /\ (forall (b : Z) (rest input : list Z),
        Forall plain_byte (ch_lt :: b :: rest) ->
        count ch_lbrack (ch_lt :: b :: rest)
        = count ch_rbrack (ch_lt :: b :: rest) ->
        count ch_lparen (ch_lt :: b :: rest)
        = count ch_rparen (ch_lt :: b :: rest) ->
        returns (fun n => readfile n (ch_lt :: b :: rest) input)
          (mkOutcome ERR_BOUNDS (set_fpos (initial input) 1) None)).
Proof.
  split; [exact move_out_then_fault|].
  intros b rest input Hp Hb Hc.
  apply readfile_validated; try assumption.
  apply (move_out_then_fault (ch_lt :: b :: rest) (initial input) ch_lt b).
  - reflexivity.
  - left. split; reflexivity.
  - reflexivity.
  - apply to_char_plain. inversion Hp as [|? ? _ Hp']. inversion Hp'. assumption.
Qed.

Lemma bounds_fault_at_following_command_witness :
  Forall plain_byte (ch_lt :: bytes "+[-]")
  /\ returns (fun n => readfile n (ch_lt :: bytes "+[-]") [])
       (mkOutcome ERR_BOUNDS (set_fpos (initial []) 1) None).
Proof.
  assert (Forall plain_byte (ch_lt :: bytes "+[-]")) as Hp
      by (apply plain_bytes_check; vm_compute; reflexivity).
  split; [exact Hp|].
  apply (proj2 bounds_fault_at_following_command ch_plus (bytes "[-]") [] Hp);
    reflexivity.
Defined.

(** * String comparison *)

Lemma to_uchar_char_inj (a b : Z) :
  -128 <= a < 128 -> -128 <= b < 128 -> to_uchar a = to_uchar b -> a = b.
Proof.
  unfold to_uchar. intros Ha Hb H.
  assert (forall x, -128 <= x < 128 ->
                    x mod 256 = if x <? 0 then x + 256 else x) as Hm.
  { intros x Hx. destruct (Z.ltb_spec x 0).
    - replace x with (x + 256 + -1 * 256) at 1 by lia.
      rewrite Z.mod_add by lia. apply Z.mod_small. lia.
    - apply Z.mod_small. lia. }
  rewrite (Hm a Ha), (Hm b Hb) in H.
  destruct (Z.ltb_spec a 0), (Z.ltb_spec b 0); lia.
Qed.

Lemma to_uchar_nonneg (a : Z) : 0 <= to_uchar a < 256.
Proof. unfold to_uchar. apply Z.mod_pos_bound. lia. Qed.

Lemma strcmp_zero (s1 s2 : list Z) :
  Forall (fun c => -128 <= c < 128 /\ c <> 0) s1 ->
  Forall (fun c => -128 <= c < 128 /\ c <> 0) s2 ->
  strcmp s1 s2 = 0 <-> s1 = s2.
Proof.
  intros H1. revert s2. induction H1 as [|a r1 [Ha Ha0] _ IH]; intros s2 H2.
  - destruct H2 as [|b r2 [Hb Hb0] _]; simpl; [tauto|].
    split; [|discriminate]. intros H. exfalso.
    assert (to_uchar b = to_uchar 0) as E by (change (to_uchar 0) with 0; lia).
    apply to_uchar_char_inj in E; lia.
  - simpl. rewrite (proj2 (Z.eqb_neq a 0) Ha0).
    destruct H2 as [|b r2 [Hb Hb0] H2].
    + split; [|discriminate]. intros H. exfalso.
      assert (to_uchar a = to_uchar 0) as E
          by (change (to_uchar 0) with 0; lia).
      apply to_uchar_char_inj in E; lia.
    + destruct (Z.eqb_spec a b) as [->|Hne].
      * rewrite (IH r2 H2). split; [intros ->; reflexivity | congruence].
      * split; [|congruence]. intros H. exfalso. apply Hne.
        apply to_uchar_char_inj; [assumption..|lia].
Qed.

(** X1.  On strings of nonzero [char]s, [strcmp] returns 0 exactly when the
    two strings are the same. *)
Theorem strcmp_zero_iff_equal (s1 s2 : list Z) :
  Forall (fun c => -128 <= c < 128 /\ c <> 0) s1 ->
  Forall (fun c => -128 <= c < 128 /\ c <> 0) s2 ->
  strcmp s1 s2 = 0 <-> s1 = s2.
Proof. apply strcmp_zero. Qed.

Lemma strcmp_zero_iff_equal_witness :
  Forall (fun c => -128 <= c < 128 /\ c <> 0) (bytes "--debug")
  /\ (strcmp (bytes "--debug") (bytes "--debug") = 0
      <-> bytes "--debug" = bytes "--debug").
Proof.
  assert (Forall (fun c => -128 <= c < 128 /\ c <> 0) (bytes "--debug")) as H.
  { apply Forall_forall. intros c Hc. apply list_elem_of_In in Hc.
    vm_compute in Hc. intuition subst; lia. }
  split; [exact H|]. apply strcmp_zero_iff_equal; exact H.
Defined.

(** X2.  Exchanging the arguments of [strcmp] negates its result, for all
    strings. *)
Theorem strcmp_antisymmetric (s1 s2 : list Z) :
  strcmp s2 s1 = - strcmp s1 s2.
Proof.
  revert s2. induction s1 as [|a r1 IH]; intros s2.
  - destruct s2 as [|b r2]; simpl; [reflexivity|].
    destruct (Z.eqb_spec b 0) as [->|Hb]; [reflexivity|].
    change (to_uchar 0) with 0. lia.
  - simpl. destruct (Z.eqb_spec a 0) as [->|Ha].
    + destruct s2 as [|b r2]; simpl; [reflexivity|].
      destruct (Z.eqb_spec b 0) as [->|Hb]; [reflexivity|].
      change (to_uchar 0) with 0. lia.
    + destruct s2 as [|b r2]; simpl.
      * change (to_uchar 0) with 0. lia.
      * destruct (Z.eqb_spec b 0) as [->|Hb].
        -- rewrite (proj2 (Z.eqb_neq a 0) Ha). change (to_uchar 0) with 0. lia.
        -- destruct (Z.eqb_spec a b) as [->|Hab].
           ++ rewrite Z.eqb_refl. apply IH.
           ++ rewrite (proj2 (Z.eqb_neq b a)) by congruence. lia.
Qed.

(** * What every run keeps *)

Lemma tape_ok_stack (s s' : session) :
  stack s' = stack s -> tape_ok s -> tape_ok s'.
Proof.
  intros E [Hl Hr]. split; [rewrite E; exact Hl|].
  intros i. unfold tape. rewrite E. apply Hr.
Qed.

Lemma command_keeps_tape (n : nat) (f : file) (c : Z) (s s' : session) :
  command n f c s = Some (Some s') ->
  0 <= stackptr s < STACK_SIZE -> tape_ok s ->
  tape_ok s' /\ -1 <= stackptr s' <= STACK_SIZE.
Proof.
  unfold command. intros H Hp Hok.
  repeat (match type of H with
          | context [if ?b then _ else _] => destruct b
          end);
    try (injection H as <-; split;
         [apply (tape_ok_stack s); [reflexivity | assumption]
         | cbn [stackptr set_stackptr set_fpos print_byte set_out]; lia]).
  - injection H as <-. split.
    + apply tape_ok_set_cell; auto using to_char_range.
    + destruct (set_cell_fields s (to_char (cell s + 1))) as (-> & _). lia.
  - injection H as <-. split.
    + apply tape_ok_set_cell; auto using to_char_range.
    + destruct (set_cell_fields s (to_char (cell s - 1))) as (-> & _). lia.
  - unfold input_byte in H. destruct (inp s) as [|b rest]; injection H as <-.
    + split; [apply tape_ok_set_cell; auto; lia|].
      destruct (set_cell_fields s 0) as (-> & _). lia.
    + split.
      * apply tape_ok_set_cell; auto using to_char_range.
      * destruct (set_cell_fields (set_inp s rest) (to_char b)) as (-> & _).
        cbn [stackptr set_inp]. lia.
  - destruct (jump_forward n f s) as [s1|] eqn:E; [|discriminate].
    injection H as <-.
    destruct (jump_forward_frame _ _ _ _ E) as (E1 & E2 & _).
    split; [apply (tape_ok_stack s); assumption | lia].
  - destruct (jump_backward n f s) as [s1|] eqn:E; [|discriminate].
    injection H as <-.
    destruct (jump_backward_frame _ _ _ _ E) as (E1 & E2 & _).
    split; [apply (tape_ok_stack s); assumption | lia].
  - destruct (ffindc_matching n f _ _ _ _) as [[v q]|]; [|discriminate].
    injection H as <-.
    split; [apply (tape_ok_stack s); [reflexivity | assumption]|].
    cbn [stackptr set_fpos]. lia.
  - destruct (ffindc n f _ _) as [[v q]|]; [|discriminate].
    injection H as <-.
    split; [apply (tape_ok_stack s); [reflexivity | assumption]|].
    cbn [stackptr set_fpos]. lia.
  - discriminate.
Qed.

(** What an iteration of the dispatcher keeps, and what it ends with. *)
Lemma interpret_body_keeps_tape (n : nat) (f : file) (s : session)
    (x : session + Error * session) :
  interpret_body n f s = Some x ->
  tape_ok s -> -1 <= stackptr s <= STACK_SIZE ->
  match x with
  | inl s' => tape_ok s' /\ -1 <= stackptr s' <= STACK_SIZE
  | inr (e, s') =>
      tape_ok s'
      /\ match e with
         | ERR_OK => -1 <= stackptr s' <= STACK_SIZE
         | ERR_UNKNOWN_CHAR => 0 <= stackptr s' < STACK_SIZE
         | ERR_BOUNDS => stackptr s' = 0 \/ stackptr s' = STACK_SIZE - 1
         | _ => False
         end
  end.
Proof.
  unfold interpret_body. intros H Hok Hp.
  destruct (freadc f (fpos s)) as [v q].
  assert (tape_ok (set_fpos s q)) as Hok'
      by (apply (tape_ok_stack s); [reflexivity | assumption]).
  destruct (to_char v =? EOF).
  { injection H as <-. split; assumption. }
  destruct (Z.ltb_spec (stackptr (set_fpos s q)) 0).
  { injection H as <-. split; [|left; reflexivity].
    apply (tape_ok_stack s); [reflexivity | assumption]. }
  destruct (Z.leb_spec STACK_SIZE (stackptr (set_fpos s q))).
  { injection H as <-. split; [|right; reflexivity].
    apply (tape_ok_stack s); [reflexivity | assumption]. }
  destruct (command n f (to_char v) (set_fpos s q)) as [[s1|]|] eqn:E;
    try discriminate; injection H as <-.
  - destruct (command_keeps_tape _ _ _ _ _ E) as [Hk1 Hk2];
      [cbn [stackptr set_fpos] in *; lia | assumption |].
    split; [apply (tape_ok_stack s1); [reflexivity | assumption]|].
    exact Hk2.
  - split; [assumption|]. lia.
Qed.

Lemma interpret_file_keeps_tape (n : nat) (f : file) (s : session)
    (e : Error) (s' : session) :
  interpret_file n f s = Some (e, s') ->
  tape_ok s -> -1 <= stackptr s <= STACK_SIZE ->
  tape_ok s'
  /\ match e with
     | ERR_OK => -1 <= stackptr s' <= STACK_SIZE
     | ERR_UNKNOWN_CHAR => 0 <= stackptr s' < STACK_SIZE
     | ERR_BOUNDS => stackptr s' = 0 \/ stackptr s' = STACK_SIZE - 1
     | _ => False
     end.
Proof.
  intros H Hok Hp. unfold interpret_file in H. revert H.
  apply (while_invariant (interpret_body n f)
           (fun s => tape_ok s /\ -1 <= stackptr s <= STACK_SIZE)
           (fun r => tape_ok (snd r)
                     /\ match fst r with
                        | ERR_OK => -1 <= stackptr (snd r) <= STACK_SIZE
                        | ERR_UNKNOWN_CHAR => 0 <= stackptr (snd r) < STACK_SIZE
                        | ERR_BOUNDS => stackptr (snd r) = 0
                                        \/ stackptr (snd r) = STACK_SIZE - 1
                        | _ => False
                        end)) with (r := (e, s')).
  - intros s0 s1 [H1 H2] E.
    apply (interpret_body_keeps_tape n f s0 (inl s1) E H1 H2).
  - intros s0 [e0 s1] [H1 H2] E.
    apply (interpret_body_keeps_tape n f s0 (inr (e0, s1)) E H1 H2).
  - split; assumption.
Qed.

Lemma initial_pointer (input : list Z) :
  -1 <= stackptr (initial input) <= STACK_SIZE.
Proof. unfold STACK_SIZE. simpl. lia. Qed.

Lemma readfile_outcome (n : nat) (f : file) (input : list Z) (r : outcome) :
  readfile n f input = Some r ->
  match status r with
  | ERR_OK =>
      reported r = None /\ tape_ok (final r)
      /\ -1 <= stackptr (final r) <= STACK_SIZE
  | ERR_UNKNOWN_CHAR =>
      reported r = None /\ tape_ok (final r)
      /\ 0 <= stackptr (final r) < STACK_SIZE
  | ERR_BOUNDS =>
      reported r = None /\ tape_ok (final r)
      /\ (stackptr (final r) = 0 \/ stackptr (final r) = STACK_SIZE - 1)
  | ERR_MATCHING_BRACKET =>
      final r = initial input /\ exists w, reported r = Some w
  | ERR_FILE | ERR_UNKNOWN => False
  end.
Proof.
  unfold readfile. intros H.
  destruct (check_matching_brackets n f ch_lbrack ch_rbrack 0)
    as [[e1 w1]|]; [|discriminate].
  destruct (negb _).
  { injection H as <-. simpl. eauto. }
  destruct (check_matching_brackets n f ch_lparen ch_rparen w1)
    as [[e2 w2]|]; [|discriminate].
  destruct (negb _).
  { injection H as <-. simpl. eauto. }
  destruct (interpret_file n f (initial input)) as [[e s]|] eqn:E;
    [|discriminate].
  injection H as <-. simpl.
  destruct (interpret_file_keeps_tape n f _ e s E (tape_ok_initial input)
              (initial_pointer input)) as [H1 H2].
  destruct e; tauto.
Qed.

(** X3.  Through every run the tape keeps its [STACK_SIZE] cells, each cell
    holds a [char], and the tape pointer is never more than one cell
    outside the tape. *)
Theorem reachable_keeps_tape (f : file) (input : list Z) (s : session) :
  reachable f input s ->
  Z.of_nat (length (stack s)) = STACK_SIZE
  /\ (forall i, -128 <= tape s i < 128)
  /\ -1 <= stackptr s <= STACK_SIZE.
Proof.
  intros Hr.
  assert (tape_ok s /\ -1 <= stackptr s <= STACK_SIZE) as [[H1 H2] H3].
  { induction Hr as [|s s' _ [IH1 IH2] [n Hn]].
    - split; [apply tape_ok_initial | apply initial_pointer].
    - apply (interpret_body_keeps_tape n f s (inl s') (Hn n (le_n n)) IH1 IH2). }
  split; [rewrite H1; reflexivity|]. split; assumption.
Qed.

Lemma reachable_keeps_tape_witness :
  reachable (bytes "<<") [] (set_fpos (set_stackptr (initial []) (-1)) 1)
  /\ -1 <= stackptr (set_fpos (set_stackptr (initial []) (-1)) 1) <= STACK_SIZE.
Proof.
  assert (reachable (bytes "<<") []
            (set_fpos (set_stackptr (initial []) (-1)) 1)) as Hr.
  { eapply reachable_step; [apply reachable_initial|].
    apply returns_always. intros n. vm_compute. reflexivity. }
  split; [exact Hr|].
  apply (reachable_keeps_tape (bytes "<<") [] _ Hr).
Defined.

(** X4.  However a run ends, its status is [ERR_OK], [ERR_UNKNOWN_CHAR],
    [ERR_MATCHING_BRACKET] or [ERR_BOUNDS].  Only a validation failure
    reports an offset, and it leaves the initial session.  After
    [ERR_BOUNDS] the tape pointer is on the first or the last cell, after
    [ERR_UNKNOWN_CHAR] it is inside the tape, and in every case the tape
    still has [STACK_SIZE] cells holding [char]s. *)
Theorem readfile_outcome_cases (n : nat) (f : file) (input : list Z)
    (r : outcome) :
  readfile n f input = Some r ->
  match status r with
  | ERR_OK =>
      reported r = None /\ tape_ok (final r)
      /\ -1 <= stackptr (final r) <= STACK_SIZE
  | ERR_UNKNOWN_CHAR =>
      reported r = None /\ tape_ok (final r)
      /\ 0 <= stackptr (final r) < STACK_SIZE
  | ERR_BOUNDS =>
      reported r = None /\ tape_ok (final r)
      /\ (stackptr (final r) = 0 \/ stackptr (final r) = STACK_SIZE - 1)
  | ERR_MATCHING_BRACKET =>
      final r = initial input /\ exists w, reported r = Some w
  | ERR_FILE | ERR_UNKNOWN => False
  end.
Proof. apply readfile_outcome. Qed.

Lemma readfile_outcome_cases_witness :
  readfile 4 (bytes "+>a") []
  = Some (mkOutcome ERR_UNKNOWN_CHAR
            (set_fpos (set_stackptr (set_cell (initial []) 1) 1) 2) None)
  /\ 0 <= stackptr (set_fpos (set_stackptr (set_cell (initial []) 1) 1) 2)
     < STACK_SIZE.
Proof.
  assert (readfile 4 (bytes "+>a") []
          = Some (mkOutcome ERR_UNKNOWN_CHAR
                    (set_fpos (set_stackptr (set_cell (initial []) 1) 1) 2)
                    None)) as H by (vm_compute; reflexivity).
  split; [exact H|].
  apply (readfile_outcome_cases 4 (bytes "+>a") [] _ H).
Defined.

(** * The command line *)

(** X5.  Whenever [main] returns, its exit status is between 0 and 4, and
    it is 4 ([ERR_FILE]) exactly when no file argument was given or the file
    could not be opened. *)
Theorem main_exit_status (n : nat) (fopen : list Z -> option file)
    (argv : list (list Z)) (input : list Z) (code : Z) (debug : bool) :
  main n fopen argv input = Some (code, debug) ->
  0 <= code <= 4
  /\ (code = 4 <->
      (length argv < 2)%nat \/ fopen (default [] (argv !! 1%nat)) = None).
Proof.
  unfold main. destruct (Z.ltb_spec (Z.of_nat (length argv)) 2) as [Hlt|Hge].
  { intros [= <- <-]. simpl. split; [lia|]. split; [left; lia | reflexivity]. }
  unfold readfile_path.
  destruct (fopen (default [] (argv !! 1%nat))) as [f|] eqn:Ef.
  - destruct (readfile n f input) as [r|] eqn:Er; [|discriminate].
    intros [= <- <-]. pose proof (readfile_outcome n f input r Er) as H.
    destruct (status r); simpl in *; try contradiction;
      (split; [lia|]);
      (split; [intros; lia | intros [Hl|?]; [|congruence]]);
      apply Nat2Z.inj_lt in Hl; simpl in Hl; lia.
  - intros [= <- <-]. simpl. split; [lia|]. split; [right|]; reflexivity.
Qed.

Lemma main_exit_status_witness :
  main 4 (fun _ => Some (bytes "+>a")) [bytes "bd"; bytes "x.bf"] []
  = Some (1, false)
  /\ 0 <= 1 <= 4.
Proof.
  assert (main 4 (fun _ => Some (bytes "+>a")) [bytes "bd"; bytes "x.bf"] []
          = Some (1, false)) as H by (vm_compute; reflexivity).
  split; [exact H|].
  apply (proj1 (main_exit_status _ _ _ _ _ _ H)).
Defined.

(** X6.  Whenever [main] returns, the debug dump is printed exactly when
    there is a second argument after the file name and it is the string
    [--debug], whatever the result of the run. *)
Theorem main_debug_flag (n : nat) (fopen : list Z -> option file)
    (argv : list (list Z)) (input : list Z) (code : Z) (debug : bool) :
  main n fopen argv input = Some (code, debug) ->
  (forall a, argv !! 2%nat = Some a ->
             Forall (fun c => -128 <= c < 128 /\ c <> 0) a) ->
  debug = true <-> argv !! 2%nat = Some (bytes "--debug").
Proof.
  unfold main. intros H Hchars.
  assert (Forall (fun c => -128 <= c < 128 /\ c <> 0) (bytes "--debug")) as Hd.
  { apply Forall_forall. intros c Hc. apply list_elem_of_In in Hc.
    vm_compute in Hc. intuition subst; lia. }
  destruct (Z.ltb_spec (Z.of_nat (length argv)) 2) as [Hlt|Hge].
  { injection H as <- <-. split; [discriminate|].
    intros E%lookup_lt_Some. exfalso. unfold file in *. lia. }
  destruct (readfile_path n fopen _ input) as [r|]; [|discriminate].
  injection H as _ <-.
  destruct (argv !! 2%nat) as [a|] eqn:Ea.
  - apply lookup_lt_Some in Ea as Hlen. simpl.
    rewrite (proj2 (Z.leb_le 3 _)) by lia. simpl.
    rewrite Z.eqb_eq, (strcmp_zero a _ (Hchars a eq_refl) Hd).
    split; [intros ->; reflexivity | intros [= ->]; reflexivity].
  - apply lookup_ge_None in Ea. simpl.
    rewrite (proj2 (Z.leb_gt 3 _)) by lia. simpl.
    split; discriminate.
Qed.

Lemma main_debug_flag_witness :
  main 2 (fun _ => Some (bytes "+"))
       [bytes "bd"; bytes "x.bf"; bytes "--debug"] []
  = Some (0, true)
  /\ (true = true <->
      [bytes "bd"; bytes "x.bf"; bytes "--debug"] !! 2%nat
      = Some (bytes "--debug")).
Proof.
  assert (main 2 (fun _ => Some (bytes "+"))
            [bytes "bd"; bytes "x.bf"; bytes "--debug"] []
          = Some (0, true)) as H by (vm_compute; reflexivity).
  split; [exact H|].
  apply (main_debug_flag _ _ _ _ _ _ H).
  intros a Ha. vm_compute in Ha. injection Ha as <-.
  apply Forall_forall. intros c Hc. apply list_elem_of_In in Hc.
  vm_compute in Hc. intuition subst; lia.
Defined.

(** * Validation of any source *)

Lemma scanned_plain (f : file) : is_bytes f -> Forall plain_byte (scanned f).
Proof.
  induction 1 as [|b rest Hb _ IH]; simpl; [constructor|].
  destruct (Z.eqb_spec (to_char b) EOF) as [E|E]; constructor; [|exact IH].
  destruct (to_char_byte b Hb) as [H _]. unfold plain_byte.
  assert (b <> 255) by tauto. lia.
Qed.

(** The scanned part is a prefix of the source, and it is followed by the
    end of the source or by a byte that reads as [EOF]. *)
Lemma scanned_segment (f : file) :
  forall pre, segment_at (pre ++ f) (len pre) (scanned f)
    /\ match byte_at (pre ++ f) (len pre + len (scanned f)) with
       | None => True
       | Some b => to_char b = EOF
       end.
Proof.
  induction f as [|b rest IH]; intros pre; simpl.
  - split; [trivial|]. rewrite len_nil, Z.add_0_r, app_nil_r.
    rewrite byte_at_end by lia. trivial.
  - destruct (Z.eqb_spec (to_char b) EOF) as [E|E]; simpl.
    + split; [trivial|]. rewrite len_nil, Z.add_0_r, byte_at_middle. exact E.
    + split; [split; [apply byte_at_middle|]|].
      * destruct (IH (pre ++ [b])) as [H _].
        rewrite <- app_assoc, len_app, len_cons, len_nil in H. simpl in H.
        replace (len pre + 1) with (len pre + (1 + 0)) by lia. exact H.
      * destruct (IH (pre ++ [b])) as [_ H].
        rewrite <- app_assoc, len_app, len_cons, len_nil in H. simpl in H.
        rewrite len_cons.
        replace (len pre + (1 + len (scanned rest)))
          with (len pre + (1 + 0) + len (scanned rest)) by lia.
        exact H.
Qed.

Section ValidationScan.
Variable f : file.
Variables open close : Z.
Hypothesis open_char : 0 <= open < 128.
Hypothesis close_char : 0 <= close < 128.
Hypothesis open_close : open <> close.

Lemma check_scan (k : list Z) :
  Forall plain_byte k ->
  forall p level w, 0 <= p -> segment_at f p k ->
    iterates (fun _ => check_body f open close)
      (level, w, p)
      (level + count open k - count close k, w + len k, p + len k).
Proof.
  induction 1 as [|b k Hb _ IH]; intros p level w Hp Hseg.
  - rewrite !count_nil, len_nil, !Z.add_0_r, Z.sub_0_r. apply iterates_refl.
  - destruct Hseg as [Hbyte Hseg].
    destruct (to_char_plain b Hb) as [Hne Heq].
    eapply iterates_step.
    + apply returns_always. intros _. unfold check_body.
      rewrite (freadc_byte _ _ b Hbyte).
      rewrite (proj2 (Z.eqb_neq _ _) Hne).
      rewrite fmove_forward by assumption. reflexivity.
    + specialize (IH (p + 1)
                    (if to_char b =? open then level + 1
                     else if to_char b =? close then level - 1 else level)
                    (w + 1) ltac:(lia) Hseg).
      rewrite !count_cons, len_cons.
      replace (w + (1 + len k)) with (w + 1 + len k) by lia.
      replace (p + (1 + len k)) with (p + 1 + len k) by lia.
      match goal with
      | H : iterates _ ?a ?b |- iterates _ ?a ?b' =>
          replace b' with b; [exact H|]
      end.
      f_equal. f_equal.
      destruct (to_char b =? open) eqn:E1.
      * apply Z.eqb_eq, Heq in E1; [|assumption]. subst b.
        rewrite Z.eqb_refl, (proj2 (Z.eqb_neq _ _) open_close). lia.
      * apply Z.eqb_neq in E1.
        assert (b <> open) as Hbo by (intros ->; apply E1, Heq; auto).
        rewrite (proj2 (Z.eqb_neq _ _) Hbo).
        destruct (to_char b =? close) eqn:E2.
        -- apply Z.eqb_eq, Heq in E2; [|assumption]. subst b.
           rewrite Z.eqb_refl. lia.
        -- apply Z.eqb_neq in E2.
           assert (b <> close) as Hbc by (intros ->; apply E2, Heq; auto).
           rewrite (proj2 (Z.eqb_neq _ _) Hbc). lia.
Qed.
End ValidationScan.

Lemma check_matching_brackets_scanned (f : file) (open close w : Z) :
  is_bytes f -> 0 <= open < 128 -> 0 <= close < 128 -> open <> close ->
  returns (fun n => check_matching_brackets n f open close w)
    (if count open (scanned f) =? count close (scanned f)
     then ERR_OK else ERR_MATCHING_BRACKET,
     w + len (scanned f)).
Proof.
  intros Hf Ho Hc Hoc. unfold check_matching_brackets.
  destruct (scanned_segment f []) as [Hseg Hend]. simpl in Hseg, Hend.
  rewrite len_nil in Hseg. rewrite len_nil, Z.add_0_l in Hend.
  pose proof (check_scan f open close Ho Hc Hoc (scanned f)
                (scanned_plain f Hf) 0 0 w ltac:(lia) Hseg) as Hit.
  rewrite !Z.add_0_l in Hit.
  eapply (returns_bind _ (fun _ x => _)).
  - eapply (while_returns (fun _ => check_body f open close)); [exact Hit|].
    apply returns_always. intros _. unfold check_body.
    destruct (byte_at f (len (scanned f))) as [b|] eqn:Eb.
    + rewrite (freadc_byte _ _ _ Eb), Hend. reflexivity.
    + rewrite (freadc_eof f _ (len_nonneg _) Eb). reflexivity.
  - simpl.
    replace (count open (scanned f) =? count close (scanned f))
      with (count open (scanned f) - count close (scanned f) =? 0)
      by (destruct (Z.eqb_spec (count open (scanned f)
                                - count close (scanned f)) 0);
          destruct (Z.eqb_spec (count open (scanned f))
                      (count close (scanned f))); lia).
    destruct (_ =? 0); apply returns_const.
Qed.

(** X7.  A validation pass returns on every source.  It reads the bytes
    before the first byte 0xFF (all of them when there is none): its verdict
    compares the counts of the two delimiters among those bytes, and it adds
    their number to [*where]. *)
Theorem validation_reads_scanned_part (f : file) (open close w : Z) :
  is_bytes f -> 0 <= open < 128 -> 0 <= close < 128 -> open <> close ->
  returns (fun n => check_matching_brackets n f open close w)
    (if count open (scanned f) =? count close (scanned f)
     then ERR_OK else ERR_MATCHING_BRACKET,
     w + len (scanned f)).
Proof. apply check_matching_brackets_scanned. Qed.

Lemma validation_reads_scanned_part_witness :
  is_bytes (bytes "[]" ++ 255 :: bytes "[")
  /\ returns (fun n => check_matching_brackets n (bytes "[]" ++ 255 :: bytes "[")
                         ch_lbrack ch_rbrack 0)
       (ERR_OK, 2).
Proof.
  assert (is_bytes (bytes "[]" ++ 255 :: bytes "[")) as Hf
      by (apply is_bytes_check; vm_compute; reflexivity).
  split; [exact Hf|].
  apply (validation_reads_scanned_part _ ch_lbrack ch_rbrack 0 Hf);
    vm_compute; (split; congruence) || congruence.
Defined.

(** * Unknown characters *)

Lemma command_unknown (n : nat) (f : file) (s : session) (b : Z) :
  0 <= b < 255 -> recognised b = false ->
  command n f (to_char b) s = Some None.
Proof.
  intros Hb Hr.
  destruct (to_char_plain b Hb) as [_ Heq].
  unfold command.
  repeat match goal with
         | |- context [to_char b =? ?c] =>
             destruct (Z.eqb_spec (to_char b) c) as [E|_];
             [exfalso; apply Heq in E; [|vm_compute; split; congruence];
              subst b; vm_compute in Hr; discriminate|]
         end.
  reflexivity.
Qed.

(** X8.  A byte the dispatcher has no case for (and that is not 0xFF, which
    reads as [EOF]) ends the run with [ERR_UNKNOWN_CHAR] when it is
    dispatched, with the session as it was: the tape, the output and the
    input are untouched and the cursor stays on the offending byte. *)
Theorem unknown_character_stops (f : file) (s : session) (b : Z) :
  byte_at f (fpos s) = Some b -> 0 <= b < 255 -> recognised b = false ->
  0 <= stackptr s < STACK_SIZE ->
  returns (fun n => interpret_file n f s) (ERR_UNKNOWN_CHAR, s).
Proof.
  intros Hbyte Hb Hr Hp. unfold interpret_file.
  apply (while_returns (fun n => interpret_body n f) s s (ERR_UNKNOWN_CHAR, s)).
  - apply iterates_refl.
  - apply returns_always. intros n.
    rewrite (interpret_body_command n f s b Hbyte);
      [|apply to_char_plain; exact Hb | exact Hp].
    rewrite command_unknown by assumption. reflexivity.
Qed.

Lemma unknown_character_stops_witness :
  byte_at (bytes "a+") (fpos (initial [])) = Some 97
  /\ returns (fun n => interpret_file n (bytes "a+") (initial []))
       (ERR_UNKNOWN_CHAR, initial []).
Proof.
  split; [reflexivity|].
  apply (unknown_character_stops (bytes "a+") (initial []) 97);
    [reflexivity | lia | reflexivity | vm_compute; split; congruence].
Defined.

(** * Input and output *)

Lemma cell_set_cell (s : session) (v : Z) :
  tape_ok s -> 0 <= stackptr s < STACK_SIZE -> cell (set_cell s v) = v.
Proof.
  intros Hok Hp.
  destruct (set_cell_fields s v) as (Esp & _).
  rewrite cell_tape by (rewrite Esp; lia).
  rewrite Esp, tape_set_cell, Z.eqb_refl by (auto; lia). reflexivity.
Qed.

(** X9.  Round trip of one byte: [,] followed by [.] appends to the output
    the first byte of the next input line, or 0 when the input is
    exhausted, consumes that line, and leaves that byte in the current cell;
    the tape pointer and [depth] do not change. *)
Theorem input_then_print (f : file) (s : session) :
  segment_at f (fpos s) [ch_comma; ch_dot] ->
  0 <= stackptr s < STACK_SIZE -> tape_ok s ->
  Forall (fun b => 0 <= b < 256) (inp s) ->
  exists s2 : session,
    iterates (fun n => interpret_body n f) s s2
    /\ out s2 = out s ++ [hd 0 (inp s)]
    /\ inp s2 = tl (inp s)
    /\ to_uchar (cell s2) = hd 0 (inp s)
    /\ fpos s2 = fpos s + 2
    /\ stackptr s2 = stackptr s /\ depth s2 = depth s.
Proof.
  intros (Hc & Hd & _) Hp Hok Hin.
  pose proof (byte_at_nonneg _ _ _ Hc) as Hpos.
  set (v := match inp s with [] => 0 | b :: _ => to_char b end).
  set (s0 := match inp s with [] => s | _ :: rest => set_inp s rest end).
  assert (to_uchar v = hd 0 (inp s)) as Hv.
  { unfold v. destruct Hin as [|b rest Hb _]; [reflexivity|].
    simpl. rewrite to_uchar_to_char. apply Z.mod_small. exact Hb. }
  assert (input_byte s = (v, s0)) as Ein
      by (unfold input_byte, v, s0; destruct (inp s); reflexivity).
  assert (tape_ok s0 /\ stackptr s0 = stackptr s /\ fpos s0 = fpos s
          /\ depth s0 = depth s /\ out s0 = out s /\ inp s0 = tl (inp s))
    as (Hok0 & Esp0 & Efp0 & Edp0 & Eout0 & Einp0).
  { unfold s0. destruct (inp s) as [|b rest] eqn:E.
    - split; [assumption|]. repeat split. exact E.
    - split; [apply (tape_ok_stack s); [reflexivity | assumption]|].
      repeat split. }
  destruct (set_cell_fields s0 v) as (Esp & Edp & Efp & Einp & Eout).
  set (s1 := set_fpos (set_cell s0 v) (fpos s + 1)).
  set (s2 := set_fpos (print_byte s1 (cell s1)) (fpos s + 2)).
  assert (cell s1 = v) as Hcell.
  { change (cell s1) with (cell (set_cell s0 v)).
    apply cell_set_cell; [assumption | rewrite Esp0; assumption]. }
  exists s2. split.
  - apply (iterates_step (fun n => interpret_body n f) s s1 s2);
      [|apply iterates_one].
    + apply returns_always. intros n.
      rewrite (interpret_body_command n f s _ Hc);
        [|vm_compute; congruence | assumption].
      change (to_char ch_comma) with ch_comma.
      cbn [command Z.eqb Pos.eqb ch_gt ch_lt ch_plus ch_minus ch_dot ch_comma].
      rewrite Ein, Efp, Efp0, fmove_forward by lia. reflexivity.
    + apply returns_always. intros n.
      rewrite (interpret_body_command n f s1 ch_dot);
        [|exact Hd | vm_compute; congruence
         |change (stackptr s1) with (stackptr (set_cell s0 v));
          rewrite Esp, Esp0; assumption].
      change (to_char ch_dot) with ch_dot.
      cbn [command Z.eqb Pos.eqb ch_gt ch_lt ch_plus ch_minus ch_dot].
      cbn [fpos print_byte set_out set_fpos s1].
      rewrite fmove_forward by lia.
      replace (fpos s + 1 + 1) with (fpos s + 2) by lia. reflexivity.
  - split.
    { unfold s2. cbn [out set_fpos print_byte set_out].
      rewrite Hcell, Hv. change (out s1) with (out (set_cell s0 v)).
      rewrite Eout, Eout0. reflexivity. }
    split.
    { change (inp s2) with (inp (set_cell s0 v)). rewrite Einp. exact Einp0. }
    split.
    { change (cell s2) with (cell s1). rewrite Hcell. exact Hv. }
    split; [reflexivity|]. split.
    { change (stackptr s2) with (stackptr (set_cell s0 v)).
      rewrite Esp. exact Esp0. }
    change (depth s2) with (depth (set_cell s0 v)). rewrite Edp. exact Edp0.
Qed.

Lemma input_then_print_witness :
  segment_at (bytes ",.") (fpos (initial [65])) [ch_comma; ch_dot]
  /\ exists s2 : session,
       iterates (fun n => interpret_body n (bytes ",.")) (initial [65]) s2
       /\ out s2 = [65] /\ inp s2 = [].
Proof.
  assert (segment_at (bytes ",.") (fpos (initial [65])) [ch_comma; ch_dot])
    as Hseg by (vm_compute; tauto).
  split; [exact Hseg|].
  destruct (input_then_print (bytes ",.") (initial [65]) Hseg
              ltac:(vm_compute; split; congruence)
              (tape_ok_initial [65])
              ltac:(repeat constructor; lia))
    as (s2 & H1 & H2 & H3 & _).
  exists s2. repeat split; assumption.
Defined.

(** * Constructs left open at the end of the file *)

(** An iteration that leaves the cursor at the end of the file is the last
    one: the next read fails, steps the cursor back onto the last byte, and
    the run ends with [ERR_OK]. *)
Lemma interpret_file_last_iteration (f : file) (s s1 : session) :
  returns (fun n => interpret_body n f s) (inl s1) ->
  fpos s1 = len f -> 0 < len f ->
  returns (fun n => interpret_file n f s) (ERR_OK, set_fpos s1 (len f - 1)).
Proof.
  intros Hstep Hpos Hlen. unfold interpret_file.
  apply (while_returns (fun n => interpret_body n f) s s1).
  - apply iterates_one. exact Hstep.
  - apply returns_always. intros n.
    rewrite interpret_body_eof;
      [|rewrite Hpos; lia | rewrite Hpos; apply byte_at_end; lia].
    rewrite Hpos, (proj2 (Z.ltb_lt 0 (len f)) Hlen). reflexivity.
Qed.

Lemma ffindc_to_eof (f : file) (c : Z) (k : list Z) (p : Z) :
  is_bytes f -> Forall (fun b => b <> c) k -> 0 <= p ->
  segment_at f p k -> p + len k = len f -> 0 < len f ->
  returns (fun n => ffindc n f c p) (EOF, len f - 1).
Proof.
  intros Hf Hk Hp Hseg Hend Hlen. unfold ffindc.
  apply (while_returns (fun _ => ffindc_body f c) _ (p + len k)).
  - apply ffindc_scan; assumption.
  - apply returns_always. intros _. unfold ffindc_body.
    rewrite Hend, (freadc_eof f (len f));
      [|lia | apply byte_at_end; lia].
    rewrite (proj2 (Z.ltb_lt 0 (len f)) Hlen). reflexivity.
Qed.

(** X10.  A line comment that runs to the end of the file without a newline
    ends the run with [ERR_OK]: nothing of the session changes but the
    cursor, left on the last byte. *)
Theorem line_comment_to_end_of_file (f : file) (s : session) (k : list Z) :
  is_bytes f -> segment_at f (fpos s) (ch_hash :: k) ->
  fpos s + 1 + len k = len f -> Forall (fun b => b <> ch_nl) k ->
  0 <= stackptr s < STACK_SIZE ->
  returns (fun n => interpret_file n f s) (ERR_OK, set_fpos s (len f - 1)).
Proof.
  intros Hf Hseg Hend Hk Hp. pose proof Hseg as [Hh _].
  pose proof (byte_at_lt _ _ _ Hh) as Hlt. pose proof (len_nonneg k) as Hlk.
  apply (interpret_file_last_iteration f s (set_fpos s (len f)));
    [|reflexivity|lia].
  eapply returns_ext.
  { intros n. symmetry.
    rewrite (interpret_body_command n f s _ Hh);
      [|vm_compute; congruence|assumption].
    change (to_char ch_hash) with ch_hash. rewrite command_hash. reflexivity. }
  eapply (returns_ext
            (fun n => match ffindc n f ch_nl (fpos s) with
                      | None => None
                      | Some x => Some (inl (set_fpos s (fmove (snd x) 1)))
                      end)).
  { intros n. destruct (ffindc n f _ _) as [[v pos]|]; reflexivity. }
  eapply (returns_bind _ (fun _ x => Some _)).
  - apply (ffindc_to_eof f ch_nl (ch_hash :: k) (fpos s) Hf); try lia.
    + constructor; [vm_compute; congruence | assumption].
    + exact Hseg.
    + rewrite len_cons. lia.
  - cbn [snd]. rewrite fmove_forward by lia.
    replace (len f - 1 + 1) with (len f) by lia. apply returns_const.
Qed.

Lemma line_comment_to_end_of_file_witness :
  is_bytes (bytes "+#[x")
  /\ returns (fun n => interpret_file n (bytes "+#[x")
                         (set_fpos (set_cell (initial []) 1) 1))
       (ERR_OK, set_fpos (set_fpos (set_cell (initial []) 1) 1) 3).
Proof.
  assert (is_bytes (bytes "+#[x")) as Hf
      by (apply is_bytes_check; vm_compute; reflexivity).
  split; [exact Hf|].
  apply (line_comment_to_end_of_file (bytes "+#[x") _ (bytes "[x") Hf).
  - vm_compute. tauto.
  - reflexivity.
  - repeat constructor; vm_compute; congruence.
  - vm_compute. split; congruence.
Defined.

(** X11.  A parenthesised comment that is never closed swallows the rest of
    the source: dispatching its ['('] ends the run with [ERR_OK], with
    nothing of the session changed but the cursor, left on the last byte. *)
Theorem open_comment_to_end_of_file (f : file) (s : session) (k : list Z) :
  is_bytes f -> segment_at f (fpos s) (ch_lparen :: k) ->
  fpos s + 1 + len k = len f -> nested ch_lparen ch_rparen k ->
  0 <= stackptr s < STACK_SIZE ->
  returns (fun n => interpret_file n f s) (ERR_OK, set_fpos s (len f - 1)).
Proof.
  intros Hf Hseg Hend Hk Hp. pose proof Hseg as [Ho Hsk].
  pose proof (byte_at_lt _ _ _ Ho) as Hlt. pose proof (len_nonneg k) as Hlk.
  apply (interpret_file_last_iteration f s (set_fpos s (len f)));
    [|reflexivity|lia].
  eapply returns_ext.
  { intros n. symmetry.
    rewrite (interpret_body_command n f s _ Ho);
      [|vm_compute; congruence|assumption].
    change (to_char ch_lparen) with ch_lparen. rewrite command_lparen.
    reflexivity. }
  eapply (returns_ext
            (fun n => match ffindc_matching n f ch_lparen ch_rparen 1 (fpos s)
                      with
                      | None => None
                      | Some x => Some (inl (set_fpos s (fmove (snd x) 1)))
                      end)).
  { intros n. destruct (ffindc_matching n f _ _ _ _) as [[v pos]|];
      reflexivity. }
  eapply (returns_bind _ (fun _ x => Some _)).
  - unfold ffindc_matching. change (1 <? 0) with false. cbv iota.
    apply (while_returns (fun _ => ffindc_matching_body f ch_lparen ch_rparen 1)
             _ (1, len f) (EOF, len f - 1)).
    + eapply iterates_step.
      { apply returns_always. intros _.
        apply (ffindc_matching_body_c1 f _ _ 1 0 _ Ho).
        vm_compute. congruence. }
      rewrite fmove_forward by lia.
      pose proof (scan_forward_nested f _ _ Hf lparen_rparen k Hk
                    (fpos s + 1) 1 ltac:(lia) ltac:(lia) Hsk) as H.
      rewrite Hend in H. exact H.
    + apply returns_always. intros _. unfold ffindc_matching_body.
      rewrite (freadc_eof f (len f)); [|lia | apply byte_at_end; lia].
      rewrite (proj2 (Z.ltb_lt 0 (len f))) by lia. reflexivity.
  - cbn [snd]. rewrite fmove_forward by lia.
    replace (len f - 1 + 1) with (len f) by lia. apply returns_const.
Qed.

Lemma open_comment_to_end_of_file_witness :
  is_bytes (bytes ")(+(a)]")
  /\ returns (fun n => interpret_file n (bytes ")(+(a)]")
                         (set_fpos (initial []) 1))
       (ERR_OK, set_fpos (set_fpos (initial []) 1) 6).
Proof.
  assert (is_bytes (bytes ")(+(a)]")) as Hf
      by (apply is_bytes_check; vm_compute; reflexivity).
  split; [exact Hf|].
  apply (open_comment_to_end_of_file (bytes ")(+(a)]") _ (bytes "+(a)]") Hf).
  - vm_compute. tauto.
  - reflexivity.
  - apply nested_other; [vm_compute; congruence..|].
    apply (nested_pair _ _ (bytes "a") (bytes "]")).
    + apply nested_other; [vm_compute; congruence..|]. apply nested_nil.
    + apply nested_other; [vm_compute; congruence..|]. apply nested_nil.
  - vm_compute. split; congruence.
Defined.

(** X12.  A loop opened on a zero cell and never closed skips the rest of
    the source, when that rest reads as the text of a loop: bytes that are
    no delimiter and not 0xFF, closed loops, and parenthesised comments
    (whatever they hold, 0xFF included); the brackets of line comments count
    as code.  The run then ends with [ERR_OK], [depth] incremented and the
    cursor on the last byte, the tape, the pointer, the input and the output
    untouched.  (A byte 0xFF outside a comment would stop the scan, which
    reads it as [EOF].) *)
Theorem open_loop_to_end_of_file (f : file) (s : session) (k : list Z) :
  is_bytes f -> len f < 2 ^ 32 ->
  segment_at f (fpos s) (ch_lbrack :: k) ->
  fpos s + 1 + len k = len f -> loop_text k ->
  0 <= stackptr s < STACK_SIZE -> cell s = 0 ->
  returns (fun n => interpret_file n f s)
    (ERR_OK, set_fpos (set_depth s (to_uint (depth s + 1))) (len f - 1)).
Proof.
  intros Hf Hshort Hseg Hend Hk Hp Hc. pose proof Hseg as [Ho Hsk].
  pose proof (byte_at_lt _ _ _ Ho) as Hlt. pose proof (len_nonneg k) as Hlk.
  apply (interpret_file_last_iteration f s
           (set_fpos (set_depth s (to_uint (depth s + 1))) (len f)));
    [|reflexivity|lia].
  assert (returns (fun n => jump_forward n f s)
            (set_fpos (set_depth s (to_uint (depth s + 1))) (len f - 1)))
    as Hj.
  { unfold jump_forward.
    change (cell (set_depth s (to_uint (depth s + 1)))) with (cell s).
    rewrite Hc. simpl negb. cbv iota.
    cbn [fpos depth set_depth]. rewrite fmove_forward by lia.
    eapply (returns_bind _ (fun _ x => Some _)); [|apply returns_const].
    pose proof (to_uint_range (depth s + 1)) as Hd.
    apply (while_returns _ _ (to_uint (depth s + 1), len f)).
    - pose proof (jump_forward_scan f _ Hf Hd k Hk (fpos s + 1) 0) as H2.
      rewrite Z.add_0_r, (to_uint_small (to_uint _)) in H2 by assumption.
      rewrite <- Hend. apply H2; auto; lia.
    - apply returns_always. intros n. unfold jump_forward_body.
      rewrite (freadc_eof f (len f)); [|lia | apply byte_at_end; lia].
      rewrite (proj2 (Z.ltb_lt 0 (len f))) by lia. reflexivity. }
  pose proof (dispatch_jump_forward f s _ Ho Hp Hj) as H.
  cbn [fpos set_fpos set_depth] in H. rewrite fmove_forward in H by lia.
  replace (len f - 1 + 1) with (len f) in H by lia. exact H.
Qed.

Lemma open_loop_to_end_of_file_witness :
  is_bytes (bytes "][+[-].")
  /\ returns (fun n => interpret_file n (bytes "][+[-].")
                         (set_fpos (initial []) 1))
       (ERR_OK, set_fpos (set_depth (set_fpos (initial []) 1) 1) 6).
Proof.
  assert (is_bytes (bytes "][+[-].")) as Hf
      by (apply is_bytes_check; vm_compute; reflexivity).
  split; [exact Hf|].
  apply (open_loop_to_end_of_file (bytes "][+[-].") (set_fpos (initial []) 1)
           (bytes "+[-].") Hf).
  - vm_compute. reflexivity.
  - vm_compute. tauto.
  - reflexivity.
  - apply loop_text_plain; try (vm_compute; congruence).
    apply (loop_text_loop (bytes "-") (bytes ".")).
    + apply loop_text_plain; try (vm_compute; congruence). apply loop_text_nil.
    + apply loop_text_plain; try (vm_compute; congruence). apply loop_text_nil.
  - vm_compute. split; congruence.
  - reflexivity.
Defined.

(** * A loop close without a loop open *)

Lemma while_never_returns {St Res : Type} (body : St -> option (St + Res))
    (I : St -> Prop) :
  (forall s, I s ->
     body s = None \/ exists s', body s = Some (inl s') /\ I s') ->
  forall n s, I s -> while body n s = None.
Proof.
  intros Hstep n. induction n as [|n IH]; intros s Hs; [reflexivity|].
  simpl. destruct (Hstep s Hs) as [->|(s' & -> & Hs')]; [reflexivity|].
  apply IH, Hs'.
Qed.

Lemma fmoveback_range (pos : Z) : 0 <= pos -> 0 <= fmoveback pos 1 <= pos.
Proof.
  intros H. destruct (Z_le_gt_dec 1 pos).
  - rewrite fmoveback_one by assumption. lia.
  - assert (pos = 0) as -> by lia. vm_compute. split; congruence.
Qed.

(** X13.  A [']'] dispatched on a nonzero cell with no ['['] and no [')']
    anywhere before it never returns: the backward scan reaches the first
    byte of the file, where the seek backward fails, and reads that byte
    forever.  No amount of fuel ends the run. *)
Theorem unmatched_close_never_returns (pre post : list Z) (s : session) :
  is_bytes (pre ++ ch_rbrack :: post) ->
  Forall (fun b => b <> ch_lbrack /\ b <> ch_rparen) pre ->
  fpos s = len pre -> 0 <= stackptr s < STACK_SIZE -> cell s <> 0 ->
  forall n, interpret_file n (pre ++ ch_rbrack :: post) s = None.
Proof.
  intros Hf Hpre Hpos Hp Hc n.
  set (f := pre ++ ch_rbrack :: post) in *.
  assert (byte_at f (fpos s) = Some ch_rbrack) as Hb
      by (rewrite Hpos; apply byte_at_middle).
  assert (forall j b, 0 <= j <= len pre -> byte_at f j = Some b ->
                      b <> ch_lbrack /\ b <> ch_rparen) as Hfree.
  { intros j b Hj Hjb. destruct (Z.eq_dec j (len pre)) as [->|Hne].
    - subst f. rewrite byte_at_middle in Hjb. injection Hjb as <-.
      vm_compute. split; congruence.
    - subst f. unfold byte_at, file in Hjb.
      rewrite (proj2 (Z.leb_le 0 j)) in Hjb by lia.
      rewrite lookup_app_l in Hjb by (unfold len in *; lia).
      apply (proj1 (Forall_lookup _ _) Hpre _ _ Hjb). }
  assert (forall j, 0 <= j <= len pre -> exists b, byte_at f j = Some b) as Hin.
  { intros j Hj. unfold byte_at. rewrite (proj2 (Z.leb_le 0 j)) by lia.
    apply lookup_lt_is_Some. unfold f. rewrite length_app. simpl.
    unfold len in *. lia. }
  assert (jump_backward n f s = None) as Hj.
  { unfold jump_backward. rewrite (proj2 (Z.eqb_neq _ _) Hc).
    rewrite (while_never_returns (jump_backward_body n f (depth s))
               (fun st => 0 <= snd st <= len pre)); [reflexivity| |].
    - intros [cd pos] Hst. simpl in Hst. right.
      destruct (Hin pos Hst) as [b Hbyte].
      destruct (Hfree pos b Hst Hbyte) as [Hb1 Hb2].
      destruct (Z.eq_dec b ch_rbrack) as [->|Hb3].
      + rewrite (jump_backward_body_close f _ n cd pos Hbyte).
        eexists. split; [reflexivity|]. simpl.
        pose proof (fmoveback_range pos). lia.
      + rewrite (jump_backward_body_plain f _ Hf n cd pos b) by assumption.
        eexists. split; [reflexivity|]. simpl.
        pose proof (fmoveback_range pos). lia.
    - simpl. rewrite Hpos. pose proof (len_nonneg pre).
      pose proof (fmoveback_range (len pre)). lia. }
  unfold interpret_file. destruct n as [|n]; [reflexivity|].
  cbn [while].
  rewrite (interpret_body_command (S n) f s _ Hb);
    [|vm_compute; congruence | assumption].
  rewrite to_char_rbrack, command_rbrack, Hj. reflexivity.
Qed.

Lemma unmatched_close_never_returns_witness :
  is_bytes (bytes "+" ++ ch_rbrack :: bytes "[")
  /\ reachable (bytes "+" ++ ch_rbrack :: bytes "[") []
       (set_fpos (set_cell (initial []) 1) 1)
  /\ forall n, interpret_file n (bytes "+" ++ ch_rbrack :: bytes "[")
                 (set_fpos (set_cell (initial []) 1) 1) = None.
Proof.
  assert (is_bytes (bytes "+" ++ ch_rbrack :: bytes "[")) as Hf
      by (apply is_bytes_check; vm_compute; reflexivity).
  split; [exact Hf|]. split.
  { eapply reachable_step; [apply reachable_initial|].
    apply returns_always. intros n. vm_compute. reflexivity. }
  apply (unmatched_close_never_returns (bytes "+") (bytes "[") _ Hf).
  - repeat constructor; vm_compute; congruence.
  - reflexivity.
  - vm_compute. split; congruence.
  - vm_compute. congruence.
Defined.

(** * What the loop commands and the dispatcher leave alone *)

(** X14.  Whatever the source and the cell, and whether or not they scan,
    the loop commands change nothing of the session but [depth] and the
    cursor: [jump_forward] adds one to [depth] and [jump_backward] takes one
    off, modulo 2^32, and the tape, the tape pointer, the input and the
    output are as before. *)
Theorem loop_commands_frame (n : nat) (f : file) (s s' : session) :
  (jump_forward n f s = Some s' ->
   stack s' = stack s /\ stackptr s' = stackptr s
   /\ inp s' = inp s /\ out s' = out s
   /\ depth s' = to_uint (depth s + 1))
  /\ (jump_backward n f s = Some s' ->
      stack s' = stack s /\ stackptr s' = stackptr s
      /\ inp s' = inp s /\ out s' = out s
      /\ depth s' = to_uint (depth s - 1)).
Proof.
  split; intros H.
  - destruct (jump_forward_frame n f s s' H) as (H1 & H2 & H3 & H4 & H5 & _).
    repeat split; assumption.
  - destruct (jump_backward_frame n f s s' H) as (H1 & H2 & H3 & H4 & H5 & _).
    repeat split; assumption.
Qed.

Lemma loop_commands_frame_witness :
  jump_forward 3 (bytes "[+]-") (initial [])
  = Some (set_fpos (set_depth (initial []) 1) 2)
  /\ stack (set_fpos (set_depth (initial []) 1) 2) = stack (initial []).
Proof.
  assert (jump_forward 3 (bytes "[+]-") (initial [])
          = Some (set_fpos (set_depth (initial []) 1) 2)) as H
      by (vm_compute; reflexivity).
  split; [exact H|].
  apply (proj1 (loop_commands_frame 3 (bytes "[+]-") (initial []) _) H).
Defined.

Lemma command_io (n : nat) (f : file) (c : Z) (s s' : session) :
  command n f c s = Some (Some s') ->
  (out s' = out s
   \/ (c = ch_dot /\ out s' = out s ++ [to_uchar (cell s)]))
  /\ (inp s' = inp s \/ (c = ch_comma /\ inp s' = tl (inp s))).
Proof.
  unfold command. intros H.
  destruct (set_cell_fields s (to_char (cell s + 1))) as (_ & _ & _ & Ea & Eb).
  destruct (set_cell_fields s (to_char (cell s - 1))) as (_ & _ & _ & Ec & Ed).
  destruct (Z.eqb_spec c ch_gt); [injection H as <-; auto|].
  destruct (Z.eqb_spec c ch_lt); [injection H as <-; auto|].
  destruct (Z.eqb_spec c ch_plus); [injection H as <-; auto|].
  destruct (Z.eqb_spec c ch_minus); [injection H as <-; auto|].
  destruct (Z.eqb_spec c ch_dot); [injection H as <-; split; auto|].
  destruct (Z.eqb_spec c ch_comma).
  { unfold input_byte in H.
    destruct (inp s) as [|b rest] eqn:Ei; injection H as <-.
    - destruct (set_cell_fields s 0) as (_ & _ & _ & -> & ->).
      split; [auto|]. right. split; [assumption|]. rewrite Ei. reflexivity.
    - destruct (set_cell_fields (set_inp s rest) (to_char b))
        as (_ & _ & _ & -> & ->).
      split; [auto|]. right. split; [assumption|]. reflexivity. }
  destruct (Z.eqb_spec c ch_lbrack).
  { destruct (jump_forward n f s) as [s1|] eqn:E; [|discriminate].
    injection H as <-.
    destruct (jump_forward_frame _ _ _ _ E) as (_ & _ & -> & -> & _). auto. }
  destruct (Z.eqb_spec c ch_rbrack).
  { destruct (jump_backward n f s) as [s1|] eqn:E; [|discriminate].
    injection H as <-.
    destruct (jump_backward_frame _ _ _ _ E) as (_ & _ & -> & -> & _). auto. }
  destruct ((c =? ch_nl) || (c =? ch_nul)); [injection H as <-; auto|].
  destruct (Z.eqb_spec c ch_lparen).
  { destruct (ffindc_matching n f _ _ _ _) as [[v q]|]; [|discriminate].
    injection H as <-. auto. }
  destruct (Z.eqb_spec c ch_rparen); [injection H as <-; auto|].
  destruct (Z.eqb_spec c ch_hash).
  { destruct (ffindc n f _ _) as [[v q]|]; [|discriminate].
    injection H as <-. auto. }
  destruct ((c =? ch_space) || (c =? ch_cr) || (c =? ch_tab));
    [injection H as <-; auto | discriminate].
Qed.

Lemma freadc_cases (f : file) (p : Z) :
  0 <= p ->
  (exists b, byte_at f p = Some b /\ freadc f p = (b, p))
  \/ (byte_at f p = None /\ fst (freadc f p) = EOF).
Proof.
  intros Hp. destruct (byte_at f p) as [b|] eqn:E.
  - left. exists b. split; [reflexivity | apply freadc_byte, E].
  - right. split; [reflexivity|]. rewrite (freadc_eof f p Hp E). reflexivity.
Qed.

(** X15.  An iteration of the dispatcher appends at most one byte to the
    output and consumes at most one line of input.  It prints only when the
    byte under the cursor is [.], and then the byte of the current cell; it
    reads only when that byte is [,].  The iteration that ends the run
    neither prints nor reads. *)
Theorem dispatch_io (n : nat) (f : file) (s : session)
    (x : session + Error * session) :
  is_bytes f -> 0 <= fpos s ->
  interpret_body n f s = Some x ->
  match x with
  | inl s' =>
      (out s' = out s
       \/ (byte_at f (fpos s) = Some ch_dot
           /\ out s' = out s ++ [to_uchar (cell s)]))
      /\ (inp s' = inp s
          \/ (byte_at f (fpos s) = Some ch_comma /\ inp s' = tl (inp s)))
  | inr (_, s') => out s' = out s /\ inp s' = inp s
  end.
Proof.
  intros Hf Hp. unfold interpret_body.
  destruct (freadc_cases f (fpos s) Hp) as [(b & Hb & ->)|[Hb E]].
  - rewrite set_fpos_same.
    pose proof (byte_at_is_byte f _ _ Hf Hb) as Hbyte.
    destruct (to_char_byte b Hbyte) as [_ Heq].
    destruct (to_char b =? EOF); [intros [= <-]; auto|].
    destruct (stackptr s <? 0); [intros [= <-]; auto|].
    destruct (STACK_SIZE <=? stackptr s); [intros [= <-]; auto|].
    destruct (command n f (to_char b) s) as [[s1|]|] eqn:Ec;
      [|intros [= <-]; auto|discriminate].
    intros [= <-]. cbn [out inp set_fpos].
    destruct (command_io n f _ s s1 Ec) as [Ho Hi].
    split.
    + destruct Ho as [Ho|[Ho1 Ho2]]; [left; exact Ho|right].
      split; [|exact Ho2].
      apply Heq in Ho1; [|unfold ch_dot; lia]. subst b. exact Hb.
    + destruct Hi as [Hi|[Hi1 Hi2]]; [left; exact Hi|right].
      split; [|exact Hi2].
      apply Heq in Hi1; [|unfold ch_comma; lia]. subst b. exact Hb.
  - destruct (freadc f (fpos s)) as [v q]. simpl in E. subst v.
    change (to_char EOF =? EOF) with true. cbv iota.
    intros [= <-]. auto.
Qed.

Lemma dispatch_io_witness :
  is_bytes (bytes ".") /\ 0 <= fpos (set_cell (initial []) 65)
  /\ interpret_body 0 (bytes ".") (set_cell (initial []) 65)
     = Some (inl (set_fpos (print_byte (set_cell (initial []) 65) 65) 1))
  /\ out (set_fpos (print_byte (set_cell (initial []) 65) 65) 1) = [65].
Proof.
  assert (is_bytes (bytes ".")) as Hf
      by (apply is_bytes_check; vm_compute; reflexivity).
  assert (interpret_body 0 (bytes ".") (set_cell (initial []) 65)
          = Some (inl (set_fpos (print_byte (set_cell (initial []) 65) 65) 1)))
    as H by (vm_compute; reflexivity).
  assert (0 <= fpos (set_cell (initial []) 65)) as Hp
      by (vm_compute; discriminate).
  split; [exact Hf|]. split; [exact Hp|]. split; [exact H|].
  destruct (dispatch_io 0 (bytes ".") _ _ Hf Hp H)
    as [[Ho|[_ Ho]] _]; [|rewrite Ho]; reflexivity.
Defined.

(** * Termination of the forward scans *)

Lemma while_total {St Res : Type} (body : nat -> St -> option (St + Res))
    (I : St -> Prop) (Q : Res -> Prop) (m : St -> nat) :
  (forall s, I s ->
     exists x, returns (fun n => body n s) x
               /\ match x with
                  | inl s' => I s' /\ (m s' < m s)%nat
                  | inr r => Q r
                  end) ->
  forall s, I s -> exists r, returns (fun n => while (body n) n s) r /\ Q r.
Proof.
  intros Hstep.
  assert (forall k s, (m s < k)%nat -> I s ->
            exists s_exit r, iterates body s s_exit
                             /\ returns (fun n => body n s_exit) (inr r)
                             /\ Q r) as Hind.
  { induction k as [|k IH]; intros s Hm Hs; [lia|].
    destruct (Hstep s Hs) as ([s'|r] & Hret & Hx).
    - destruct Hx as [Hs' Hlt].
      destruct (IH s' ltac:(lia) Hs') as (s_exit & r & Hit & Hr & Hq).
      exists s_exit, r. split; [|split; assumption].
      eapply iterates_step; eassumption.
    - exists s, r. split; [apply iterates_refl|]. split; assumption. }
  intros s Hs.
  destruct (Hind (S (m s)) s ltac:(lia) Hs) as (s_exit & r & Hit & Hr & Hq).
  exists r. split; [|exact Hq]. eapply while_returns; eassumption.
Qed.

Lemma byte_at_None (f : file) (p : Z) :
  0 <= p -> byte_at f p = None -> len f <= p.
Proof.
  unfold byte_at, len. intros Hp. rewrite (proj2 (Z.leb_le 0 p) Hp).
  intros H%lookup_ge_None. lia.
Qed.

(** From a valid offset the scan of a line comment returns, at or after the
    offset it started from and on a byte of the file. *)
Lemma ffindc_total (f : file) (c p0 : Z) :
  0 <= p0 < len f ->
  exists r, returns (fun n => ffindc n f c p0) r /\ p0 <= snd r < len f.
Proof.
  intros Hp0. unfold ffindc.
  apply (while_total (fun _ => ffindc_body f c)
           (fun p => p0 <= p <= len f) (fun r => p0 <= snd r < len f)
           (fun p => Z.to_nat (len f - p))); [|lia].
  intros p Hp. unfold ffindc_body.
  destruct (freadc_cases f p ltac:(lia)) as [(b & Hb & ->)|[Hb E]].
  - pose proof (byte_at_lt _ _ _ Hb) as Hlt.
    destruct (b =? EOF); [eexists; split; [apply returns_const|simpl; lia]|].
    destruct (b =? c); [eexists; split; [apply returns_const|simpl; lia]|].
    eexists. split; [apply returns_const|].
    rewrite fmove_forward by lia. split; lia.
  - apply byte_at_None in Hb as Hge; [|lia].
    rewrite (freadc_eof f p ltac:(lia) Hb).
    rewrite (proj2 (Z.ltb_lt 0 p)) by lia.
    eexists. split; [apply returns_const|]. simpl. lia.
Qed.

(** So does the forward scan for a matching delimiter. *)
Lemma ffindc_matching_forward_total (f : file) (c1 c2 direction p0 : Z) :
  0 <= direction -> 0 <= p0 < len f ->
  exists r, returns (fun n => ffindc_matching n f c1 c2 direction p0) r
            /\ p0 <= snd r < len f.
Proof.
  intros Hd Hp0. unfold ffindc_matching.
  rewrite (proj2 (Z.ltb_ge direction 0) Hd).
  apply (while_total (fun _ => ffindc_matching_body f c1 c2 1)
           (fun st => p0 <= snd st <= len f) (fun r => p0 <= snd r < len f)
           (fun st => Z.to_nat (len f - snd st))); [|simpl; lia].
  intros [d p] Hp. simpl in Hp. unfold ffindc_matching_body.
  destruct (freadc_cases f p ltac:(lia)) as [(b & Hb & ->)|[Hb E]].
  - pose proof (byte_at_lt _ _ _ Hb) as Hlt.
    rewrite fmove_forward by lia.
    destruct (b =? EOF); [eexists; split; [apply returns_const|simpl; lia]|].
    destruct (b =? c1);
      [eexists; split; [apply returns_const|simpl; split; lia]|].
    destruct (b =? c2).
    + destruct (d =? 1);
        eexists; (split; [apply returns_const|simpl; try split; lia]).
    + eexists. split; [apply returns_const|]. simpl. split; lia.
  - apply byte_at_None in Hb as Hge; [|lia].
    rewrite (freadc_eof f p ltac:(lia) Hb).
    rewrite (proj2 (Z.ltb_lt 0 p)) by lia.
    eexists. split; [apply returns_const|]. simpl. lia.
Qed.

Lemma jump_forward_total (f : file) (s : session) :
  0 <= fpos s < len f ->
  exists s', returns (fun n => jump_forward n f s) s'
             /\ fpos s <= fpos s' < len f.
Proof.
  intros Hp. unfold jump_forward.
  change (cell (set_depth s (to_uint (depth s + 1)))) with (cell s).
  destruct (negb (cell s =? 0)).
  { eexists. split; [apply returns_const|]. simpl. lia. }
  cbn [fpos depth set_depth]. rewrite fmove_forward by lia.
  destruct (while_total (fun n => jump_forward_body n f (to_uint (depth s + 1)))
              (fun st => fpos s + 1 <= snd st <= len f)
              (fun r => fpos s <= r < len f)
              (fun st => Z.to_nat (len f - snd st))) with
    (s := (to_uint (depth s + 1), fpos s + 1)) as (r & Hr & Hq);
    [|simpl; lia|].
  - intros [cd p] Hst. simpl in Hst. unfold jump_forward_body.
    destruct (freadc_cases f p ltac:(lia)) as [(b & Hb & ->)|[Hb E]].
    + pose proof (byte_at_lt _ _ _ Hb) as Hlt.
      rewrite fmove_forward by lia.
      destruct (to_char b =? EOF);
        [eexists; split; [apply returns_const|simpl; lia]|].
      destruct (to_char b =? ch_lbrack);
        [eexists; split; [apply returns_const|simpl; split; lia]|].
      destruct (to_char b =? ch_rbrack).
      { destruct (cd =? _);
          eexists; (split; [apply returns_const|simpl; try split; lia]). }
      destruct (to_char b =? ch_lparen).
      * destruct (ffindc_matching_forward_total f ch_lparen ch_rparen 1 p)
          as ([v q] & Hret & Hq); [lia | lia |]. simpl in Hq.
        exists (inl (cd, fmove q 1)). split.
        -- eapply (returns_bind _ (fun _ x => let '(_, pos) := x in _));
             [exact Hret | apply returns_const].
        -- rewrite fmove_forward by lia. simpl. split; lia.
      * eexists. split; [apply returns_const|]. simpl. split; lia.
    + apply byte_at_None in Hb as Hge; [|lia].
      destruct (freadc f p) as [v q] eqn:Efr. simpl in E. subst v.
      rewrite (freadc_eof f p ltac:(lia) Hb) in Efr.
      rewrite (proj2 (Z.ltb_lt 0 p)) in Efr by lia. injection Efr as <-.
      change (to_char EOF =? EOF) with true. cbv iota.
      eexists. split; [apply returns_const|]. simpl. lia.
  - exists (set_fpos (set_depth s (to_uint (depth s + 1))) r).
    split; [|exact Hq].
    eapply (returns_bind _ (fun _ x => Some _)); [exact Hr|].
    apply returns_const.
Qed.

(** Every command but [']'] returns and leaves the cursor at or after the
    byte it was dispatched on. *)
Lemma command_total (f : file) (c : Z) (s : session) :
  c <> ch_rbrack -> 0 <= fpos s < len f ->
  exists x, returns (fun n => command n f c s) x
            /\ match x with
               | Some s' => fpos s <= fpos s' < len f
               | None => True
               end.
Proof.
  intros Hc Hp. unfold command.
  destruct (set_cell_fields s (to_char (cell s + 1))) as (_ & _ & Ea & _).
  destruct (set_cell_fields s (to_char (cell s - 1))) as (_ & _ & Eb & _).
  destruct (c =? ch_gt);
    [eexists; split; [apply returns_const|simpl; lia]|].
  destruct (c =? ch_lt);
    [eexists; split; [apply returns_const|simpl; lia]|].
  destruct (c =? ch_plus);
    [eexists; split; [apply returns_const|simpl; lia]|].
  destruct (c =? ch_minus);
    [eexists; split; [apply returns_const|simpl; lia]|].
  destruct (c =? ch_dot);
    [eexists; split; [apply returns_const|simpl; lia]|].
  destruct (c =? ch_comma).
  { unfold input_byte. destruct (inp s) as [|b rest].
    - destruct (set_cell_fields s 0) as (_ & _ & E & _).
      eexists; split; [apply returns_const|simpl; lia].
    - destruct (set_cell_fields (set_inp s rest) (to_char b))
        as (_ & _ & E & _).
      eexists; split; [apply returns_const|]. simpl. rewrite E. simpl. lia. }
  destruct (c =? ch_lbrack).
  { destruct (jump_forward_total f s Hp) as (s' & Hret & Hq).
    exists (Some s'). split; [|exact Hq].
    eapply (returns_bind _ (fun _ x => Some (Some x))); [exact Hret|].
    apply returns_const. }
  rewrite (proj2 (Z.eqb_neq c ch_rbrack) Hc).
  destruct ((c =? ch_nl) || (c =? ch_nul));
    [eexists; split; [apply returns_const|simpl; lia]|].
  destruct (c =? ch_lparen).
  { destruct (ffindc_matching_forward_total f ch_lparen ch_rparen 1 (fpos s))
      as ([v q] & Hret & Hq); [lia | lia |]. simpl in Hq.
    exists (Some (set_fpos s q)). split; [|exact Hq].
    eapply (returns_bind _ (fun _ x => let '(_, pos) := x in _));
      [exact Hret | apply returns_const]. }
  destruct (c =? ch_rparen);
    [eexists; split; [apply returns_const|simpl; lia]|].
  destruct (c =? ch_hash).
  { destruct (ffindc_total f ch_nl (fpos s)) as ([v q] & Hret & Hq); [lia|].
    simpl in Hq.
    exists (Some (set_fpos s q)). split; [|exact Hq].
    eapply (returns_bind _ (fun _ x => let '(_, pos) := x in _));
      [exact Hret | apply returns_const]. }
  destruct ((c =? ch_space) || (c =? ch_cr) || (c =? ch_tab));
    eexists; (split; [apply returns_const|simpl; try lia; trivial]).
Qed.

Lemma to_char_byte_neq (b c : Z) :
  0 <= b < 256 -> 0 <= c < 128 -> b <> c -> to_char b <> c.
Proof.
  intros Hb Hc Hne E. apply Hne.
  apply (proj2 (to_char_byte b Hb) c Hc). exact E.
Qed.

Lemma absent_check (c : Z) (f : file) :
  forallb (fun b => negb (b =? c)) f = true -> Forall (fun b => b <> c) f.
Proof.
  intros H. apply Forall_forall. intros b Hb.
  rewrite forallb_forall in H. apply list_elem_of_In in Hb.
  specialize (H b Hb). apply negb_true_iff, Z.eqb_neq in H. exact H.
Qed.

Lemma interpret_file_no_close (f : file) (s : session) :
  is_bytes f -> Forall (fun b => b <> ch_rbrack) f ->
  0 <= fpos s <= len f ->
  exists r, returns (fun n => interpret_file n f s) r
            /\ 0 <= fpos (snd r) <= len f.
Proof.
  intros Hf Hno Hp. unfold interpret_file.
  apply (while_total (fun n => interpret_body n f)
           (fun s => 0 <= fpos s <= len f)
           (fun r => 0 <= fpos (snd r) <= len f)
           (fun s => Z.to_nat (len f - fpos s))); [|exact Hp].
  clear s Hp. intros s Hp.
  destruct (byte_at f (fpos s)) as [b|] eqn:Hb.
  - pose proof (byte_at_lt _ _ _ Hb) as Hlt.
    assert (b ∈ f) as Hin.
    { unfold byte_at in Hb. destruct (0 <=? fpos s); [|discriminate].
      eapply list_elem_of_lookup_2, Hb. }
    assert (to_char b <> ch_rbrack) as Hc.
    { apply to_char_byte_neq.
      - exact (proj1 (Forall_forall _ _) Hf b Hin).
      - unfold ch_rbrack. lia.
      - exact (proj1 (Forall_forall _ _) Hno b Hin). }
    unfold interpret_body. rewrite (freadc_byte _ _ _ Hb).
    destruct s as [st sp d p i o]. cbn [set_fpos fpos stackptr] in *.
    destruct (to_char b =? EOF);
      [eexists; split; [apply returns_const|simpl; lia]|].
    destruct (sp <? 0);
      [eexists; split; [apply returns_const|simpl; lia]|].
    destruct (STACK_SIZE <=? sp);
      [eexists; split; [apply returns_const|simpl; lia]|].
    destruct (command_total f (to_char b) (mkSession st sp d p i o) Hc Hlt)
      as ([s'|] & Hret & Hq).
    + exists (inl (set_fpos s' (fmove (fpos s') 1))). split.
      * eapply (returns_bind _ (fun _ x => match x with
                                           | None => _ | Some s => _ end));
          [exact Hret | apply returns_const].
      * simpl in Hq. rewrite fmove_forward by lia.
        destruct s'; cbn [set_fpos fpos] in *. lia.
    + exists (inr (ERR_UNKNOWN_CHAR, mkSession st sp d p i o)). split.
      * eapply (returns_bind _ (fun _ x => match x with
                                           | None => _ | Some s => _ end));
          [exact Hret | apply returns_const].
      * simpl. lia.
  - apply byte_at_None in Hb as Hge; [|lia].
    exists (inr (ERR_OK, set_fpos s (if 0 <? fpos s then fpos s - 1 else fpos s))).
    split.
    + apply returns_always. intros n. apply interpret_body_eof; [lia|exact Hb].
    + destruct s as [st sp d p i o]. cbn [set_fpos fpos snd] in *.
      destruct (Z.ltb_spec 0 p); lia.
Qed.

(** X16.  The dispatcher returns on every source without [']']: from any
    session whose cursor is inside the file or at its end, whatever the tape,
    the pointer, the depth and the input are, the run ends, and it leaves the
    cursor inside the file or at its end.  Every command but [']'] leaves the
    cursor at or after the byte it was read from, so the cursor advances with
    each iteration. *)
Theorem no_close_always_returns (f : file) (s : session) :
  is_bytes f -> Forall (fun b => b <> ch_rbrack) f ->
  0 <= fpos s <= len f ->
  exists r, returns (fun n => interpret_file n f s) r
            /\ 0 <= fpos (snd r) <= len f.
Proof. apply interpret_file_no_close. Qed.

Lemma no_close_always_returns_witness :
  exists r, returns (fun n => interpret_file n (bytes ",[+(a)#b") (initial [])) r
            /\ 0 <= fpos (snd r) <= len (bytes ",[+(a)#b").
Proof.
  apply (no_close_always_returns (bytes ",[+(a)#b") (initial [])).
  - apply is_bytes_check. vm_compute. reflexivity.
  - apply absent_check. vm_compute. reflexivity.
  - vm_compute. split; discriminate.
Defined.

(** * The loop counter is used only relatively *)

Lemma while_agree {St St' Res Res' : Type}
    (R : St -> St' -> Prop) (Q : Res -> Res' -> Prop)
    (body : St -> option (St + Res)) (body' : St' -> option (St' + Res')) :
  (forall s s', R s s' ->
     agree (fun x y => match x, y with
                       | inl a, inl a' => R a a'
                       | inr r, inr r' => Q r r'
                       | _, _ => False
                       end) (body s) (body' s')) ->
  forall n s s', R s s' -> agree Q (while body n s) (while body' n s').
Proof.
  intros Hstep n. induction n as [|n IH]; intros s s' HR; simpl; [exact I|].
  specialize (Hstep s s' HR). unfold agree in Hstep.
  destruct (body s) as [[a|r]|], (body' s') as [[a'|r']|];
    try contradiction; try exact I.
  - apply IH, Hstep.
  - exact Hstep.
Qed.

Lemma to_uint_shift (d k j : Z) :
  to_uint (to_uint (d + k) + j) = to_uint (to_uint (d + j) + k).
Proof.
  unfold to_uint. rewrite !Zplus_mod_idemp_l. f_equal. lia.
Qed.

Lemma to_uint_shift_eqb (a b k : Z) :
  0 <= a < 2 ^ 32 -> 0 <= b < 2 ^ 32 ->
  (to_uint (a + k) =? to_uint (b + k)) = (a =? b).
Proof.
  intros Ha Hb. destruct (Z.eqb_spec a b) as [->|Hne].
  - apply Z.eqb_refl.
  - apply Z.eqb_neq. intros E. apply Hne. unfold to_uint in E.
    assert ((a + k - (b + k)) mod 2 ^ 32 = 0) as H0.
    { rewrite Zminus_mod, E, Z.sub_diag. reflexivity. }
    replace (a + k - (b + k)) with (a - b) in H0 by lia.
    apply Z.mod_divide in H0; [|lia]. destruct H0 as [q Hq].
    assert (q = 0) by nia. lia.
Qed.

Lemma jump_forward_shift (n : nat) (f : file) (k : Z) (s : session) :
  jump_forward n f (shift_depth k s)
  = option_map (shift_depth k) (jump_forward n f s).
Proof.
  unfold jump_forward, shift_depth. destruct s as [st sp d p i o].
  cbn [set_depth depth stack stackptr fpos inp out].
  change (cell (mkSession st sp (to_uint (to_uint (d + k) + 1)) p i o))
    with (cell (mkSession st sp (to_uint (d + 1)) p i o)).
  rewrite (to_uint_shift d k 1).
  destruct (negb _); [reflexivity|].
  pose proof (while_agree
    (fun a b => snd a = snd b /\ 0 <= fst a < 2 ^ 32
                /\ fst b = to_uint (fst a + k))
    eq
    (jump_forward_body n f (to_uint (d + 1)))
    (jump_forward_body n f (to_uint (to_uint (d + 1) + k)))) as H.
  specialize (H ltac:(
    intros [cd q] [cd' q'] (Eq & Hr & Ec); simpl in Eq, Hr, Ec; subst q' cd';
    unfold jump_forward_body;
    destruct (freadc f q) as [v q1];
    destruct (to_char v =? EOF); [reflexivity|];
    destruct (to_char v =? ch_lbrack);
      [simpl; split; [reflexivity|split;
         [apply to_uint_range | apply to_uint_shift]]|];
    destruct (to_char v =? ch_rbrack);
      [rewrite (to_uint_shift_eqb cd (to_uint (d + 1)) k Hr (to_uint_range _));
       destruct (cd =? _); [reflexivity|];
       simpl; split; [reflexivity|split;
         [apply to_uint_range | apply to_uint_shift]]|];
    destruct (to_char v =? ch_lparen);
      [destruct (ffindc_matching n f ch_lparen ch_rparen 1 q1) as [[? ?]|];
         simpl; auto|];
    simpl; auto) n (to_uint (d + 1), fmove p 1)
      (to_uint (to_uint (d + 1) + k), fmove p 1)
      ltac:(simpl; split; [reflexivity|split; [apply to_uint_range|reflexivity]])).
  unfold agree in H.
  destruct (while _ n (to_uint (d + 1), _)) as [r|],
           (while _ n (to_uint (to_uint (d + 1) + k), _)) as [r'|];
    try contradiction; [subst r'|]; reflexivity.
Qed.

Lemma jump_backward_shift (n : nat) (f : file) (k : Z) (s : session) :
  0 <= depth s < 2 ^ 32 ->
  jump_backward n f (shift_depth k s)
  = option_map (shift_depth k) (jump_backward n f s).
Proof.
  unfold jump_backward, shift_depth. destruct s as [st sp d p i o].
  cbn [set_depth depth stack stackptr fpos inp out]. intros Hd.
  change (cell (mkSession st sp (to_uint (d + k)) p i o))
    with (cell (mkSession st sp d p i o)).
  destruct (cell _ =? 0).
  { simpl. unfold set_depth. simpl. f_equal. f_equal.
    apply (to_uint_shift d k (-1)). }
  pose proof (while_agree
    (fun a b => snd a = snd b /\ 0 <= fst a < 2 ^ 32
                /\ fst b = to_uint (fst a + k))
    eq
    (jump_backward_body n f d)
    (jump_backward_body n f (to_uint (d + k)))) as H.
  specialize (H ltac:(
    intros [cd q] [cd' q'] (Eq & Hr & Ec); simpl in Eq, Hr, Ec; subst q' cd';
    unfold jump_backward_body;
    destruct (freadc f q) as [v q1];
    destruct (to_char v =? ch_rbrack);
      [simpl; split; [reflexivity|split;
         [apply to_uint_range | apply to_uint_shift]]|];
    destruct (to_char v =? ch_lbrack);
      [rewrite (to_uint_shift_eqb cd d k Hr Hd);
       destruct (cd =? _); [reflexivity|];
       simpl; split; [reflexivity|split;
         [apply to_uint_range | apply to_uint_shift]]|];
    destruct (to_char v =? ch_rparen);
      [destruct (ffindc_matching n f ch_rparen ch_lparen (-1) q1) as [[? ?]|];
         simpl; auto|];
    simpl; auto) n (d, fmoveback p 1) (to_uint (d + k), fmoveback p 1)
      ltac:(simpl; split; [reflexivity|split; [exact Hd|reflexivity]])).
  unfold agree in H.
  destruct (while _ n (d, _)) as [r|],
           (while _ n (to_uint (d + k), _)) as [r'|];
    try contradiction; [subst r'|]; [|reflexivity].
  simpl. unfold set_depth, set_fpos. simpl. f_equal. f_equal.
  apply (to_uint_shift d k (-1)).
Qed.

Lemma jump_forward_depth (n : nat) (f : file) (s s' : session) :
  jump_forward n f s = Some s' -> 0 <= depth s' < 2 ^ 32.
Proof.
  unfold jump_forward.
  destruct (negb _).
  - intros [= <-]. simpl. apply to_uint_range.
  - destruct (while _ _ _); [|discriminate]. intros [= <-]. simpl.
    apply to_uint_range.
Qed.

Lemma jump_backward_depth (n : nat) (f : file) (s s' : session) :
  jump_backward n f s = Some s' -> 0 <= depth s' < 2 ^ 32.
Proof.
  unfold jump_backward.
  destruct (cell s =? 0).
  - intros [= <-]. simpl. apply to_uint_range.
  - destruct (while _ _ _); [|discriminate]. intros [= <-]. simpl.
    apply to_uint_range.
Qed.

Lemma command_shift (n : nat) (f : file) (c k : Z) (s : session) :
  0 <= depth s < 2 ^ 32 ->
  command n f c (shift_depth k s)
  = option_map (option_map (shift_depth k)) (command n f c s).
Proof.
  intros Hd. unfold command.
  rewrite (jump_forward_shift n f k s), (jump_backward_shift n f k s Hd).
  destruct s as [st sp d p i o]. unfold shift_depth, cell, set_cell, input_byte,
    print_byte. cbn [set_depth depth stack stackptr fpos inp out].
  repeat (match goal with
          | |- context [if ?b then _ else _] => destruct b
          end; try reflexivity).
  all: try (destruct i; simpl; destruct (0 <=? sp); reflexivity).
  all: try (destruct (jump_forward _ _ _); reflexivity).
  all: try (destruct (jump_backward _ _ _); reflexivity).
  all: try (destruct (ffindc_matching _ _ _ _ _ _) as [[? ?]|]; reflexivity).
  all: try (destruct (ffindc _ _ _ _) as [[? ?]|]; reflexivity).
Qed.

Lemma command_depth (n : nat) (f : file) (c : Z) (s s' : session) :
  0 <= depth s < 2 ^ 32 ->
  command n f c s = Some (Some s') -> 0 <= depth s' < 2 ^ 32.
Proof.
  intros Hd. unfold command.
  repeat (match goal with
          | |- context [if ?b =? ?c then _ else _] => destruct (b =? c)
          | |- context [if (_ || _) then _ else _] => destruct (_ || _)
          end; try (intros [= <-]; exact Hd); try discriminate).
  all: try (unfold set_cell; destruct (0 <=? _); intros [= <-]; exact Hd).
  - unfold input_byte. destruct (inp s); unfold set_cell;
      destruct (0 <=? _); intros [= <-]; exact Hd.
  - destruct (jump_forward n f s) eqn:E; [|discriminate]. intros [= <-].
    eapply jump_forward_depth, E.
  - destruct (jump_backward n f s) eqn:E; [|discriminate]. intros [= <-].
    eapply jump_backward_depth, E.
  - destruct (ffindc_matching _ _ _ _ _ _) as [[? ?]|]; [|discriminate].
    intros [= <-]. exact Hd.
  - destruct (ffindc _ _ _ _) as [[? ?]|]; [|discriminate].
    intros [= <-]. exact Hd.
Qed.

Lemma interpret_body_shift (n : nat) (f : file) (k : Z) (s : session) :
  0 <= depth s < 2 ^ 32 ->
  interpret_body n f (shift_depth k s)
  = match interpret_body n f s with
    | None => None
    | Some (inl s') => Some (inl (shift_depth k s'))
    | Some (inr (e, s')) => Some (inr (e, shift_depth k s'))
    end.
Proof.
  intros Hd. unfold interpret_body.
  change (fpos (shift_depth k s)) with (fpos s).
  destruct (freadc f (fpos s)) as [v q].
  change (set_fpos (shift_depth k s) q) with (shift_depth k (set_fpos s q)).
  change (stackptr (shift_depth k (set_fpos s q))) with (stackptr (set_fpos s q)).
  destruct (to_char v =? EOF); [reflexivity|].
  destruct (stackptr _ <? 0); [reflexivity|].
  destruct (STACK_SIZE <=? _); [reflexivity|].
  rewrite command_shift by exact Hd.
  destruct (command n f (to_char v) (set_fpos s q)) as [[s'|]|]; reflexivity.
Qed.

Lemma interpret_body_depth (n : nat) (f : file) (s s' : session) :
  0 <= depth s < 2 ^ 32 ->
  interpret_body n f s = Some (inl s') -> 0 <= depth s' < 2 ^ 32.
Proof.
  intros Hd. unfold interpret_body.
  destruct (freadc f (fpos s)) as [v q].
  destruct (to_char v =? EOF); [discriminate|].
  destruct (stackptr _ <? 0); [discriminate|].
  destruct (STACK_SIZE <=? _); [discriminate|].
  destruct (command n f (to_char v) (set_fpos s q)) as [[s1|]|] eqn:E;
    try discriminate.
  intros [= <-]. simpl. eapply command_depth, E. exact Hd.
Qed.

Lemma interpret_file_shift (n : nat) (f : file) (k : Z) (s : session) :
  0 <= depth s < 2 ^ 32 ->
  interpret_file n f (shift_depth k s)
  = option_map (fun r => (fst r, shift_depth k (snd r))) (interpret_file n f s).
Proof.
  intros Hd. unfold interpret_file.
  pose proof (while_agree
    (fun a b => 0 <= depth a < 2 ^ 32 /\ b = shift_depth k a)
    (fun r r' => r' = (fst r, shift_depth k (snd r)))
    (interpret_body n f) (interpret_body n f)) as H.
  specialize (H ltac:(
    intros a b [Ha ->]; rewrite (interpret_body_shift n f k a Ha);
    pose proof (interpret_body_depth n f a) as Hnext;
    destruct (interpret_body n f a) as [[a'|[e a']]|]; simpl; auto)
    n s (shift_depth k s) (conj Hd eq_refl)).
  unfold agree in H.
  destruct (while _ n s) as [r|], (while _ n (shift_depth k s)) as [r'|];
    try contradiction; [subst r'|]; reflexivity.
Qed.

(** X17.  The dispatcher uses the loop counter [depth] only relatively: a
    run started with the counter moved by any [k] (wrapping as an
    [unsigned int]) does, with every amount of fuel, what the run from the
    original session does, and ends with the same status, tape, pointer,
    cursor, input and output; only the counter it leaves is moved by [k]. *)
Theorem depth_only_relative (n : nat) (f : file) (k : Z) (s : session) :
  0 <= depth s < 2 ^ 32 ->
  interpret_file n f (shift_depth k s)
  = option_map (fun r => (fst r, shift_depth k (snd r))) (interpret_file n f s).
Proof. apply interpret_file_shift. Qed.

Lemma depth_only_relative_witness :
  0 <= depth (initial []) < 2 ^ 32
  /\ interpret_file 60 (bytes "+[-]]") (shift_depth 7 (initial []))
     = option_map (fun r => (fst r, shift_depth 7 (snd r)))
         (interpret_file 60 (bytes "+[-]]") (initial [])).
Proof.
  split; [simpl; lia|].
  apply (depth_only_relative 60 (bytes "+[-]]") 7 (initial [])). simpl. lia.
Defined.

(** * What a whole run prints and reads *)

Lemma tl_drop {A : Type} (k : nat) (l : list A) : tl (drop k l) = drop (S k) l.
Proof.
  revert l. induction k as [|k IH]; intros l.
  - destruct l as [|a [|b l]]; reflexivity.
  - destruct l as [|a l]; [reflexivity|]. apply (IH l).
Qed.

Lemma interpret_body_io (n : nat) (f : file) (s : session)
    (x : session + Error * session) :
  interpret_body n f s = Some x ->
  let s' := match x with inl s' => s' | inr (_, s') => s' end in
  (out s' = out s \/ out s' = out s ++ [to_uchar (cell s)])
  /\ (inp s' = inp s \/ inp s' = tl (inp s)).
Proof.
  unfold interpret_body. destruct (freadc f (fpos s)) as [v q].
  destruct (to_char v =? EOF); [intros [= <-]; simpl; auto|].
  destruct (stackptr _ <? 0); [intros [= <-]; simpl; auto|].
  destruct (STACK_SIZE <=? _); [intros [= <-]; simpl; auto|].
  destruct (command n f (to_char v) (set_fpos s q)) as [[s1|]|] eqn:Ec;
    [|intros [= <-]; simpl; auto|discriminate].
  intros [= <-]. cbn [out inp set_fpos].
  destruct (command_io n f _ _ s1 Ec) as [Ho Hi].
  change (out (set_fpos s q)) with (out s) in Ho.
  change (inp (set_fpos s q)) with (inp s) in Hi.
  change (cell (set_fpos s q)) with (cell s) in Ho.
  split; [destruct Ho as [Ho|[_ Ho]]|destruct Hi as [Hi|[_ Hi]]]; auto.
Qed.

Lemma interpret_file_io (n : nat) (f : file) (s : session) (r : Error * session) :
  interpret_file n f s = Some r ->
  (exists o, out (snd r) = out s ++ o /\ Forall (fun b => 0 <= b < 256) o)
  /\ exists k, inp (snd r) = drop k (inp s).
Proof.
  unfold interpret_file.
  apply (while_invariant (interpret_body n f)
           (fun s1 => (exists o, out s1 = out s ++ o
                                 /\ Forall (fun b => 0 <= b < 256) o)
                      /\ exists k, inp s1 = drop k (inp s))
           (fun r => (exists o, out (snd r) = out s ++ o
                                /\ Forall (fun b => 0 <= b < 256) o)
                     /\ exists k, inp (snd r) = drop k (inp s))).
  - intros s1 s2 [(o & Eo & Ho) (k & Ek)] Hb.
    destruct (interpret_body_io n f s1 _ Hb) as [Ho' Hi']. simpl in Ho', Hi'.
    split.
    + destruct Ho' as [->| ->].
      * exists o. auto.
      * exists (o ++ [to_uchar (cell s1)]). rewrite Eo, app_assoc.
        split; [reflexivity|]. apply Forall_app. split; [exact Ho|].
        apply Forall_singleton. unfold to_uchar. apply Z.mod_pos_bound. lia.
    + destruct Hi' as [->| ->].
      * exists k. exact Ek.
      * exists (S k). rewrite Ek. apply tl_drop.
  - intros s1 [e s2] [(o & Eo & Ho) (k & Ek)] Hb.
    destruct (interpret_body_io n f s1 _ Hb) as [Ho' Hi']. simpl in Ho', Hi'.
    simpl. split.
    + destruct Ho' as [->| ->].
      * exists o. auto.
      * exists (o ++ [to_uchar (cell s1)]). rewrite Eo, app_assoc.
        split; [reflexivity|]. apply Forall_app. split; [exact Ho|].
        apply Forall_singleton. unfold to_uchar. apply Z.mod_pos_bound. lia.
    + destruct Hi' as [->| ->].
      * exists k. exact Ek.
      * exists (S k). rewrite Ek. apply tl_drop.
  - split; [exists []; rewrite app_nil_r; auto | exists 0%nat; reflexivity].
Qed.

(** X18.  A run never takes back what it has printed and never reads a line
    twice: whenever the dispatcher returns, the output it leaves is the
    output it started with followed by bytes between 0 and 255, and the input
    it leaves is the input it started with less some of its first lines. *)
Theorem run_io_only_grows (n : nat) (f : file) (s : session)
    (r : Error * session) :
  interpret_file n f s = Some r ->
  (exists o, out (snd r) = out s ++ o /\ Forall (fun b => 0 <= b < 256) o)
  /\ exists k, inp (snd r) = drop k (inp s).
Proof. apply interpret_file_io. Qed.

Lemma run_io_only_grows_witness :
  interpret_file 5 (bytes ",-.") (initial [0; 66])
  = Some (ERR_OK,
          set_fpos (print_byte (set_cell (set_inp (initial [0; 66]) [66]) (-1))
                      (-1)) 2)
  /\ (exists o, out (set_fpos (print_byte
                                (set_cell (set_inp (initial [0; 66]) [66]) (-1))
                                (-1)) 2) = [] ++ o
                /\ Forall (fun b => 0 <= b < 256) o)
  /\ exists k, [66] = drop k [0; 66].
Proof.
  assert (interpret_file 5 (bytes ",-.") (initial [0; 66])
          = Some (ERR_OK,
                  set_fpos (print_byte
                              (set_cell (set_inp (initial [0; 66]) [66]) (-1))
                              (-1)) 2)) as H
      by (vm_compute; reflexivity).
  split; [exact H|].
  exact (run_io_only_grows 5 (bytes ",-.") (initial [0; 66]) _ H).
Defined.

(** * The single-byte reads and scans *)

Lemma freadc_value (f : file) (pos : Z) :
  0 <= pos ->
  freadc f pos
  = (default EOF (byte_at f pos),
     if (pos <? len f) || (pos =? 0) then pos else pos - 1).
Proof.
  intros Hp. destruct (byte_at f pos) as [b|] eqn:E.
  - rewrite (freadc_byte _ _ _ E). apply byte_at_lt in E.
    rewrite (proj2 (Z.ltb_lt pos (len f))) by lia. reflexivity.
  - rewrite (freadc_eof _ _ Hp E). apply byte_at_None in E; [|exact Hp].
    rewrite (proj2 (Z.ltb_ge pos (len f))) by lia. simpl.
    destruct (Z.ltb_spec 0 pos), (Z.eqb_spec pos 0); try lia; reflexivity.
Qed.

(** X19.  [freadc] gives the byte under the cursor, or [EOF] at the end of
    the file.  It puts the cursor back where it was after reading a byte, but
    not at the end of the file: [fgetc] has not moved there, and the seek by
    -1 leaves the cursor one byte before the end, unless the file is empty or
    the cursor is at offset 0. *)
Theorem freadc_peek (f : file) (pos : Z) :
  0 <= pos ->
  freadc f pos
  = (default EOF (byte_at f pos),
     if (pos <? len f) || (pos =? 0) then pos else pos - 1).
Proof. apply freadc_value. Qed.

Lemma freadc_peek_witness :
  0 <= 2
  /\ freadc (bytes "ab") 2 = (EOF, 1)
  /\ freadc (bytes "ab") 1 = (98, 1).
Proof.
  split; [lia|]. split.
  - exact (freadc_peek (bytes "ab") 2 ltac:(lia)).
  - reflexivity.
Defined.

(** X20.  [ffindc] stops on the first occurrence of the [char] it looks
    for, for a [char] [c] between 0 and 127 (the argument is a [char], and a
    negative one equals no byte read as an [int]): when the bytes [k] from
    the cursor on are all different from [c] and are followed by [c], the
    scan returns [c] with the cursor on it.  The value compared with [EOF]
    is the [int] that [freadc] gives, so a byte 0xFF on the way does not
    stop this scan. *)
Theorem ffindc_first_occurrence (f : file) (c : Z) (k : list Z) (p : Z) :
  is_bytes f -> 0 <= c < 128 -> Forall (fun b => b <> c) k ->
  segment_at f p (k ++ [c]) ->
  returns (fun n => ffindc n f c p) (c, p + len k).
Proof. intros Hf _. apply ffindc_returns, Hf. Qed.

Lemma ffindc_first_occurrence_witness :
  is_bytes (35 :: 255 :: 10 :: bytes "+")
  /\ 0 <= ch_nl < 128
  /\ Forall (fun b => b <> ch_nl) [35; 255]
  /\ segment_at (35 :: 255 :: 10 :: bytes "+") 0 ([35; 255] ++ [ch_nl])
  /\ returns (fun n => ffindc n (35 :: 255 :: 10 :: bytes "+") ch_nl 0)
       (ch_nl, 2).
Proof.
  assert (is_bytes (35 :: 255 :: 10 :: bytes "+")) as Hf
      by (apply is_bytes_check; vm_compute; reflexivity).
  assert (0 <= ch_nl < 128) as Hc by (unfold ch_nl; lia).
  assert (Forall (fun b => b <> ch_nl) [35; 255]) as Hk
      by (apply absent_check; vm_compute; reflexivity).
  assert (segment_at (35 :: 255 :: 10 :: bytes "+") 0 ([35; 255] ++ [ch_nl]))
    as Hseg by (vm_compute; auto).
  split; [exact Hf|]. split; [exact Hc|]. split; [exact Hk|].
  split; [exact Hseg|].
  exact (ffindc_first_occurrence _ ch_nl [35; 255] 0 Hf Hc Hk Hseg).
Defined.
